(** * A shallow embedding of the C++ code iterator (code_analyzer.py,
      code_suggester.py) and the properties of its rule engine, formatter,
      response extractor and suggestion boundary.

    Python [str] values are modelled as lists of characters; the character
    classes of [re] and [str.strip] are given on the ASCII range (code
    points below 128), which is the range the theorems speak about. *)

From Stdlib Require Import List Arith ZArith Lia Bool Ascii String.
From Stdlib Require Import Permutation Sorted DecimalString.
From Stdlib Require QArith.
Import ListNotations.

Open Scope string_scope.
Open Scope list_scope.
Open Scope nat_scope.

(* ------------------------------------------------------------------ *)
(** ** Text *)

Definition text := list ascii.

Definition txt (s : string) : text := list_ascii_of_string s.
Coercion txt : string >-> text.

Definition nl : ascii := "010"%char.

Definition code_of (c : ascii) : nat := nat_of_ascii c.

Definition in_range (lo hi : nat) (c : ascii) : bool :=
  (lo <=? code_of c) && (code_of c <=? hi).

(** [str.isspace] on ASCII: TAB..CR, FS..US and SPACE. *)
Definition is_space (c : ascii) : bool :=
  in_range 9 13 c || in_range 28 32 c.

Definition is_digit (c : ascii) : bool := in_range 48 57 c.
Definition is_upper (c : ascii) : bool := in_range 65 90 c.
Definition is_lower (c : ascii) : bool := in_range 97 122 c.
Definition is_alpha (c : ascii) : bool := is_upper c || is_lower c.

(** [\w] on ASCII. *)
Definition is_word (c : ascii) : bool :=
  is_alpha c || is_digit c || Ascii.eqb c "_".

Definition text_eqb (a b : text) : bool :=
  if list_eq_dec ascii_dec a b then true else false.

Fixpoint starts_with (p s : text) : bool :=
  match p, s with
  | [], _ => true
  | _ :: _, [] => false
  | a :: p', b :: s' => Ascii.eqb a b && starts_with p' s'
  end.

(** [needle in hay] for two strings. *)
Fixpoint contains (needle hay : text) : bool :=
  starts_with needle hay ||
  match hay with
  | [] => false
  | _ :: hay' => contains needle hay'
  end.

(** [x in xs] for a string and a list of strings. *)
Definition elem (x : text) (xs : list text) : bool := existsb (text_eqb x) xs.

Fixpoint drop_while (p : ascii -> bool) (s : text) : text :=
  match s with
  | [] => []
  | c :: s' => if p c then drop_while p s' else s
  end.

Definition lstrip (s : text) : text := drop_while is_space s.
Definition rstrip (s : text) : text := rev (drop_while is_space (rev s)).
Definition strip (s : text) : text := rstrip (lstrip s).

(** [s.split(sep)] for a one-character separator. *)
Fixpoint split (sep : ascii) (s : text) : list text :=
  match s with
  | [] => [[]]
  | c :: s' =>
      if Ascii.eqb c sep then [] :: split sep s'
      else match split sep s' with
           | l :: ls => (c :: l) :: ls
           | [] => [[c]]
           end
  end.

(** [sep.join(parts)]. *)
Fixpoint join (sep : text) (parts : list text) : text :=
  match parts with
  | [] => []
  | [p] => p
  | p :: ps => p ++ sep ++ join sep ps
  end.

(** [s.replace(a, b)] for single characters. *)
Definition replace_char (a b : ascii) (s : text) : text :=
  map (fun c => if Ascii.eqb c a then b else c) s.

Definition to_upper (c : ascii) : ascii :=
  if is_lower c then ascii_of_nat (code_of c - 32) else c.
Definition to_lower (c : ascii) : ascii :=
  if is_upper c then ascii_of_nat (code_of c + 32) else c.

(** [s.title()]: a cased character is upper-cased when it follows an uncased
    one and lower-cased otherwise. *)
Fixpoint title_from (prev_cased : bool) (s : text) : text :=
  match s with
  | [] => []
  | c :: s' =>
      if is_alpha c
      then (if prev_cased then to_lower c else to_upper c) :: title_from true s'
      else c :: title_from false s'
  end.
Definition title (s : text) : text := title_from false s.

(** [str(n)] for a non-negative integer. *)
Definition str_of_nat (n : nat) : text :=
  txt (NilZero.string_of_uint (Nat.to_uint n)).

(** [xs[lo:hi]] for in-range bounds [lo <= hi]. *)
Definition slice {A} (lo hi : nat) (xs : list A) : list A :=
  firstn (hi - lo) (skipn lo xs).

(** [enumerate(xs)], counting from [start]. *)
Fixpoint enumerate_from {A} (start : nat) (xs : list A) : list (nat * A) :=
  match xs with
  | [] => []
  | x :: xs' => (start, x) :: enumerate_from (S start) xs'
  end.
Definition enumerate {A} (xs : list A) : list (nat * A) := enumerate_from 0 xs.

(* ------------------------------------------------------------------ *)
(** ** Regular expressions, with the backtracking semantics of [re] *)

Module Re.

Inductive regex : Type :=
| Eps : regex
| Class : (ascii -> bool) -> regex
| Seq : regex -> regex -> regex
| Alt : regex -> regex -> regex
| Star : regex -> regex            (* greedy  r*  *)
| LazyStar : regex -> regex        (* lazy    r*? *)
| Group : nat -> regex -> regex    (* capturing group number n *)
| WordB : regex.                   (* \b *)

Definition Plus (r : regex) : regex := Seq r (Star r).
Definition Opt (r : regex) : regex := Alt r Eps.
Definition Chr (c : ascii) : regex := Class (Ascii.eqb c).
Definition NotChr (c : ascii) : regex := Class (fun x => negb (Ascii.eqb c x)).
Definition Any : regex := Class (fun _ => true).   (* . under DOTALL *)

Fixpoint Lit (s : text) : regex :=
  match s with
  | [] => Eps
  | c :: s' => Seq (Chr c) (Lit s')
  end.

(** The matcher's cursor: the character before the cursor, the offset of the
    cursor in the subject, the unread input and the groups closed so far. *)
Record cursor : Type := mkCursor {
  before : option ascii;
  pos : nat;
  rest : text;
  groups : list (nat * (nat * nat))
}.

Definition advance (c : ascii) (s' : text) (cu : cursor) : cursor :=
  mkCursor (Some c) (S (pos cu)) s' (groups cu).

Definition close_group (n start : nat) (cu : cursor) : cursor :=
  mkCursor (before cu) (pos cu) (rest cu) ((n, (start, pos cu)) :: groups cu).

Definition wordish (o : option ascii) : bool :=
  match o with Some c => is_word c | None => false end.

Definition at_boundary (cu : cursor) : bool :=
  xorb (wordish (before cu)) (wordish (hd_error (rest cu))).

Definition or_else {A} (x y : option A) : option A :=
  match x with Some _ => x | None => y end.

(** [run r cu k]: match [r] at [cu] and hand the cursor after it to the
    continuation [k]; alternatives are tried in priority order.  A loop takes
    another round only when the round consumed input. *)
Fixpoint run (r : regex) (cu : cursor) (k : cursor -> option cursor)
  {struct r} : option cursor :=
  match r with
  | Eps => k cu
  | Class p =>
      match rest cu with
      | c :: s' => if p c then k (advance c s' cu) else None
      | [] => None
      end
  | Seq r1 r2 => run r1 cu (fun cu' => run r2 cu' k)
  | Alt r1 r2 => or_else (run r1 cu k) (run r2 cu k)
  | Star r1 =>
      (fix loop (fuel : nat) (cu : cursor) {struct fuel} : option cursor :=
         match fuel with
         | O => k cu
         | S fuel' =>
             or_else
               (run r1 cu (fun cu' =>
                  if pos cu <? pos cu' then loop fuel' cu' else None))
               (k cu)
         end) (List.length (rest cu)) cu
  | LazyStar r1 =>
      (fix loop (fuel : nat) (cu : cursor) {struct fuel} : option cursor :=
         match fuel with
         | O => k cu
         | S fuel' =>
             or_else
               (k cu)
               (run r1 cu (fun cu' =>
                  if pos cu <? pos cu' then loop fuel' cu' else None))
         end) (List.length (rest cu)) cu
  | Group n r1 => run r1 cu (fun cu' => k (close_group n (pos cu) cu'))
  | WordB => if at_boundary cu then k cu else None
  end.

(** A match object: span of the whole match and the spans of its groups. *)
Record match_obj : Type := mkMatch {
  m_start : nat;
  m_end : nat;
  m_groups : list (nat * (nat * nat))
}.

Definition match_at (r : regex) (prev : option ascii) (p : nat) (s : text)
  : option match_obj :=
  match run r (mkCursor prev p s []) Some with
  | Some cu => Some (mkMatch p (pos cu) (groups cu))
  | None => None
  end.

(** Leftmost match at or after offset [p], [s] being the subject from [p]. *)
Fixpoint search_from (r : regex) (prev : option ascii) (p : nat) (s : text)
  : option match_obj :=
  match match_at r prev p s with
  | Some m => Some m
  | None =>
      match s with
      | [] => None
      | c :: s' => search_from r (Some c) (S p) s'
      end
  end.

(** [re.search(r, s)]. *)
Definition search (r : regex) (s : text) : option match_obj :=
  search_from r None 0 s.

Definition found (r : regex) (s : text) : bool :=
  match search r s with Some _ => true | None => false end.

Fixpoint lookup (n : nat) (gs : list (nat * (nat * nat))) : option (nat * nat) :=
  match gs with
  | [] => None
  | (i, span) :: gs' => if i =? n then Some span else lookup n gs'
  end.

(** [m.group(n)] on subject [s]. *)
Definition group (s : text) (m : match_obj) (n : nat) : text :=
  match lookup n (m_groups m) with
  | Some (a, b) => slice a b s
  | None => []
  end.

(** [re.sub(r, "", s)]: the leftmost non-overlapping matches are deleted.
    [s] is the subject from offset [p]; after an empty match one character
    is copied. *)
Fixpoint sub_empty_from (fuel : nat) (r : regex) (prev : option ascii)
  (p : nat) (s : text) : text :=
  match fuel with
  | O => s
  | S fuel' =>
      match search_from r prev p s with
      | None => s
      | Some m =>
          let kept := firstn (m_start m - p) s in
          let tail := skipn (m_end m - p) s in
          let prev' := match m_end m - p with
                       | O => prev
                       | S j => nth_error s j
                       end in
          if m_end m <=? m_start m
          then match tail with
               | [] => kept
               | c :: tail' =>
                   kept ++ c :: sub_empty_from fuel' r (Some c) (S (m_end m)) tail'
               end
          else kept ++ sub_empty_from fuel' r prev' (m_end m) tail
      end
  end.

Definition sub_empty (r : regex) (s : text) : text :=
  sub_empty_from (S (List.length s)) r None 0 s.

End Re.

(* ------------------------------------------------------------------ *)
(** ** The rule engine (code_analyzer.py) *)

Import Re.

Definition Cat (rs : list regex) : regex := fold_right Seq Eps rs.

Definition W : regex := Class is_word.     (* \w *)
Definition S_ : regex := Class is_space.   (* \s *)
Definition D : regex := Class is_digit.    (* \d *)

Definition dquote : ascii := "034"%char.

(** A finding: the dict with keys line, code, issue and suggestion. *)
Record finding : Type := mkFinding {
  line : nat;
  code : text;
  issue : text;
  suggestion : text
}.

(** The result dict, in insertion order. *)
Definition analysis := list (text * list finding).

Definition get (k : text) (a : analysis) : list finding :=
  match find (fun kv => text_eqb (fst kv) k) a with
  | Some kv => snd kv
  | None => []
  end.

(** [analysis[k].append(f)] *)
Definition append (k : text) (f : finding) (a : analysis) : analysis :=
  map (fun kv => if text_eqb (fst kv) k then (fst kv, snd kv ++ [f]) else kv) a.

Definition empty_analysis : analysis :=
  [ (txt "performance_issues", []);
    (txt "memory_management", []);
    (txt "code_style", []);
    (txt "modern_cpp", []);
    (txt "game_specific", []);
    (txt "potential_bugs", []) ].

(** [lines[max(0, i-n):i]] *)
Definition window (n i : nat) (lines : list text) : list text :=
  slice (Z.to_nat (Z.max 0 (Z.of_nat i - Z.of_nat n))) i lines.

(** r'\b(\w+)\s*\*\s*(\w+)\s*=' *)
Definition raw_pointer_pattern : regex :=
  Cat [WordB; Group 1 (Plus W); Star S_; Chr "*"; Star S_;
       Group 2 (Plus W); Star S_; Chr "="].

(** r'\b(\w+)\s+(\w+)\[(\d+)\]' *)
Definition c_array_pattern : regex :=
  Cat [WordB; Group 1 (Plus W); Plus S_; Group 2 (Plus W); Chr "[";
       Group 3 (Plus D); Chr "]"].

(** r'(==|!=)\s*\d*\.\d+f?' *)
Definition float_compare_pattern : regex :=
  Cat [Group 1 (Alt (Lit "==") (Lit "!=")); Star S_; Star D; Chr ".";
       Plus D; Opt (Chr "f")].

(** r'[^\.]\d+\.\d+f?' *)
Definition magic_number_pattern : regex :=
  Cat [NotChr "."; Plus D; Chr "."; Plus D; Opt (Chr "f")].

(** r'const\s+float' *)
Definition const_float_pattern : regex := Cat [Lit "const"; Plus S_; Lit "float"].

(** r'#define' *)
Definition define_pattern : regex := Lit "#define".

(** r'(\w+)\s+(\w+);' *)
Definition declaration_pattern : regex :=
  Cat [Group 1 (Plus W); Plus S_; Group 2 (Plus W); Chr ";"].

(** r'=' *)
Definition equals_pattern : regex := Lit "=".

(** r'class|struct|enum' *)
Definition aggregate_pattern : regex :=
  Alt (Lit "class") (Alt (Lit "struct") (Lit "enum")).

(** rf'{type_name}\s+\w+;' *)
Definition typed_declaration_pattern (type_name : text) : regex :=
  Cat [Lit type_name; Plus S_; Plus W; Chr ";"].

Definition primitive_types : list text :=
  [txt "int"; txt "float"; txt "double"; txt "bool"; txt "char"].

Definition raw_pointer_finding (i : nat) (l : text) : finding :=
  mkFinding (i + 1) (strip l) "Raw pointer usage"
    "Consider using smart pointers (std::unique_ptr or std::shared_ptr) for automatic memory management".

Definition c_array_finding (i : nat) (l : text) : finding :=
  mkFinding (i + 1) (strip l) "C-style array usage"
    "Consider using std::array for fixed-size arrays or std::vector for dynamic arrays".

Definition index_loop_finding (i : nat) (l : text) : finding :=
  mkFinding (i + 1) (strip l) "Index-based loop over container"
    "Consider using range-based for loop: for (auto& element : container)".

Definition sqrt_finding (i : nat) (l : text) : finding :=
  mkFinding (i + 1) (strip l) "Expensive sqrt operation in loop"
    "For magnitude comparisons, consider using squared magnitude (x*x + y*y) instead of sqrt(x*x + y*y)".

Definition string_ops_finding (i : nat) (l : text) : finding :=
  mkFinding (i + 1) (strip l) "String operations in performance-critical code"
    "String operations can be expensive. Consider moving string manipulations outside of update/render loops".

Definition float_compare_finding (i : nat) (l : text) : finding :=
  mkFinding (i + 1) (strip l) "Direct floating-point comparison"
    "Use epsilon-based comparison for floating-point values to avoid precision issues".

Definition magic_number_finding (i : nat) (l : text) : finding :=
  mkFinding (i + 1) (strip l) "Magic number usage"
    "Define named constants for magic numbers to improve code readability and maintainability".

Definition uninitialized_finding (i : nat) (l : text) : finding :=
  mkFinding (i + 1) (strip l) "Uninitialized primitive variable"
    "Initialize variables at declaration to avoid undefined behavior".

Definition null_deref_finding (i : nat) (l : text) : finding :=
  mkFinding (i + 1) (strip l) "Potential null pointer dereference"
    "Add null check before dereferencing pointers".

(** The conditions of the [if] statements of the source, one per rule. *)
Definition raw_pointer_cond (l : text) : bool :=
  found raw_pointer_pattern l && negb (contains "std::" l)
  && negb (contains "shared_ptr" l) && negb (contains "unique_ptr" l).

Definition c_array_cond (l : text) : bool :=
  found c_array_pattern l && negb (contains "char" l).

Definition index_loop_cond (l : text) : bool :=
  contains "for" l && contains "; i < " l && contains ".size()" l.

Definition sqrt_cond (lines : list text) (i : nat) (l : text) : bool :=
  contains "sqrt" l
  && (elem "for" (window 5 i lines) || elem "while" (window 5 i lines)).

Definition string_ops_cond (lines : list text) (i : nat) (l : text) : bool :=
  (contains "std::string" l || contains "+=" l && contains [dquote] l)
  && (elem "update" (window 10 i lines) || elem "render" (window 10 i lines)).

Definition float_compare_cond (l : text) : bool :=
  found float_compare_pattern l.

Definition magic_number_cond (l : text) : bool :=
  found magic_number_pattern l && negb (found const_float_pattern l)
  && negb (found define_pattern l).

Definition uninitialized_cond (l : text) : bool :=
  found declaration_pattern l && negb (found equals_pattern l)
  && negb (found aggregate_pattern l).

Definition null_deref_cond (lines : list text) (i : nat) (l : text) : bool :=
  contains "->" l && negb (elem "if" (window 3 i lines))
  && negb (elem "nullptr" (window 3 i lines))
  && negb (elem "NULL" (window 3 i lines)).

(** One [for i, line in enumerate(lines)] loop with body [body]. *)
Definition for_lines (lines : list text)
  (body : nat -> text -> analysis -> analysis) (a : analysis) : analysis :=
  fold_left (fun a il => body (fst il) (snd il) a) (enumerate lines) a.

(** One guarded [append]. *)
Definition when (b : bool) (k : text) (f : finding) (a : analysis) : analysis :=
  if b then append k f a else a.

Definition analyze_cpp_code (code : text) : analysis :=
  let analysis := empty_analysis in
  let lines := split nl code in
  let analysis := for_lines lines (fun i l a =>
    when (raw_pointer_cond l) "memory_management" (raw_pointer_finding i l) a)
    analysis in
  let analysis := for_lines lines (fun i l a =>
    when (c_array_cond l) "modern_cpp" (c_array_finding i l) a) analysis in
  let analysis := for_lines lines (fun i l a =>
    when (index_loop_cond l) "modern_cpp" (index_loop_finding i l) a)
    analysis in
  let analysis := for_lines lines (fun i l a =>
    let a := when (sqrt_cond lines i l) "performance_issues"
               (sqrt_finding i l) a in
    when (string_ops_cond lines i l) "performance_issues"
      (string_ops_finding i l) a) analysis in
  let analysis := for_lines lines (fun i l a =>
    let a := when (float_compare_cond l) "game_specific"
               (float_compare_finding i l) a in
    when (magic_number_cond l) "code_style" (magic_number_finding i l) a)
    analysis in
  let analysis := for_lines lines (fun i l a =>
    let a := if uninitialized_cond l
             then fold_left (fun a type_name =>
                    when (found (typed_declaration_pattern type_name) l)
                      "potential_bugs" (uninitialized_finding i l) a)
                    primitive_types a
             else a in
    when (null_deref_cond lines i l) "potential_bugs"
      (null_deref_finding i l) a) analysis in
  analysis.

Definition lf : text := [nl].

(* ------------------------------------------------------------------ *)
(** ** Appends to the result dict *)

Lemma text_eqb_eq (a b : text) : text_eqb a b = true <-> a = b.
Proof.
  unfold text_eqb. destruct (list_eq_dec ascii_dec a b); split; congruence.
Qed.

Lemma text_eqb_refl (a : text) : text_eqb a a = true.
Proof. now apply text_eqb_eq. Qed.

Definition has (k : text) (a : analysis) : bool :=
  existsb (fun kv => text_eqb (fst kv) k) a.

(** A list of appends, done from left to right. *)
Definition append_all (es : list (text * finding)) (a : analysis) : analysis :=
  fold_left (fun a kf => append (fst kf) (snd kf) a) es a.

Definition only (k : text) (es : list (text * finding)) : list finding :=
  map snd (filter (fun kf => text_eqb (fst kf) k) es).

Lemma keys_append k f a : map fst (append k f a) = map fst a.
Proof.
  unfold append. rewrite map_map. apply map_ext. intros [k' v]; simpl.
  now destruct (text_eqb k' k).
Qed.

Lemma keys_append_all es : forall a, map fst (append_all es a) = map fst a.
Proof.
  induction es as [|e es IH]; intros a; simpl; [reflexivity|].
  unfold append_all in IH. rewrite IH. apply keys_append.
Qed.

Lemma has_keys k a : has k a = existsb (fun k' => text_eqb k' k) (map fst a).
Proof.
  unfold has. induction a as [|kv a IH]; simpl; [reflexivity|]. now rewrite IH.
Qed.

Lemma get_append k k' f a :
  get k (append k' f a) =
  if text_eqb k k' && has k a then get k a ++ [f] else get k a.
Proof.
  unfold get, has. induction a as [|[k0 v] a IH]; simpl.
  - now rewrite andb_false_r.
  - destruct (text_eqb k0 k) eqn:E0.
    + apply text_eqb_eq in E0. subst k0. rewrite andb_true_r.
      destruct (text_eqb k k') eqn:E; simpl; now rewrite text_eqb_refl.
    + simpl. destruct (text_eqb k0 k'); simpl; rewrite E0; exact IH.
Qed.

Lemma get_append_all k es : forall a,
  has k a = true -> get k (append_all es a) = get k a ++ only k es.
Proof.
  induction es as [|[k' f] es IH]; intros a Hk; simpl.
  - now rewrite app_nil_r.
  - unfold append_all in IH. rewrite IH.
    + rewrite get_append, Hk, andb_true_r. unfold only. simpl.
      destruct (text_eqb k k') eqn:E.
      * apply text_eqb_eq in E. subst k'. rewrite text_eqb_refl. simpl.
        now rewrite <- app_assoc.
      * assert (text_eqb k' k = false) as ->; [|reflexivity].
        destruct (text_eqb k' k) eqn:E'; [|reflexivity].
        apply text_eqb_eq in E'. subst. now rewrite text_eqb_refl in E.
    + rewrite has_keys, keys_append, <- has_keys. exact Hk.
Qed.

Lemma append_all_app es1 es2 a :
  append_all (es1 ++ es2) a = append_all es2 (append_all es1 a).
Proof. unfold append_all. apply fold_left_app. Qed.

(** A loop whose body only appends is one list of appends. *)
Lemma for_lines_emit lines body emit :
  (forall i l a, body i l a = append_all (emit i l) a) ->
  forall a, for_lines lines body a =
            append_all (flat_map (fun il => emit (fst il) (snd il))
                          (enumerate lines)) a.
Proof.
  intros Hb. unfold for_lines, enumerate. generalize 0 as start.
  induction lines as [|l lines IH]; intros start a; simpl; [reflexivity|].
  rewrite append_all_app, <- IH. now rewrite Hb.
Qed.

Lemma only_app k es1 es2 : only k (es1 ++ es2) = only k es1 ++ only k es2.
Proof. unfold only. now rewrite filter_app, map_app. Qed.

Lemma only_flat_map {A} k (f : A -> list (text * finding)) xs :
  only k (flat_map f xs) = flat_map (fun x => only k (f x)) xs.
Proof.
  induction xs as [|x xs IH]; simpl; [reflexivity|].
  now rewrite only_app, IH.
Qed.

(* ------------------------------------------------------------------ *)
(** ** What each loop of the rule engine appends *)

Definition emit_if (b : bool) (k : text) (f : finding) : list (text * finding) :=
  if b then [(k, f)] else [].

Definition loop1 (i : nat) (l : text) :=
  emit_if (raw_pointer_cond l) "memory_management" (raw_pointer_finding i l).
Definition loop2 (i : nat) (l : text) :=
  emit_if (c_array_cond l) "modern_cpp" (c_array_finding i l).
Definition loop3 (i : nat) (l : text) :=
  emit_if (index_loop_cond l) "modern_cpp" (index_loop_finding i l).
Definition loop4 (lines : list text) (i : nat) (l : text) :=
  emit_if (sqrt_cond lines i l) "performance_issues" (sqrt_finding i l)
  ++ emit_if (string_ops_cond lines i l) "performance_issues"
       (string_ops_finding i l).
Definition loop5 (i : nat) (l : text) :=
  emit_if (float_compare_cond l) "game_specific" (float_compare_finding i l)
  ++ emit_if (magic_number_cond l) "code_style" (magic_number_finding i l).
Definition loop6 (lines : list text) (i : nat) (l : text) :=
  (if uninitialized_cond l
   then flat_map (fun type_name =>
          emit_if (found (typed_declaration_pattern type_name) l)
            "potential_bugs" (uninitialized_finding i l)) primitive_types
   else [])
  ++ emit_if (null_deref_cond lines i l) "potential_bugs"
       (null_deref_finding i l).

Definition over (lines : list text)
  (emit : nat -> text -> list (text * finding)) : list (text * finding) :=
  flat_map (fun il => emit (fst il) (snd il)) (enumerate lines).

Definition emissions (lines : list text) : list (text * finding) :=
  over lines loop1 ++ over lines loop2 ++ over lines loop3
  ++ over lines (loop4 lines) ++ over lines loop5 ++ over lines (loop6 lines).

Lemma when_emit_if b k f a : when b k f a = append_all (emit_if b k f) a.
Proof. now destruct b. Qed.

Lemma analyze_emissions (code : text) :
  analyze_cpp_code code = append_all (emissions (split nl code)) empty_analysis.
Proof.
  unfold analyze_cpp_code, emissions, over.
  set (lines := split nl code).
  rewrite !append_all_app.
  rewrite (for_lines_emit lines _ (loop6 lines)).
  2:{ intros i l a. unfold loop6. rewrite append_all_app, when_emit_if.
      f_equal. destruct (uninitialized_cond l); [|reflexivity].
      generalize primitive_types. intros ts. revert a.
      induction ts as [|t ts IH]; intros a; simpl; [reflexivity|].
      rewrite append_all_app, <- IH. now rewrite when_emit_if. }
  rewrite (for_lines_emit lines _ loop5)
    by (intros; unfold loop5; rewrite append_all_app, !when_emit_if; reflexivity).
  rewrite (for_lines_emit lines _ (loop4 lines))
    by (intros; unfold loop4; rewrite append_all_app, !when_emit_if; reflexivity).
  rewrite (for_lines_emit lines _ loop3) by (intros; apply when_emit_if).
  rewrite (for_lines_emit lines _ loop2) by (intros; apply when_emit_if).
  rewrite (for_lines_emit lines _ loop1) by (intros; apply when_emit_if).
  reflexivity.
Qed.

(* ------------------------------------------------------------------ *)
(** ** The findings of each category *)

Definition list_if (b : bool) (f : finding) : list finding :=
  if b then [f] else [].

Definition per_line (lines : list text) (rule : nat -> text -> list finding)
  : list finding :=
  flat_map (fun il => rule (fst il) (snd il)) (enumerate lines).

Definition raw_pointer_rule (i : nat) (l : text) :=
  list_if (raw_pointer_cond l) (raw_pointer_finding i l).
Definition c_array_rule (i : nat) (l : text) :=
  list_if (c_array_cond l) (c_array_finding i l).
Definition index_loop_rule (i : nat) (l : text) :=
  list_if (index_loop_cond l) (index_loop_finding i l).
Definition performance_rule (lines : list text) (i : nat) (l : text) :=
  list_if (sqrt_cond lines i l) (sqrt_finding i l)
  ++ list_if (string_ops_cond lines i l) (string_ops_finding i l).
Definition float_compare_rule (i : nat) (l : text) :=
  list_if (float_compare_cond l) (float_compare_finding i l).
Definition magic_number_rule (i : nat) (l : text) :=
  list_if (magic_number_cond l) (magic_number_finding i l).
Definition bugs_rule (lines : list text) (i : nat) (l : text) :=
  (if uninitialized_cond l
   then flat_map (fun type_name =>
          list_if (found (typed_declaration_pattern type_name) l)
            (uninitialized_finding i l)) primitive_types
   else [])
  ++ list_if (null_deref_cond lines i l) (null_deref_finding i l).

(** The findings of category [k] on the line list [lines]. *)
Definition findings_of (k : text) (lines : list text) : list finding :=
  if text_eqb k "performance_issues" then per_line lines (performance_rule lines)
  else if text_eqb k "memory_management" then per_line lines raw_pointer_rule
  else if text_eqb k "code_style" then per_line lines magic_number_rule
  else if text_eqb k "modern_cpp"
       then per_line lines c_array_rule ++ per_line lines index_loop_rule
  else if text_eqb k "game_specific" then per_line lines float_compare_rule
  else if text_eqb k "potential_bugs" then per_line lines (bugs_rule lines)
  else [].

Definition categories : list text :=
  [txt "performance_issues"; txt "memory_management"; txt "code_style";
   txt "modern_cpp"; txt "game_specific"; txt "potential_bugs"].

Lemma only_over k lines emit rule :
  (forall i l, only k (emit i l) = rule i l) ->
  only k (over lines emit) = per_line lines rule.
Proof.
  intros H. unfold over, per_line. rewrite only_flat_map.
  apply flat_map_ext. intros [i l]. apply H.
Qed.

Lemma per_line_nil lines rule :
  (forall i l, rule i l = []) -> per_line lines rule = [].
Proof.
  intros H. unfold per_line. induction (enumerate lines) as [|x xs IH]; simpl;
    [reflexivity|]. now rewrite H, IH.
Qed.

Ltac by_conditions :=
  intros i l;
  unfold only, loop1, loop2, loop3, loop4, loop5, loop6, emit_if, list_if,
    raw_pointer_rule, c_array_rule, index_loop_rule, performance_rule,
    float_compare_rule, magic_number_rule, bugs_rule, primitive_types;
  cbn [flat_map];
  repeat match goal with
         | |- context [if ?b then _ else _] =>
             is_var b; destruct b
         | |- context [if ?f ?x then _ else _] =>
             destruct (f x)
         | |- context [if ?f ?x ?y then _ else _] =>
             destruct (f x y)
         | |- context [if ?f ?x ?y ?z then _ else _] =>
             destruct (f x y z)
         end; reflexivity.

Lemma only_emissions k lines :
  In k categories -> only k (emissions lines) = findings_of k lines.
Proof.
  intros Hk. unfold emissions. rewrite !only_app.
  simpl in Hk.
  destruct Hk as [<-|[<-|[<-|[<-|[<-|[<-|[]]]]]]];
    unfold findings_of; simpl.
  - rewrite (only_over _ lines loop1 (fun _ _ => [])) by by_conditions.
    rewrite (only_over _ lines loop2 (fun _ _ => [])) by by_conditions.
    rewrite (only_over _ lines loop3 (fun _ _ => [])) by by_conditions.
    rewrite (only_over _ lines (loop4 lines) (performance_rule lines))
      by by_conditions.
    rewrite (only_over _ lines loop5 (fun _ _ => [])) by by_conditions.
    rewrite (only_over _ lines (loop6 lines) (fun _ _ => [])) by by_conditions.
    rewrite !(per_line_nil lines (fun _ _ => [])) by reflexivity.
    simpl. now rewrite app_nil_r.
  - rewrite (only_over _ lines loop1 raw_pointer_rule) by by_conditions.
    rewrite (only_over _ lines loop2 (fun _ _ => [])) by by_conditions.
    rewrite (only_over _ lines loop3 (fun _ _ => [])) by by_conditions.
    rewrite (only_over _ lines (loop4 lines) (fun _ _ => [])) by by_conditions.
    rewrite (only_over _ lines loop5 (fun _ _ => [])) by by_conditions.
    rewrite (only_over _ lines (loop6 lines) (fun _ _ => [])) by by_conditions.
    rewrite !(per_line_nil lines (fun _ _ => [])) by reflexivity.
    simpl. now rewrite app_nil_r.
  - rewrite (only_over _ lines loop1 (fun _ _ => [])) by by_conditions.
    rewrite (only_over _ lines loop2 (fun _ _ => [])) by by_conditions.
    rewrite (only_over _ lines loop3 (fun _ _ => [])) by by_conditions.
    rewrite (only_over _ lines (loop4 lines) (fun _ _ => [])) by by_conditions.
    rewrite (only_over _ lines loop5 magic_number_rule) by by_conditions.
    rewrite (only_over _ lines (loop6 lines) (fun _ _ => [])) by by_conditions.
    rewrite !(per_line_nil lines (fun _ _ => [])) by reflexivity.
    simpl. now rewrite app_nil_r.
  - rewrite (only_over _ lines loop1 (fun _ _ => [])) by by_conditions.
    rewrite (only_over _ lines loop2 c_array_rule) by by_conditions.
    rewrite (only_over _ lines loop3 index_loop_rule) by by_conditions.
    rewrite (only_over _ lines (loop4 lines) (fun _ _ => [])) by by_conditions.
    rewrite (only_over _ lines loop5 (fun _ _ => [])) by by_conditions.
    rewrite (only_over _ lines (loop6 lines) (fun _ _ => [])) by by_conditions.
    rewrite !(per_line_nil lines (fun _ _ => [])) by reflexivity.
    simpl. now rewrite !app_nil_r.
  - rewrite (only_over _ lines loop1 (fun _ _ => [])) by by_conditions.
    rewrite (only_over _ lines loop2 (fun _ _ => [])) by by_conditions.
    rewrite (only_over _ lines loop3 (fun _ _ => [])) by by_conditions.
    rewrite (only_over _ lines (loop4 lines) (fun _ _ => [])) by by_conditions.
    rewrite (only_over _ lines loop5 float_compare_rule) by by_conditions.
    rewrite (only_over _ lines (loop6 lines) (fun _ _ => [])) by by_conditions.
    rewrite !(per_line_nil lines (fun _ _ => [])) by reflexivity.
    simpl. now rewrite app_nil_r.
  - rewrite (only_over _ lines loop1 (fun _ _ => [])) by by_conditions.
    rewrite (only_over _ lines loop2 (fun _ _ => [])) by by_conditions.
    rewrite (only_over _ lines loop3 (fun _ _ => [])) by by_conditions.
    rewrite (only_over _ lines (loop4 lines) (fun _ _ => [])) by by_conditions.
    rewrite (only_over _ lines loop5 (fun _ _ => [])) by by_conditions.
    rewrite (only_over _ lines (loop6 lines) (bugs_rule lines)) by by_conditions.
    rewrite !(per_line_nil lines (fun _ _ => [])) by reflexivity.
    reflexivity.
Qed.

Lemma keys_analyze (c : text) : map fst (analyze_cpp_code c) = categories.
Proof. rewrite analyze_emissions, keys_append_all. reflexivity. Qed.

(** The list stored under each of the six keys. *)
Lemma get_analyze (k c : text) :
  In k categories ->
  get k (analyze_cpp_code c) = findings_of k (split nl c).
Proof.
  intros Hk. rewrite analyze_emissions, get_append_all.
  - rewrite <- only_emissions by exact Hk.
    simpl in Hk. destruct Hk as [<-|[<-|[<-|[<-|[<-|[<-|[]]]]]]]; reflexivity.
  - simpl in Hk. destruct Hk as [<-|[<-|[<-|[<-|[<-|[<-|[]]]]]]]; reflexivity.
Qed.

(* ------------------------------------------------------------------ *)
(** ** Line numbers of findings *)

Definition line_is (rule : nat -> text -> list finding) : Prop :=
  forall i l f, In f (rule i l) -> line f = i + 1.

Lemma in_enumerate_from {A} (xs : list A) : forall s i x,
  In (i, x) (enumerate_from s xs) -> s <= i < s + List.length xs.
Proof.
  induction xs as [|y xs IH]; intros s i x; simpl; [tauto|].
  intros [E|Hin].
  - inversion E; subst. lia.
  - apply IH in Hin. lia.
Qed.

Lemma in_per_line lines rule f :
  In f (per_line lines rule) ->
  exists i l, In (i, l) (enumerate lines) /\ In f (rule i l).
Proof.
  unfold per_line. rewrite in_flat_map. intros [[i l] [H1 H2]].
  now exists i, l.
Qed.

Lemma per_line_range lines rule f :
  line_is rule -> In f (per_line lines rule) ->
  1 <= line f <= List.length lines.
Proof.
  intros Hr Hin. apply in_per_line in Hin as (i & l & Hi & Hf).
  apply Hr in Hf. apply in_enumerate_from in Hi. lia.
Qed.

Lemma list_if_line b (mk : nat -> text -> finding) :
  (forall i l, line (mk i l) = i + 1) ->
  line_is (fun i l => list_if (b i l) (mk i l)).
Proof.
  intros H i l f. unfold list_if. destruct (b i l); simpl; [|tauto].
  intros [<-|[]]. apply H.
Qed.

Lemma line_is_app r1 r2 :
  line_is r1 -> line_is r2 -> line_is (fun i l => r1 i l ++ r2 i l).
Proof.
  intros H1 H2 i l f Hin. apply in_app_or in Hin as [Hin|Hin]; eauto.
Qed.

Lemma raw_pointer_line : line_is raw_pointer_rule.
Proof. now apply (list_if_line (fun _ l => raw_pointer_cond l)). Qed.
Lemma c_array_line : line_is c_array_rule.
Proof. now apply (list_if_line (fun _ l => c_array_cond l)). Qed.
Lemma index_loop_line : line_is index_loop_rule.
Proof. now apply (list_if_line (fun _ l => index_loop_cond l)). Qed.
Lemma float_compare_line : line_is float_compare_rule.
Proof. now apply (list_if_line (fun _ l => float_compare_cond l)). Qed.
Lemma magic_number_line : line_is magic_number_rule.
Proof. now apply (list_if_line (fun _ l => magic_number_cond l)). Qed.

Lemma performance_line lines : line_is (performance_rule lines).
Proof.
  apply line_is_app.
  - now apply (list_if_line (sqrt_cond lines)).
  - now apply (list_if_line (string_ops_cond lines)).
Qed.

Lemma bugs_line lines : line_is (bugs_rule lines).
Proof.
  apply line_is_app.
  - intros i l f. destruct (uninitialized_cond l); [|simpl; tauto].
    rewrite in_flat_map. intros (t & _ & Hf). unfold list_if in Hf.
    destruct (found _ l); simpl in Hf; [|tauto]. now destruct Hf as [<-|[]].
  - now apply (list_if_line (null_deref_cond lines)).
Qed.

Create HintDb rules.
#[local] Hint Resolve raw_pointer_line c_array_line index_loop_line
  float_compare_line magic_number_line performance_line bugs_line : rules.

Lemma findings_of_range k lines f :
  In f (findings_of k lines) -> 1 <= line f <= List.length lines.
Proof.
  unfold findings_of.
  repeat match goal with
         | |- context [if ?b then _ else _] => destruct b
         end;
    try (intros H; apply in_app_or in H as [H|H]; revert H);
    try (apply per_line_range; auto with rules).
  simpl. tauto.
Qed.

Lemma keys_nodup : NoDup categories.
Proof.
  unfold categories.
  repeat (constructor; [simpl; intros H;
    repeat (destruct H as [H|H]; [discriminate H|]); exact H|]).
  constructor.
Qed.

(** An item of a dict with distinct keys is what [get] returns. *)
Lemma in_get (a : analysis) k fs :
  NoDup (map fst a) -> In (k, fs) a -> get k a = fs.
Proof.
  unfold get. induction a as [|[k0 v] a IH]; simpl; [tauto|].
  intros Hnd [E|Hin].
  - inversion E; subst. now rewrite text_eqb_refl.
  - inversion Hnd as [|? ? Hnot Hnd']; subst.
    destruct (text_eqb k0 k) eqn:E.
    + apply text_eqb_eq in E. subst k0. exfalso. apply Hnot.
      change k with (fst (k, fs)). now apply in_map.
    + now apply IH.
Qed.

Lemma get_in k (a : analysis) : has k a = true -> In (k, get k a) a.
Proof.
  unfold has, get. induction a as [|[k0 v] a IH]; simpl; [discriminate|].
  destruct (text_eqb k0 k) eqn:E; simpl.
  - apply text_eqb_eq in E. subst. now left.
  - intros H. right. now apply IH.
Qed.

Lemma analyze_item (c k : text) :
  In k categories -> In (k, findings_of k (split nl c)) (analyze_cpp_code c).
Proof.
  intros Hk. rewrite <- (get_analyze k c Hk). apply get_in.
  rewrite has_keys, keys_analyze.
  simpl in Hk. destruct Hk as [<-|[<-|[<-|[<-|[<-|[<-|[]]]]]]]; reflexivity.
Qed.

Lemma item_analyze (c k : text) fs :
  In (k, fs) (analyze_cpp_code c) ->
  In k categories /\ fs = findings_of k (split nl c).
Proof.
  intros Hin.
  assert (Hk : In k categories).
  { rewrite <- (keys_analyze c). change k with (fst (k, fs)). now apply in_map. }
  split; [exact Hk|].
  rewrite <- (get_analyze k c Hk). symmetry. apply in_get; [|exact Hin].
  rewrite keys_analyze. apply keys_nodup.
Qed.

(** C1: for every input the result has exactly the six category keys (in
    declaration order, each present whether or not it has findings), and
    every finding's line number lies between 1 and the number of lines of the
    input split on newline. *)
Theorem analyze_keys_and_line_range (c : text) :
  map fst (analyze_cpp_code c) = categories /\
  forall k fs f,
    In (k, fs) (analyze_cpp_code c) -> In f fs ->
    1 <= line f <= List.length (split nl c).
Proof.
  split; [apply keys_analyze|].
  intros k fs f Hin Hf. apply item_analyze in Hin as [_ ->].
  now apply findings_of_range in Hf.
Qed.

Definition raw_pointer_snippet : text := txt "int* ptr = new int(5);".

Lemma analyze_keys_and_line_range_witness :
  1 <= line (raw_pointer_finding 0 raw_pointer_snippet)
    <= List.length (split nl raw_pointer_snippet).
Proof.
  apply (proj2 (analyze_keys_and_line_range raw_pointer_snippet)
           (txt "memory_management")
           [raw_pointer_finding 0 raw_pointer_snippet]).
  - vm_compute. tauto.
  - simpl. tauto.
Defined.

(* ------------------------------------------------------------------ *)
(** ** Order of the findings of a category *)

Lemma strongly_sorted_app {A} (R : A -> A -> Prop) (l1 l2 : list A) :
  StronglySorted R l1 -> StronglySorted R l2 ->
  (forall x y, In x l1 -> In y l2 -> R x y) ->
  StronglySorted R (l1 ++ l2).
Proof.
  induction l1 as [|a l1 IH]; intros H1 H2 H12; simpl; [exact H2|].
  inversion H1 as [|? ? Hs Hall]; subst. constructor.
  - apply IH; auto. intros x y Hx Hy. apply H12; simpl; auto.
  - apply Forall_app. split; [exact Hall|].
    apply Forall_forall. intros y Hy. apply H12; simpl; auto.
Qed.

Section PerLineOrder.
Variable rule : nat -> text -> list finding.
Hypothesis rule_line : line_is rule.

Let scan (s : nat) (xs : list text) : list finding :=
  flat_map (fun il => rule (fst il) (snd il)) (enumerate_from s xs).

Lemma scan_lower xs s f : In f (scan s xs) -> s + 1 <= line f.
Proof.
  unfold scan. rewrite in_flat_map. intros ([i l] & Hi & Hf).
  apply rule_line in Hf. apply in_enumerate_from in Hi. simpl in *. lia.
Qed.

Lemma same_line_sorted i l : StronglySorted le (map line (rule i l)).
Proof.
  assert (H : forall f, In f (rule i l) -> line f = i + 1)
    by (intros; now apply rule_line with l).
  induction (rule i l) as [|f fs IH]; simpl; constructor.
  - apply IH. intros; apply H; simpl; auto.
  - apply Forall_forall. intros n Hn. apply in_map_iff in Hn as (g & <- & Hg).
    rewrite (H f), (H g); simpl; auto.
Qed.

Lemma scan_sorted xs : forall s, StronglySorted le (map line (scan s xs)).
Proof.
  induction xs as [|x xs IH]; intros s; simpl; [constructor|].
  unfold scan in *. simpl. rewrite map_app. apply strongly_sorted_app.
  - apply same_line_sorted.
  - apply IH.
  - intros a b Ha Hb.
    apply in_map_iff in Ha as (f & <- & Hf).
    apply in_map_iff in Hb as (g & <- & Hg).
    apply rule_line in Hf. apply (scan_lower xs (S s)) in Hg. lia.
Qed.

Lemma per_line_sorted lines :
  StronglySorted le (map line (per_line lines rule)).
Proof. apply (scan_sorted lines 0). Qed.

Hypothesis rule_single : forall i l, List.length (rule i l) <= 1.

Lemma scan_strict xs : forall s, StronglySorted lt (map line (scan s xs)).
Proof.
  induction xs as [|x xs IH]; intros s; simpl; [constructor|].
  unfold scan in *. simpl. rewrite map_app. apply strongly_sorted_app.
  - specialize (rule_single s x).
    destruct (rule s x) as [|f [|g fs]]; simpl in *;
      [constructor|repeat constructor|lia].
  - apply IH.
  - intros a b Ha Hb.
    apply in_map_iff in Ha as (f & <- & Hf).
    apply in_map_iff in Hb as (g & <- & Hg).
    apply rule_line in Hf. apply (scan_lower xs (S s)) in Hg. lia.
Qed.

Lemma per_line_strict lines :
  StronglySorted lt (map line (per_line lines rule)).
Proof. apply (scan_strict lines 0). Qed.
End PerLineOrder.

Lemma list_if_single b f : List.length (list_if b f) <= 1.
Proof. destruct b; simpl; lia. Qed.

Lemma per_line_issue lines rule (lbl : text) :
  (forall i l f, In f (rule i l) -> issue f = lbl) ->
  Forall (fun f => issue f = lbl) (per_line lines rule).
Proof.
  intros H. apply Forall_forall. intros f Hf.
  apply in_per_line in Hf as (i & l & _ & Hf). eauto.
Qed.

(** The claim of C6 as the specification words it. *)
Definition ascending_in_every_category (c : text) : Prop :=
  forall k fs, In (k, fs) (analyze_cpp_code c) -> Sorted le (map line fs).

Definition loop_before_array : text :=
  txt "for (int i = 0; i < v.size(); i++) {" ++ lf ++ txt "int arr[10];".

(** C6, counterexample: an index-based loop on line 1 and a C-style array on
    line 2 give modern_cpp the findings of lines 2, 1 in that order. *)
Lemma modern_cpp_not_ascending :
  ~ ascending_in_every_category loop_before_array.
Proof.
  intros H.
  specialize (H (txt "modern_cpp")
                (get "modern_cpp" (analyze_cpp_code loop_before_array))).
  assert (Hin : In (txt "modern_cpp",
                    get "modern_cpp" (analyze_cpp_code loop_before_array))
                   (analyze_cpp_code loop_before_array))
    by (vm_compute; tauto).
  apply H in Hin. vm_compute in Hin.
  inversion Hin as [|? ? _ Hhd]; subst.
  inversion Hhd as [|? ? Hle]; subst. lia.
Qed.

(** C6, amended: in every category but modern_cpp the line numbers are
    non-decreasing; modern_cpp holds the C-style-array findings in strictly
    ascending line order followed by the index-based-loop findings in
    strictly ascending line order. *)
Theorem ascending_per_detector_pass (c : text) :
  (forall k fs,
     In (k, fs) (analyze_cpp_code c) -> k <> txt "modern_cpp" ->
     Sorted le (map line fs)) /\
  (exists arrays loops,
     In (txt "modern_cpp", arrays ++ loops) (analyze_cpp_code c) /\
     Sorted lt (map line arrays) /\ Sorted lt (map line loops) /\
     Forall (fun f => issue f = txt "C-style array usage") arrays /\
     Forall (fun f => issue f = txt "Index-based loop over container") loops).
Proof.
  split.
  - intros k fs Hin Hk. apply item_analyze in Hin as [Hcat ->].
    apply StronglySorted_Sorted. unfold findings_of.
    simpl in Hcat.
    destruct Hcat as [<-|[<-|[<-|[<-|[<-|[<-|[]]]]]]]; simpl;
      try (now apply per_line_sorted; auto with rules).
    now elim Hk.
  - exists (per_line (split nl c) c_array_rule),
           (per_line (split nl c) index_loop_rule).
    split; [|repeat split].
    + apply (analyze_item c "modern_cpp"). simpl; tauto.
    + apply StronglySorted_Sorted, per_line_strict; auto with rules.
      intros; apply list_if_single.
    + apply StronglySorted_Sorted, per_line_strict; auto with rules.
      intros; apply list_if_single.
    + apply per_line_issue. intros i l f. unfold c_array_rule, list_if.
      destruct (c_array_cond l); simpl; [|tauto]. now intros [<-|[]].
    + apply per_line_issue. intros i l f. unfold index_loop_rule, list_if.
      destruct (index_loop_cond l); simpl; [|tauto]. now intros [<-|[]].
Qed.

Definition two_magic_numbers : text :=
  txt "x = 1.5;" ++ lf ++ txt "y = 2.5;".

Lemma ascending_per_detector_pass_witness :
  Sorted le (map line (get "code_style" (analyze_cpp_code two_magic_numbers))).
Proof.
  apply (proj1 (ascending_per_detector_pass two_magic_numbers)
           (txt "code_style")).
  - vm_compute; tauto.
  - discriminate.
Defined.

(* ------------------------------------------------------------------ *)
(** ** The look-back rules on ordinary loops and null checks *)

Definition sqrt_in_for_loop : text :=
  txt "for (int i = 0; i < n; i++) {" ++ lf
  ++ txt "    d = sqrt(x);" ++ lf ++ txt "}".

(** C4 at a failing input: line 2 calls sqrt and line 1, inside the window
    of five preceding lines, contains the loop keyword, yet no
    performance_issues finding is produced; the window test asks for a line
    that is exactly the keyword. *)
Theorem sqrt_in_loop_not_reported :
  let lines := split nl sqrt_in_for_loop in
  nth_error lines 1 = Some (txt "    d = sqrt(x);") /\
  contains "sqrt" (nth 1 lines []) = true /\
  existsb (contains "for") (window 5 1 lines) = true /\
  get "performance_issues" (analyze_cpp_code sqrt_in_for_loop) = [].
Proof. vm_compute. repeat split. Qed.

Definition guarded_dereference : text :=
  txt "if (p != nullptr) {" ++ lf
  ++ txt "    p->update();" ++ lf ++ txt "}".

(** C5 at a failing input: the line before the dereference contains both
    the conditional keyword and the null-pointer literal, yet the finding of
    line 2 is produced; only a preceding line that is exactly the token
    suppresses it. *)
Theorem guarded_dereference_still_reported :
  let lines := split nl guarded_dereference in
  existsb (contains "if") (window 3 1 lines) = true /\
  existsb (contains "nullptr") (window 3 1 lines) = true /\
  get "potential_bugs" (analyze_cpp_code guarded_dereference)
  = [null_deref_finding 1 (txt "    p->update();")].
Proof. vm_compute. repeat split. Qed.

(* ------------------------------------------------------------------ *)
(** ** Two snippets analysed together *)

(** A finding of the second snippet, renumbered after [n] lines. *)
Definition shift (n : nat) (f : finding) : finding :=
  mkFinding (line f + n) (code f) (issue f) (suggestion f).

(** The two snippets as one text, the second starting on a new line. *)
Definition joined (A B : text) : text := A ++ lf ++ B.

Definition line_count (c : text) : nat := List.length (split nl c).

(** The last [n] lines of a snippet. *)
Definition last_lines (n : nat) (c : text) : list text :=
  window n (line_count c) (split nl c).

(** No line of [ls] contains one of the tokens [toks]. *)
Definition no_token (toks : list text) (ls : list text) : bool :=
  forallb (fun l => forallb (fun t => negb (contains t l)) toks) ls.

Lemma split_nonempty s : split nl s <> [].
Proof.
  destruct s as [|c s]; simpl; [discriminate|].
  destruct (Ascii.eqb c nl); [discriminate|].
  destruct (split nl s); discriminate.
Qed.

Lemma split_joined A B : split nl (joined A B) = split nl A ++ split nl B.
Proof.
  unfold joined, lf. induction A as [|c A IH]; simpl; [reflexivity|].
  destruct (Ascii.eqb c nl).
  - simpl in IH. now rewrite IH.
  - simpl in IH. rewrite IH. pose proof (split_nonempty A) as Hne.
    destruct (split nl A) as [|l ls]; [now elim Hne|reflexivity].
Qed.

Lemma enumerate_from_app {A} (xs ys : list A) : forall s,
  enumerate_from s (xs ++ ys)
  = enumerate_from s xs ++ enumerate_from (s + List.length xs) ys.
Proof.
  induction xs as [|x xs IH]; intros s; simpl.
  - now rewrite Nat.add_0_r.
  - rewrite IH. do 3 f_equal. lia.
Qed.

Lemma enumerate_from_shift {A} (xs : list A) n : forall s,
  enumerate_from (n + s) xs
  = map (fun il => (n + fst il, snd il)) (enumerate_from s xs).
Proof.
  induction xs as [|x xs IH]; intros s; simpl; [reflexivity|].
  f_equal. rewrite <- IH. f_equal. lia.
Qed.

Lemma flat_map_ext_in {A B} (f g : A -> list B) xs :
  (forall x, In x xs -> f x = g x) -> flat_map f xs = flat_map g xs.
Proof.
  induction xs as [|x xs IH]; intros H; simpl; [reflexivity|].
  rewrite H, IH; simpl; auto. intros; apply H; simpl; auto.
Qed.

Lemma map_flat_map' {A B C} (h : B -> C) (f : A -> list B) xs :
  map h (flat_map f xs) = flat_map (fun x => map h (f x)) xs.
Proof.
  induction xs as [|x xs IH]; simpl; [reflexivity|].
  now rewrite map_app, IH.
Qed.

Lemma flat_map_map' {A B C} (h : A -> B) (f : B -> list C) xs :
  flat_map f (map h xs) = flat_map (fun x => f (h x)) xs.
Proof.
  induction xs as [|x xs IH]; simpl; [reflexivity|]. now rewrite IH.
Qed.

(** A scan of [LA ++ LB] is the scan of [LA] followed by the renumbered scan
    of [LB], when the rule agrees with its one-snippet versions on both
    sides of the seam. *)
Lemma per_line_app (LA LB : list text) ruleAB ruleA ruleB :
  (forall i l, In (i, l) (enumerate LA) -> ruleAB i l = ruleA i l) ->
  (forall j l, In (j, l) (enumerate LB) ->
     ruleAB (List.length LA + j) l = map (shift (List.length LA)) (ruleB j l)) ->
  per_line (LA ++ LB) ruleAB
  = per_line LA ruleA ++ map (shift (List.length LA)) (per_line LB ruleB).
Proof.
  intros HA HB. unfold per_line, enumerate.
  rewrite enumerate_from_app, flat_map_app. f_equal.
  - apply flat_map_ext_in. intros [i l] Hin. now apply HA.
  - simpl. rewrite <- (Nat.add_0_r (List.length LA)) at 1.
    rewrite enumerate_from_shift, flat_map_map', map_flat_map'.
    apply flat_map_ext_in. intros [j l] Hin. now apply HB.
Qed.

Lemma list_if_shift n b (mk : nat -> text -> finding) j l :
  (forall i l, mk i l = mkFinding (i + 1) (strip l) (issue (mk 0 l))
                          (suggestion (mk 0 l))) ->
  list_if b (mk (n + j) l) = map (shift n) (list_if b (mk j l)).
Proof.
  intros H. destruct b; simpl; [|reflexivity].
  rewrite (H (n + j)), (H j). unfold shift; simpl. do 2 f_equal. lia.
Qed.

(** Windows of the joined line list. *)
Lemma window_left (LA LB : list text) w i :
  i <= List.length LA -> window w i (LA ++ LB) = window w i LA.
Proof.
  intros Hi. unfold window, slice.
  set (lo := Z.to_nat (Z.max 0 (Z.of_nat i - Z.of_nat w))).
  assert (lo <= i) by (unfold lo; lia).
  rewrite skipn_app, firstn_app, length_skipn.
  replace (i - lo - (List.length LA - lo)) with 0 by lia.
  simpl. now rewrite app_nil_r.
Qed.

Lemma in_skipn_le {A} (l : list A) a b x :
  b <= a -> In x (skipn a l) -> In x (skipn b l).
Proof.
  intros Hle Hin. replace a with ((a - b) + b) in Hin by lia.
  rewrite <- skipn_skipn in Hin. revert Hin.
  generalize (skipn b l). intros m. revert m.
  induction (a - b) as [|k IH]; intros m; simpl; [tauto|].
  destruct m as [|y m]; simpl; [tauto|]. intros H. right. now apply IH.
Qed.

Lemma window_right (LA LB : list text) w j :
  exists X, window w (List.length LA + j) (LA ++ LB) = X ++ window w j LB
            /\ incl X (window w (List.length LA) LA).
Proof.
  set (n := List.length LA).
  unfold window, slice.
  set (lo := Z.to_nat (Z.max 0 (Z.of_nat (n + j) - Z.of_nat w))).
  set (lo' := Z.to_nat (Z.max 0 (Z.of_nat j - Z.of_nat w))).
  set (loA := Z.to_nat (Z.max 0 (Z.of_nat n - Z.of_nat w))).
  exists (skipn lo LA). split.
  - rewrite skipn_app, firstn_app, length_skipn. fold n.
    rewrite firstn_all2 by (rewrite length_skipn; fold n; lia).
    f_equal. destruct (Nat.le_gt_cases w j) as [Hwj|Hwj].
    + replace (lo - n) with lo' by (unfold lo, lo'; lia).
      f_equal. unfold lo, lo'. lia.
    + replace (lo - n) with 0 by (unfold lo; lia).
      replace lo' with 0 by (unfold lo'; lia). simpl.
      f_equal. unfold lo. lia.
  - intros x Hx. apply (in_skipn_le LA lo loA) in Hx; [|unfold lo, loA; lia].
    rewrite firstn_all2 by (rewrite length_skipn; fold n; lia). exact Hx.
Qed.

Lemma starts_with_refl s : starts_with s s = true.
Proof. induction s as [|c s IH]; simpl; [reflexivity|]. now rewrite Ascii.eqb_refl. Qed.

Lemma contains_refl s : contains s s = true.
Proof. destruct s; simpl; [reflexivity|]. now rewrite Ascii.eqb_refl, starts_with_refl. Qed.

Lemma elem_app t X Y : elem t (X ++ Y) = elem t X || elem t Y.
Proof. unfold elem. apply existsb_app. Qed.

Lemma no_token_elem toks ls t X :
  no_token toks ls = true -> In t toks -> incl X ls -> elem t X = false.
Proof.
  intros Hno Ht HX. unfold elem.
  destruct (existsb (text_eqb t) X) eqn:E; [|reflexivity].
  apply existsb_exists in E as (l & Hl & Heq). apply text_eqb_eq in Heq. subst l.
  unfold no_token in Hno. rewrite forallb_forall in Hno.
  specialize (Hno t (HX t Hl)). rewrite forallb_forall in Hno.
  specialize (Hno t Ht). now rewrite contains_refl in Hno.
Qed.

Lemma elem_window_right toks (LA LB : list text) w j t :
  no_token toks (window w (List.length LA) LA) = true -> In t toks ->
  elem t (window w (List.length LA + j) (LA ++ LB)) = elem t (window w j LB).
Proof.
  intros Hno Ht. destruct (window_right LA LB w j) as (X & -> & HX).
  rewrite elem_app, (no_token_elem toks _ t X Hno Ht HX). reflexivity.
Qed.

Section Seam.
Variables LA LB : list text.
Let n := List.length LA.

Ltac shift_one := apply list_if_shift; intros; reflexivity.

Lemma local_rule_app (cond : text -> bool) (mk : nat -> text -> finding) :
  (forall i l, mk i l = mkFinding (i + 1) (strip l) (issue (mk 0 l))
                          (suggestion (mk 0 l))) ->
  let rule := fun i l => list_if (cond l) (mk i l) in
  per_line (LA ++ LB) rule
  = per_line LA rule ++ map (shift n) (per_line LB rule).
Proof.
  intros Hmk rule. apply per_line_app; [reflexivity|].
  intros j l _. unfold rule. now apply list_if_shift.
Qed.

Hypothesis loop_free : no_token [txt "for"; txt "while"] (window 5 n LA) = true.
Hypothesis hot_free :
  no_token [txt "update"; txt "render"] (window 10 n LA) = true.
Hypothesis check_free :
  no_token [txt "if"; txt "nullptr"; txt "NULL"] (window 3 n LA) = true.

Lemma performance_rule_app :
  per_line (LA ++ LB) (performance_rule (LA ++ LB))
  = per_line LA (performance_rule LA)
    ++ map (shift n) (per_line LB (performance_rule LB)).
Proof.
  apply per_line_app.
  - intros i l Hin. apply in_enumerate_from in Hin.
    unfold performance_rule, sqrt_cond, string_ops_cond.
    now rewrite !window_left by lia.
  - intros j l _. unfold performance_rule, sqrt_cond, string_ops_cond.
    fold n.
    rewrite !(elem_window_right _ LA LB 5 j _ loop_free) by (simpl; tauto).
    rewrite !(elem_window_right _ LA LB 10 j _ hot_free) by (simpl; tauto).
    rewrite map_app. f_equal; shift_one.
Qed.

Lemma bugs_rule_app :
  per_line (LA ++ LB) (bugs_rule (LA ++ LB))
  = per_line LA (bugs_rule LA) ++ map (shift n) (per_line LB (bugs_rule LB)).
Proof.
  apply per_line_app.
  - intros i l Hin. apply in_enumerate_from in Hin.
    unfold bugs_rule, null_deref_cond.
    now rewrite !window_left by lia.
  - intros j l _. unfold bugs_rule, null_deref_cond. fold n.
    rewrite !(elem_window_right _ LA LB 3 j _ check_free) by (simpl; tauto).
    rewrite map_app. f_equal; [|shift_one].
    destruct (uninitialized_cond l); [|reflexivity].
    rewrite map_flat_map'. apply flat_map_ext. intros t. shift_one.
Qed.
End Seam.

Definition window_free : list text :=
  [txt "memory_management"; txt "code_style"; txt "modern_cpp";
   txt "game_specific"].

Lemma findings_of_app_local (LA LB : list text) k :
  In k window_free ->
  Permutation (findings_of k (LA ++ LB))
    (findings_of k LA ++ map (shift (List.length LA)) (findings_of k LB)) /\
  (k <> txt "modern_cpp" ->
   findings_of k (LA ++ LB)
   = findings_of k LA ++ map (shift (List.length LA)) (findings_of k LB)).
Proof.
  intros Hk. simpl in Hk.
  destruct Hk as [<-|[<-|[<-|[<-|[]]]]]; unfold findings_of; simpl.
  - pose proof (local_rule_app LA LB raw_pointer_cond raw_pointer_finding
                  (fun _ _ => eq_refl)) as E.
    simpl in E. fold raw_pointer_rule in E.
    split; [rewrite E; apply Permutation_refl|intros _; exact E].
  - pose proof (local_rule_app LA LB magic_number_cond magic_number_finding
                  (fun _ _ => eq_refl)) as E.
    simpl in E. fold magic_number_rule in E.
    split; [rewrite E; apply Permutation_refl|intros _; exact E].
  - pose proof (local_rule_app LA LB c_array_cond c_array_finding
                  (fun _ _ => eq_refl)) as E1.
    pose proof (local_rule_app LA LB index_loop_cond index_loop_finding
                  (fun _ _ => eq_refl)) as E2.
    simpl in E1, E2. fold c_array_rule in E1. fold index_loop_rule in E2.
    split; [|intros H; now elim H].
    rewrite E1, E2, map_app, <- !app_assoc.
    apply Permutation_app_head. rewrite !app_assoc.
    apply Permutation_app_tail. apply Permutation_app_comm.
  - pose proof (local_rule_app LA LB float_compare_cond float_compare_finding
                  (fun _ _ => eq_refl)) as E.
    simpl in E. fold float_compare_rule in E.
    split; [rewrite E; apply Permutation_refl|intros _; exact E].
Qed.

(** The claim of C7 as the specification words it, the snippets being
    joined by a newline. *)
Definition findings_are_union (A B : text) : Prop :=
  forall k, In k categories ->
    Permutation (get k (analyze_cpp_code (joined A B)))
      (get k (analyze_cpp_code A)
       ++ map (shift (line_count A)) (get k (analyze_cpp_code B))).

(** C7, counterexample: a first snippet that is the line "for" makes the
    sqrt call of the second snippet a finding that neither snippet has
    alone. *)
Lemma lookback_crosses_snippets :
  ~ findings_are_union (txt "for") (txt "d = sqrt(x);").
Proof.
  intros H. specialize (H (txt "performance_issues")).
  apply Permutation_length in H; [|simpl; tauto].
  vm_compute in H. discriminate H.
Qed.

(** C7, amended: for snippets joined by a newline, the categories whose
    rules look at one line at a time (memory_management, code_style,
    modern_cpp, game_specific) always hold the findings of A followed by
    those of B renumbered by A's line count (for modern_cpp, up to order);
    for all six categories this holds when no look-back token occurs in the
    last lines of A that a window of B can reach. *)
Theorem findings_union_up_to_lookback (A B : text) :
  (forall k, In k window_free ->
     Permutation (get k (analyze_cpp_code (joined A B)))
       (get k (analyze_cpp_code A)
        ++ map (shift (line_count A)) (get k (analyze_cpp_code B))) /\
     (k <> txt "modern_cpp" ->
      get k (analyze_cpp_code (joined A B))
      = get k (analyze_cpp_code A)
        ++ map (shift (line_count A)) (get k (analyze_cpp_code B)))) /\
  (no_token [txt "for"; txt "while"] (last_lines 5 A) = true ->
   no_token [txt "update"; txt "render"] (last_lines 10 A) = true ->
   no_token [txt "if"; txt "nullptr"; txt "NULL"] (last_lines 3 A) = true ->
   forall k, In k categories ->
     Permutation (get k (analyze_cpp_code (joined A B)))
       (get k (analyze_cpp_code A)
        ++ map (shift (line_count A)) (get k (analyze_cpp_code B)))).
Proof.
  assert (Hsub : forall k, In k window_free -> In k categories)
    by (unfold window_free, categories; simpl; intuition).
  split.
  - intros k Hk. rewrite !get_analyze by auto. rewrite split_joined.
    now apply findings_of_app_local.
  - intros H5 H10 H3 k Hk. rewrite !get_analyze by auto.
    rewrite split_joined. unfold line_count.
    simpl in Hk.
    destruct Hk as [<-|[<-|[<-|[<-|[<-|[<-|[]]]]]]];
      try (apply findings_of_app_local; simpl; tauto).
    + unfold findings_of; simpl.
      rewrite (performance_rule_app _ _ H5 H10). apply Permutation_refl.
    + unfold findings_of; simpl.
      rewrite (bugs_rule_app _ _ H3). apply Permutation_refl.
Qed.

Definition magic_number_snippet : text := txt "float speed = 2.5f;".

Lemma findings_union_up_to_lookback_witness :
  Permutation
    (get "code_style"
       (analyze_cpp_code (joined raw_pointer_snippet magic_number_snippet)))
    (get "code_style" (analyze_cpp_code raw_pointer_snippet)
     ++ map (shift (line_count raw_pointer_snippet))
          (get "code_style" (analyze_cpp_code magic_number_snippet))).
Proof.
  apply (proj2 (findings_union_up_to_lookback raw_pointer_snippet
                  magic_number_snippet)).
  - reflexivity.
  - reflexivity.
  - reflexivity.
  - simpl; tauto.
Defined.

(* ------------------------------------------------------------------ *)
(** ** The analysis formatter (code_suggester.py) *)

Definition format_analysis_for_prompt (a : analysis) : text :=
  let result : list text := [] in
  let result :=
    fold_left (fun result item =>
      let category := fst item in
      let issues := snd item in
      match issues with
      | [] => result
      | _ :: _ =>
          let category_name := title (replace_char "_" " " category) in
          let result := result ++ [txt "## " ++ category_name] in
          let result :=
            fold_left (fun result issue_ =>
              let result :=
                result ++ [txt "- Line " ++ str_of_nat (line issue_)
                           ++ txt ": " ++ issue issue_] in
              let result := result ++ [txt "  Code: " ++ code issue_] in
              result ++ [txt "  Suggestion: " ++ suggestion issue_])
              issues result in
          result ++ [[]]
      end) a result in
  join lf result.

(* ------------------------------------------------------------------ *)
(** ** The response extractor (code_suggester.py) *)

Definition fence : text := txt "```".
Definition open_fence : text := txt "```cpp" ++ lf.

(** r"```cpp\n(.*?)```" under re.DOTALL *)
Definition code_pattern : regex :=
  Cat [Lit open_fence; Group 1 (LazyStar Any); Lit fence].

Definition extract_code_and_explanation (response_text : text) : text * text :=
  match search code_pattern response_text with
  | Some code_match =>
      let improved_code := strip (group response_text code_match 1) in
      let explanation := strip (sub_empty code_pattern response_text) in
      (improved_code, explanation)
  | None => ([], response_text)
  end.

(** The constructed response of the round-trip property. *)
Definition constructed (prefix CODE suffix : text) : text :=
  prefix ++ txt " " ++ open_fence ++ CODE ++ lf ++ fence ++ txt " " ++ suffix.

(* ------------------------------------------------------------------ *)
(** ** The diff renderer and the suggestion boundary *)

Definition is_line_break (c : ascii) : bool :=
  in_range 10 13 c || in_range 28 30 c.

(** [s.splitlines()] : lines end at a line break, CR LF counting as one, and
    no empty last line is produced. *)
Fixpoint splitlines (s : text) : list text :=
  match s with
  | [] => []
  | c :: s' =>
      if is_line_break c then
        [] :: match s' with
              | c' :: s'' =>
                  if Ascii.eqb c "013" && Ascii.eqb c' nl
                  then splitlines s'' else splitlines s'
              | [] => splitlines s'
              end
      else match splitlines s' with
           | l :: ls => (c :: l) :: ls
           | [] => [[c]]
           end
  end.

(** The outcome of a computation that may raise: a value, or the [str] of
    the exception. *)
Inductive outcome (A : Type) : Type :=
| Return : A -> outcome A
| Raise : text -> outcome A.
Arguments Return {A} _.
Arguments Raise {A} _.

Definition bind {A B} (m : outcome A) (f : A -> outcome B) : outcome B :=
  match m with
  | Return a => f a
  | Raise e => Raise e
  end.

Notation "x <- m ;; f" := (bind m (fun x => f))
  (at level 61, m at next level, right associativity).

(** The request handed to the completion collaborator. *)
Record request : Type := mkRequest {
  model : text;
  messages : list (text * text);     (* role, content *)
  temperature : QArith_base.Q;
  max_tokens : Z
}.

Definition q : text := [dquote].

Definition system_message (analysis_text : text) : text :=
  txt "You are a C++ expert specializing in game development. " ++ lf
  ++ txt "Your task is to improve the provided code based on the user's request and the static analysis results." ++ lf
  ++ txt "Focus on performance, readability, and best practices for game development." ++ lf
  ++ lf
  ++ txt "Here's the static analysis of the code:" ++ lf
  ++ analysis_text ++ lf
  ++ lf
  ++ txt "Provide your response in the following format:" ++ lf
  ++ txt "1. The complete improved code in a ```cpp code block" ++ lf
  ++ txt "2. A detailed explanation of all changes made, organized by category (performance, memory management, etc.)" ++ lf
  ++ txt "3. Highlight the most important improvements first" ++ lf
  ++ lf
  ++ txt "Make sure your improvements address both the user's specific request and the issues identified in the analysis." ++ lf
  ++ txt "For game development, prioritize performance optimizations and memory management improvements.".

Definition user_message (code prompt : text) : text :=
  txt "Here is my C++ game development code:" ++ lf ++ lf
  ++ txt "```cpp" ++ lf ++ code ++ lf ++ txt "```" ++ lf ++ lf
  ++ txt "I want to improve it by: " ++ prompt.

(** The arguments of [client.chat.completions.create]. *)
Definition completion_request (analysis_text code prompt : text) : request :=
  mkRequest "llama3-70b-8192"
    [(txt "system", system_message analysis_text);
     (txt "user", user_message code prompt)]
    (QArith_base.Qmake 2 10) 4000.

(** The file template of [difflib.HtmlDiff], filled in. *)
Definition file_template (styles legend table charset : text) : text :=
  lf ++ txt "<!DOCTYPE html PUBLIC " ++ q
  ++ txt "-//W3C//DTD XHTML 1.0 Transitional//EN" ++ q ++ lf
  ++ txt "          " ++ q
  ++ txt "http://www.w3.org/TR/xhtml1/DTD/xhtml1-transitional.dtd" ++ q
  ++ txt ">" ++ lf ++ lf
  ++ txt "<html>" ++ lf ++ lf
  ++ txt "<head>" ++ lf
  ++ txt "    <meta http-equiv=" ++ q ++ txt "Content-Type" ++ q ++ lf
  ++ txt "          content=" ++ q ++ txt "text/html; charset=" ++ charset
  ++ q ++ txt " />" ++ lf
  ++ txt "    <title></title>" ++ lf
  ++ txt "    <style type=" ++ q ++ txt "text/css" ++ q ++ txt ">" ++ styles ++ lf
  ++ txt "    </style>" ++ lf
  ++ txt "</head>" ++ lf ++ lf
  ++ txt "<body>" ++ lf
  ++ txt "    " ++ table ++ legend ++ lf
  ++ txt "</body>" ++ lf ++ lf
  ++ txt "</html>".

Section Suggester.

(** difflib.HtmlDiff: the table renderer, the style sheet and the legend
    belong to the library and are taken as given.  The renderer numbers its
    anchors from the class-wide counter [HtmlDiff._default_prefix], which
    every call raises by one, and it can raise (a RecursionError on large
    changed regions): [make_table prefix ...] is what a call gives when the
    counter has the value [prefix]. *)
Variable make_table :
  nat -> list text -> list text -> text -> text -> bool -> nat -> outcome text.
Variables styles legend : text.

(** [HtmlDiff.make_file] at the counter value [prefix]. *)
Definition make_file (prefix : nat) (fromlines tolines : list text)
  (fromdesc todesc : text) (context : bool) : outcome text :=
  let numlines := 5 in
  let charset := txt "utf-8" in
  table <- make_table prefix fromlines tolines fromdesc todesc context
             numlines ;;
  Return (file_template styles legend table charset).

Definition generate_diff (prefix : nat) (original_code improved_code : text)
  : outcome text :=
  make_file prefix (splitlines original_code) (splitlines improved_code)
    "Original Code" "Improved Code" true.

(** The process environment and the completion collaborator: the client
    for an API key answers a request with the content of the first choice,
    or raises; building the client and reading the first choice are part of
    the call. *)
Variable environ : text -> option text.
Variable create : text -> request -> outcome text.

(** [generate_code_suggestions] when the anchor counter has the value
    [prefix]; whatever is raised inside the [try] ends in the handler. *)
Definition generate_code_suggestions (prefix : nat) (code prompt : text)
  : text * text * text :=
  let analysis := analyze_cpp_code code in
  let analysis_text := format_analysis_for_prompt analysis in
  let attempt : outcome (text * text * text) :=
    api_key <- match environ "GROQ_API_KEY" with
               | Some (c :: key) => Return (c :: key)
               | _ => Raise "GROQ_API_KEY environment variable is not set"
               end ;;
    response_text <- create api_key
      (completion_request analysis_text code prompt) ;;
    let (improved_code, explanation) :=
      extract_code_and_explanation response_text in
    diff <- generate_diff prefix code improved_code ;;
    Return (improved_code, explanation, diff) in
  match attempt with
  | Return r => r
  | Raise e => (code, txt "Error generating suggestions: " ++ e, [])
  end.

(** The attempt gets as far as the diff renderer. *)
Definition reaches_diff (code prompt : text) : bool :=
  match environ "GROQ_API_KEY" with
  | Some (c :: key) =>
      match create (c :: key)
              (completion_request
                 (format_analysis_for_prompt (analyze_cpp_code code))
                 code prompt) with
      | Return _ => true
      | Raise _ => false
      end
  | _ => false
  end.

(** The anchor counter after [generate_code_suggestions]. *)
Definition prefix_after (prefix : nat) (code prompt : text) : nat :=
  if reaches_diff code prompt then S prefix else prefix.

End Suggester.

(* ------------------------------------------------------------------ *)
(** ** Substrings *)

Lemma starts_with_spec p s : starts_with p s = true <-> exists r, s = p ++ r.
Proof.
  revert s. induction p as [|a p IH]; intros s; simpl.
  - split; [intros _; now exists s|reflexivity].
  - destruct s as [|b s].
    + split; [discriminate|intros [r Hr]; discriminate].
    + rewrite andb_true_iff, Ascii.eqb_eq, IH. split.
      * intros [-> [r ->]]. now exists r.
      * intros [r Hr]. inversion Hr; subst. split; [reflexivity|now exists r].
Qed.

Lemma contains_spec n h : contains n h = true <-> exists a b, h = a ++ n ++ b.
Proof.
  induction h as [|c h IH]; simpl.
  - rewrite orb_false_r, starts_with_spec. split.
    + intros [r Hr]. now exists [], r.
    + intros (a & b & Hab). destruct a; [now exists b|discriminate].
  - rewrite orb_true_iff, starts_with_spec, IH. split.
    + intros [[r Hr]|(a & b & ->)].
      * now exists [], r.
      * now exists (c :: a), b.
    + intros (a & b & Hab). destruct a as [|x a].
      * left. now exists b.
      * right. inversion Hab; subst. now exists a, b.
Qed.

Lemma contains_intro n a b : contains n (a ++ n ++ b) = true.
Proof. apply contains_spec. now exists a, b. Qed.

Lemma contains_trans a b c :
  contains a b = true -> contains b c = true -> contains a c = true.
Proof.
  rewrite !contains_spec. intros (x & y & ->) (u & v & ->).
  exists (u ++ x), (y ++ v). now rewrite <- !app_assoc.
Qed.

(* ------------------------------------------------------------------ *)
(** ** The suggestion boundary *)

Section Boundary.
Variable make_table :
  nat -> list text -> list text -> text -> text -> bool -> nat -> outcome text.
Variables styles legend : text.
Variable environ : text -> option text.
Variable create : text -> request -> outcome text.

Let suggest := generate_code_suggestions make_table styles legend environ create.
Let request_for (code prompt : text) : request :=
  completion_request (format_analysis_for_prompt (analyze_cpp_code code))
    code prompt.

Lemma suggest_with_key prefix code prompt key :
  environ "GROQ_API_KEY" = Some key -> key <> [] ->
  suggest prefix code prompt =
  match create key (request_for code prompt) with
  | Return response_text =>
      match generate_diff make_table styles legend prefix code
              (fst (extract_code_and_explanation response_text)) with
      | Return diff =>
          (fst (extract_code_and_explanation response_text),
           snd (extract_code_and_explanation response_text), diff)
      | Raise e => (code, txt "Error generating suggestions: " ++ e, [])
      end
  | Raise e => (code, txt "Error generating suggestions: " ++ e, [])
  end.
Proof.
  intros Henv Hkey. unfold suggest, generate_code_suggestions.
  rewrite Henv. destruct key as [|c key]; [now elim Hkey|].
  unfold request_for. cbn [bind].
  destruct (create (c :: key) _) as [response|e]; cbn [bind]; [|reflexivity].
  destruct (extract_code_and_explanation response) as [improved expl].
  cbn [fst snd]. now destruct (generate_diff _ _ _ _ _ _).
Qed.

Lemma suggest_without_key prefix code prompt :
  environ "GROQ_API_KEY" = None \/ environ "GROQ_API_KEY" = Some [] ->
  suggest prefix code prompt =
  (code,
   txt "Error generating suggestions: GROQ_API_KEY environment variable is not set",
   []).
Proof.
  intros [H|H]; unfold suggest, generate_code_suggestions; now rewrite H.
Qed.

Lemma generate_diff_table prefix a b :
  generate_diff make_table styles legend prefix a b
  = match make_table prefix (splitlines a) (splitlines b)
            (txt "Original Code") (txt "Improved Code") true 5 with
    | Return table => Return (file_template styles legend table (txt "utf-8"))
    | Raise e => Raise e
    end.
Proof. reflexivity. Qed.

Lemma generate_diff_nonempty prefix a b d :
  generate_diff make_table styles legend prefix a b = Return d -> d <> [].
Proof.
  rewrite generate_diff_table. destruct (make_table _ _ _ _ _ _ _);
    [|discriminate].
  intros [= <-]. unfold file_template. discriminate.
Qed.
End Boundary.

(** C2: when the completion call raises, the result is the original code
    unchanged, an explanation that contains the error detail, and the empty
    diff artifact; the boundary returns this triple and raises nothing. *)
Theorem completion_failure_absorbed
  make_table styles legend environ create (prefix : nat)
  (code prompt key detail : text) :
  environ (txt "GROQ_API_KEY") = Some key -> key <> [] ->
  create key
    (completion_request (format_analysis_for_prompt (analyze_cpp_code code))
       code prompt) = Raise detail ->
  let r := generate_code_suggestions make_table styles legend environ create
             prefix code prompt in
  r = (code, txt "Error generating suggestions: " ++ detail, []) /\
  fst (fst r) = code /\ contains detail (snd (fst r)) = true /\ snd r = [].
Proof.
  intros Henv Hkey Hfail r. unfold r.
  rewrite (suggest_with_key _ _ _ _ _ _ _ _ _ Henv Hkey), Hfail. cbn [fst snd].
  repeat split.
  rewrite <- (app_nil_r detail) at 2. apply contains_intro.
Qed.

(** A renderer for examples: it names its anchors after the counter and
    gives up on long inputs. *)
Definition sample_table (prefix : nat) (fromlines tolines : list text)
  (fromdesc todesc : text) (context : bool) (numlines : nat) : outcome text :=
  if 1000 <=? List.length fromlines + List.length tolines
  then Raise "maximum recursion depth exceeded"
  else Return (txt "<table id=" ++ q ++ txt "difflib_chg_to"
               ++ str_of_nat prefix ++ txt "__top" ++ q ++ txt ">"
               ++ join lf fromlines ++ txt "</table>").

Definition environ_with (key : text) (name : text) : option text :=
  if text_eqb name "GROQ_API_KEY" then Some key else None.

Definition no_environ (name : text) : option text := None.

Definition failing_client (key : text) (r : request) : outcome text :=
  Raise "Connection error.".

Definition answering_client (answer : text) (key : text) (r : request)
  : outcome text := Return answer.

Lemma completion_failure_absorbed_witness :
  let r := generate_code_suggestions sample_table [] [] (environ_with "gsk_test")
             failing_client 0 "int x;" "make it faster" in
  r = (txt "int x;", txt "Error generating suggestions: " ++ txt "Connection error.", [])
  /\ fst (fst r) = txt "int x;"
  /\ contains "Connection error." (snd (fst r)) = true /\ snd r = [].
Proof.
  apply (completion_failure_absorbed sample_table [] []
           (environ_with "gsk_test") failing_client 0 "int x;" "make it faster"
           "gsk_test" "Connection error.").
  - reflexivity.
  - discriminate.
  - reflexivity.
Defined.

(** The return shape used for a failed completion call. *)
Definition degraded (code : text) (r : text * text * text) : Prop :=
  exists detail,
    r = (code, txt "Error generating suggestions: " ++ detail, []).

(** The claim of C3 as the specification words it: without the credential
    the result is not of the shape used for transport failures. *)
Definition missing_key_reported_distinctly (code prompt : text) : Prop :=
  forall make_table styles legend create prefix,
    ~ degraded code
        (generate_code_suggestions make_table styles legend no_environ create
           prefix code prompt).

(** C3, counterexample: without the key the result is the degraded triple,
    the same triple a failed call with that message gives. *)
Lemma missing_key_is_degraded :
  ~ missing_key_reported_distinctly (txt "int x;") (txt "make it faster").
Proof.
  intros H. apply (H sample_table [] [] failing_client 0).
  exists (txt "GROQ_API_KEY environment variable is not set"). reflexivity.
Qed.

(** C3, amended: when GROQ_API_KEY is unset or empty, whatever the
    collaborator would answer, the result is the original code, the
    explanation "Error generating suggestions: GROQ_API_KEY environment
    variable is not set" and the empty diff artifact: the shape of a failed
    call, told apart by the message only. *)
Theorem missing_key_degrades_with_message
  make_table styles legend create (prefix : nat) (code prompt : text) :
  let expected :=
    (code,
     txt "Error generating suggestions: GROQ_API_KEY environment variable is not set",
     @nil ascii) in
  generate_code_suggestions make_table styles legend no_environ create
    prefix code prompt = expected /\
  generate_code_suggestions make_table styles legend (environ_with []) create
    prefix code prompt = expected /\
  degraded code expected.
Proof.
  repeat split.
  exists (txt "GROQ_API_KEY environment variable is not set"). reflexivity.
Qed.

Lemma contains_app_r t a b : contains t b = true -> contains t (a ++ b) = true.
Proof.
  intros H. apply contains_spec in H as (x & y & ->). apply contains_spec.
  exists (a ++ x), y. now rewrite <- app_assoc.
Qed.

Lemma table_in_file styles legend table charset :
  contains table (file_template styles legend table charset) = true.
Proof.
  unfold file_template.
  repeat match goal with
         | |- contains ?t (?a ++ _) = true =>
             tryif constr_eq a t then fail else apply contains_app_r
         end.
  apply (contains_intro table []).
Qed.

(** C10: when the completion call succeeds and the response holds no
    cpp-fenced block, the result is the empty improved code, the response
    as explanation, and the HTML diff of the original code against the
    empty string: the file template around the table that the renderer
    gives for the lines of the original code against no lines at all, which
    is never the empty artifact of a failed call.  The renderer returns on
    such input; that it does is the last hypothesis. *)
Theorem no_code_block_full_diff
  make_table styles legend environ create (prefix : nat)
  (code prompt key response table : text) :
  environ (txt "GROQ_API_KEY") = Some key -> key <> [] ->
  create key
    (completion_request (format_analysis_for_prompt (analyze_cpp_code code))
       code prompt) = Return response ->
  search code_pattern response = None ->
  make_table prefix (splitlines code) [] (txt "Original Code")
    (txt "Improved Code") true 5 = Return table ->
  let r := generate_code_suggestions make_table styles legend environ create
             prefix code prompt in
  r = ([], response, file_template styles legend table (txt "utf-8"))
  /\ contains table (snd r) = true /\ snd r <> [].
Proof.
  intros Henv Hkey Hok Hnone Htable r. unfold r.
  rewrite (suggest_with_key _ _ _ _ _ _ _ _ _ Henv Hkey), Hok.
  unfold extract_code_and_explanation. rewrite Hnone. cbn [fst snd].
  rewrite generate_diff_table.
  change (splitlines []) with (@nil text). rewrite Htable. cbn [fst snd].
  repeat split.
  - apply table_in_file.
  - unfold file_template. discriminate.
Qed.

Lemma no_code_block_full_diff_witness :
  let r := generate_code_suggestions sample_table [] []
             (environ_with "gsk_test")
             (answering_client "The code is already fine.") 3 "int x;"
             "make it faster" in
  let table := txt "<table id=" ++ q ++ txt "difflib_chg_to3__top" ++ q
               ++ txt ">int x;</table>" in
  r = ([], txt "The code is already fine.",
       file_template [] [] table (txt "utf-8"))
  /\ contains table (snd r) = true /\ snd r <> [].
Proof.
  apply (no_code_block_full_diff sample_table [] [] (environ_with "gsk_test")
           (answering_client "The code is already fine.") 3 "int x;"
           "make it faster" "gsk_test" "The code is already fine.").
  - reflexivity.
  - discriminate.
  - reflexivity.
  - reflexivity.
  - reflexivity.
Defined.

(* ------------------------------------------------------------------ *)
(** ** The lines of the formatted report *)

(** The three lines written for one finding. *)
Definition finding_lines (f : finding) : list text :=
  [txt "- Line " ++ str_of_nat (line f) ++ txt ": " ++ issue f;
   txt "  Code: " ++ code f;
   txt "  Suggestion: " ++ suggestion f].

Definition heading (k : text) : text :=
  txt "## " ++ title (replace_char "_" " " k).

(** The lines written for one category: nothing when it has no finding. *)
Definition category_block (item : text * list finding) : list text :=
  match snd item with
  | [] => []
  | _ :: _ => heading (fst item) :: flat_map finding_lines (snd item) ++ [[]]
  end.

Definition report_lines (a : analysis) : list text :=
  flat_map category_block a.

Definition single_line (s : text) : bool :=
  forallb (fun c => negb (Ascii.eqb c nl)) s.

(** Keys and text fields without a newline. *)
Definition well_formed (a : analysis) : bool :=
  forallb (fun item =>
    single_line (fst item)
    && forallb (fun f => single_line (issue f) && single_line (code f)
                         && single_line (suggestion f)) (snd item)) a.

Lemma fold_left_appends {A} (g : A -> list text) (body : list text -> A -> list text) :
  (forall r x, body r x = r ++ g x) ->
  forall xs acc, fold_left body xs acc = acc ++ flat_map g xs.
Proof.
  intros H xs. induction xs as [|x xs IH]; intros acc; simpl.
  - now rewrite app_nil_r.
  - now rewrite IH, H, <- app_assoc.
Qed.

Lemma format_report_lines (a : analysis) :
  format_analysis_for_prompt a = join lf (report_lines a).
Proof.
  unfold format_analysis_for_prompt, report_lines. f_equal.
  rewrite (fold_left_appends category_block); [reflexivity|].
  intros r [k fs]. unfold category_block. cbn [fst snd].
  destruct fs as [|f fs]; [now rewrite app_nil_r|].
  rewrite (fold_left_appends finding_lines).
  - unfold heading. rewrite <- !app_assoc. reflexivity.
  - intros r' g. unfold finding_lines. rewrite <- !app_assoc. reflexivity.
Qed.

Lemma single_line_app a b : single_line (a ++ b) = single_line a && single_line b.
Proof. apply forallb_app. Qed.

Lemma split_single s : single_line s = true -> split nl s = [s].
Proof.
  induction s as [|c s IH]; simpl; [reflexivity|].
  rewrite andb_true_iff, negb_true_iff. intros [-> Hs]. now rewrite IH.
Qed.

Lemma split_cons_line l s :
  single_line l = true -> split nl (l ++ nl :: s) = l :: split nl s.
Proof.
  intros Hl. change (l ++ nl :: s) with (joined l s).
  now rewrite split_joined, split_single.
Qed.

Lemma split_join (ls : list text) :
  ls <> [] -> forallb single_line ls = true -> split nl (join lf ls) = ls.
Proof.
  induction ls as [|l ls IH]; intros Hne Hall; [now elim Hne|].
  simpl in Hall. apply andb_true_iff in Hall as [Hl Hls].
  destruct ls as [|l' ls].
  - simpl. now apply split_single.
  - change (join lf (l :: l' :: ls)) with (l ++ nl :: join lf (l' :: ls)).
    rewrite split_cons_line by exact Hl. f_equal. apply IH; [discriminate|exact Hls].
Qed.

Lemma digits_single_line d : single_line (txt (NilEmpty.string_of_uint d)) = true.
Proof. induction d; simpl; auto. Qed.

Lemma str_of_nat_single_line n : single_line (str_of_nat n) = true.
Proof.
  unfold str_of_nat, NilZero.string_of_uint.
  destruct (Nat.to_uint n) eqn:E; try reflexivity; rewrite <- E;
    apply digits_single_line.
Qed.

Lemma case_not_newline c :
  is_alpha c = true ->
  Ascii.eqb (to_upper c) nl = false /\ Ascii.eqb (to_lower c) nl = false.
Proof.
  destruct c as [[] [] [] [] [] [] [] []]; vm_compute; intros H;
    (discriminate H || (split; reflexivity)).
Qed.

Lemma title_single_line s : forall b,
  single_line s = true -> single_line (title_from b s) = true.
Proof.
  induction s as [|c s IH]; intros b; simpl; [reflexivity|].
  rewrite andb_true_iff. intros [Hc Hs].
  destruct (is_alpha c) eqn:Ea; simpl.
  - destruct (case_not_newline c Ea) as [Hu Hl].
    destruct b; simpl; rewrite ?Hu, ?Hl; simpl; now apply IH.
  - rewrite Hc. simpl. now apply IH.
Qed.

Lemma replace_single_line s :
  single_line s = true -> single_line (replace_char "_" " " s) = true.
Proof.
  induction s as [|c s IH]; simpl; [reflexivity|].
  rewrite andb_true_iff. intros [Hc Hs]. rewrite (IH Hs), andb_true_r.
  destruct (Ascii.eqb c "_"); [reflexivity|exact Hc].
Qed.

Lemma report_lines_single (a : analysis) :
  well_formed a = true -> forallb single_line (report_lines a) = true.
Proof.
  unfold well_formed, report_lines.
  induction a as [|[k fs] a IH]; simpl; [reflexivity|].
  rewrite !andb_true_iff. intros [[Hk Hfs] Ha].
  rewrite forallb_app, (IH Ha), andb_true_r.
  unfold category_block; simpl. destruct fs as [|f fs]; [reflexivity|].
  set (fs' := f :: fs) in *. clearbody fs'.
  cbn [forallb]. rewrite forallb_app. cbn [forallb single_line].
  rewrite !andb_true_r, andb_true_iff. split.
  - unfold heading. rewrite single_line_app. simpl.
    now apply title_single_line, replace_single_line.
  - induction fs' as [|g fs' IHf]; [reflexivity|].
    simpl in Hfs. rewrite !andb_true_iff in Hfs.
    destruct Hfs as [[[Hi Hc] Hs] Hrest].
    cbn [flat_map]. rewrite forallb_app, (IHf Hrest), andb_true_r.
    unfold finding_lines. cbn [forallb].
    rewrite !single_line_app, str_of_nat_single_line, Hi, Hc, Hs. reflexivity.
Qed.

Definition is_bullet (l : text) : bool := starts_with "- " l.

Lemma bullets_of_block item :
  List.length (filter is_bullet (category_block item)) = List.length (snd item).
Proof.
  destruct item as [k fs]. unfold category_block; simpl.
  destruct fs as [|f fs]; [reflexivity|].
  set (fs' := f :: fs). clearbody fs'.
  change (List.length (filter is_bullet (flat_map finding_lines fs' ++ [[]]))
          = List.length fs').
  rewrite filter_app, length_app. simpl. rewrite Nat.add_0_r.
  induction fs' as [|g fs' IH]; [reflexivity|].
  simpl. now rewrite IH.
Qed.

Lemma bullets_of_report (a : analysis) :
  List.length (filter is_bullet (report_lines a))
  = List.length (flat_map snd a).
Proof.
  unfold report_lines. induction a as [|item a IH]; [reflexivity|].
  simpl. now rewrite filter_app, !length_app, IH, bullets_of_block.
Qed.

(** The claim of C9 as the specification words it: every finding has a
    bullet line that holds its line number, label, snippet and suggestion. *)
Definition bullet_holds_whole_finding (a : analysis) : Prop :=
  forall k fs f, In (k, fs) a -> In f fs ->
    exists l, In l (split nl (format_analysis_for_prompt a))
              /\ is_bullet l = true
              /\ contains (str_of_nat (line f)) l = true
              /\ contains (issue f) l = true
              /\ contains (code f) l = true
              /\ contains (suggestion f) l = true.

(** C9, counterexample: for the one finding of "int x;" the bullet line is
    "- Line 1: Uninitialized primitive variable"; the snippet and the
    suggestion are on the two lines after it. *)
Lemma bullet_line_lacks_snippet :
  ~ bullet_holds_whole_finding (analyze_cpp_code (txt "int x;")).
Proof.
  intros H.
  destruct (H (txt "potential_bugs")
              [uninitialized_finding 0 (txt "int x;")]
              (uninitialized_finding 0 (txt "int x;")))
    as (l & Hl & Hb & _ & _ & Hc & _).
  - vm_compute. tauto.
  - simpl. tauto.
  - vm_compute in Hl.
    repeat (destruct Hl as [<-|Hl]; [vm_compute in Hb, Hc; discriminate|]).
    exact Hl.
Qed.

(** C9, amended: for an analysis result whose keys and text fields hold no
    newline, the report consists, for each category with at least one
    finding and in dict order, of the heading "## " followed by the
    title-cased key, then for each finding the three lines
    "- Line N: issue", "  Code: snippet", "  Suggestion: suggestion", then an
    empty line; so there is exactly one bullet line per finding, and it
    holds the line number and the issue label. *)
Theorem report_has_three_lines_per_finding (a : analysis) :
  well_formed a = true ->
  let out := split nl (format_analysis_for_prompt a) in
  out = match report_lines a with [] => [[]] | _ :: _ => report_lines a end
  /\ List.length (filter is_bullet out) = List.length (flat_map snd a).
Proof.
  intros Hwf out. unfold out. rewrite format_report_lines.
  pose proof (bullets_of_report a) as Hb.
  pose proof (report_lines_single a Hwf) as Hs.
  destruct (report_lines a) as [|l ls] eqn:E.
  - split; [reflexivity|]. simpl in *. exact Hb.
  - rewrite split_join by (discriminate || exact Hs). split; [reflexivity|exact Hb].
Qed.

Lemma report_has_three_lines_per_finding_witness :
  let a := analyze_cpp_code (txt "int x;") in
  let out := split nl (format_analysis_for_prompt a) in
  out = match report_lines a with [] => [[]] | _ :: _ => report_lines a end
  /\ List.length (filter is_bullet out) = List.length (flat_map snd a).
Proof.
  apply (report_has_three_lines_per_finding (analyze_cpp_code (txt "int x;"))).
  reflexivity.
Defined.

(* ------------------------------------------------------------------ *)
(** ** The matcher on the fenced-block pattern *)

(** The cursor after reading the characters [s]. *)
Fixpoint consume (s : text) (cu : cursor) : cursor :=
  match s with
  | [] => cu
  | c :: s' => consume s' (advance c (tl (rest cu)) cu)
  end.

Lemma run_Lit s : forall cu k,
  run (Lit s) cu k = if starts_with s (rest cu) then k (consume s cu) else None.
Proof.
  induction s as [|a s IH]; intros cu k; [reflexivity|].
  cbn [Lit run Chr]. destruct (rest cu) as [|c r] eqn:E; [reflexivity|].
  cbn [starts_with consume tl]. destruct (Ascii.eqb a c) eqn:Eac; [|reflexivity].
  apply Ascii.eqb_eq in Eac. subst c. rewrite IH, E. reflexivity.
Qed.

Definition prev_after (s : text) (b : option ascii) : option ascii :=
  fold_left (fun _ c => Some c) s b.

Lemma consume_app s : forall b p r g,
  consume s (mkCursor b p (s ++ r) g)
  = mkCursor (prev_after s b) (p + List.length s) r g.
Proof.
  induction s as [|c s IH]; intros b p r g; simpl.
  - now rewrite Nat.add_0_r.
  - unfold advance; simpl. rewrite IH. f_equal. lia.
Qed.

(** The lazy [.*?]: the continuation is tried at each offset in turn. *)
Fixpoint scan_lazy (k : cursor -> option cursor) (b : option ascii) (p : nat)
  (g : list (nat * (nat * nat))) (s : text) : option cursor :=
  or_else (k (mkCursor b p s g))
    match s with
    | [] => None
    | c :: s' => scan_lazy k (Some c) (S p) g s'
    end.

Lemma or_else_none {A} (x : option A) : or_else x None = x.
Proof. now destruct x. Qed.

Lemma run_lazy_any k s : forall b p g,
  run (LazyStar Any) (mkCursor b p s g) k = scan_lazy k b p g s.
Proof.
  induction s as [|c s IH]; intros b p g.
  - cbn. now rewrite or_else_none.
  - cbn [scan_lazy]. rewrite <- IH. cbn.
    rewrite Nat.leb_refl. reflexivity.
Qed.

Lemma run_Seq r1 r2 cu k :
  run (Seq r1 r2) cu k = run r1 cu (fun cu' => run r2 cu' k).
Proof. reflexivity. Qed.

Lemma run_Group n r cu k :
  run (Group n r) cu k = run r cu (fun cu' => k (close_group n (pos cu) cu')).
Proof. reflexivity. Qed.

Lemma scan_lazy_ext k k' :
  (forall cu, k cu = k' cu) ->
  forall s b p g, scan_lazy k b p g s = scan_lazy k' b p g s.
Proof.
  intros H s. induction s as [|c s IH]; intros b p g; simpl.
  - now rewrite H.
  - now rewrite H, IH.
Qed.

(** What follows the lazy group: the closing fence. *)
Definition closing (start : nat) (cu : cursor) : option cursor :=
  if starts_with fence (rest cu)
  then Some (consume fence (close_group 1 start cu))
  else None.

Lemma match_at_code_pattern prev p s :
  match_at code_pattern prev p s =
  if starts_with open_fence s
  then match scan_lazy (closing (p + 7)) (Some nl) (p + 7) []
               (skipn 7 s) with
       | Some cu => Some (mkMatch p (pos cu) (groups cu))
       | None => None
       end
  else None.
Proof.
  unfold match_at, code_pattern, Cat. cbn [fold_right].
  rewrite run_Seq, run_Lit. cbn [rest].
  destruct (starts_with open_fence s) eqn:E; [|reflexivity].
  apply starts_with_spec in E as [r ->].
  rewrite consume_app.
  change (List.length open_fence) with 7.
  change (prev_after open_fence prev) with (Some nl).
  change (skipn 7 (open_fence ++ r)) with r.
  rewrite run_Seq, run_Group, run_lazy_any. cbn [pos].
  rewrite (scan_lazy_ext _ (closing (p + 7))); [reflexivity|].
  intros cu. rewrite run_Seq, run_Lit. reflexivity.
Qed.

(** No character of [f] is [sep]. *)
Definition avoids (f : text) (sep : ascii) : bool :=
  forallb (fun a => negb (Ascii.eqb a sep)) f.

Lemma starts_with_past_sep f sep : forall X R,
  f <> [] -> avoids f sep = true ->
  starts_with f X = false -> starts_with f (X ++ sep :: R) = false.
Proof.
  induction f as [|a f IH]; intros X R Hne Hav H; [now elim Hne|].
  simpl in Hav. apply andb_true_iff in Hav as [Ha Hav].
  apply negb_true_iff in Ha.
  destruct X as [|x X]; simpl.
  - now rewrite Ha.
  - simpl in H. apply andb_false_iff in H as [H|H]; [now rewrite H|].
    destruct f as [|a' f]; [discriminate|].
    rewrite (IH X R); [apply andb_false_r|discriminate|exact Hav|exact H].
Qed.

Lemma contains_past_sep f sep X R :
  f <> [] -> avoids f sep = true ->
  contains f X = false -> contains f (X ++ sep :: R) = contains f R.
Proof.
  intros Hne Hav. induction X as [|x X IH]; intros H.
  - simpl. destruct f as [|a f]; [now elim Hne|].
    simpl in Hav. apply andb_true_iff in Hav as [Ha _].
    apply negb_true_iff in Ha. simpl. now rewrite Ha.
  - simpl in H. apply orb_false_iff in H as [H1 H2].
    change ((x :: X) ++ sep :: R) with (x :: (X ++ sep :: R)).
    cbn [contains]. rewrite (IH H2).
    change (x :: (X ++ sep :: R)) with ((x :: X) ++ sep :: R).
    now rewrite (starts_with_past_sep f sep (x :: X) R Hne Hav H1).
Qed.

Lemma starts_with_app a b s :
  starts_with (a ++ b) s = true -> starts_with a s = true.
Proof.
  rewrite !starts_with_spec. intros [r ->]. exists (b ++ r).
  now rewrite app_assoc.
Qed.

Lemma open_needs_fence s :
  starts_with fence s = false -> starts_with open_fence s = false.
Proof.
  intros H. destruct (starts_with open_fence s) eqn:E; [|reflexivity].
  change open_fence with (fence ++ (txt "cpp" ++ lf)) in E.
  apply starts_with_app in E. congruence.
Qed.

Lemma fence_nonempty : fence <> [].
Proof. discriminate. Qed.

Lemma contains_cons f c s :
  contains f (c :: s) = starts_with f (c :: s) || contains f s.
Proof. reflexivity. Qed.

(** The search steps over text that holds no fence. *)
Lemma search_from_past Q sep R : forall prev p,
  avoids fence sep = true -> contains fence Q = false ->
  search_from code_pattern prev p (Q ++ sep :: R)
  = search_from code_pattern (Some sep) (p + List.length Q + 1) R.
Proof.
  induction Q as [|c Q IH]; intros prev p Hav H.
  - cbn [app search_from]. rewrite match_at_code_pattern.
    rewrite open_needs_fence.
    + f_equal. simpl. lia.
    + apply (starts_with_past_sep fence sep [] R fence_nonempty Hav).
      reflexivity.
  - rewrite contains_cons in H. apply orb_false_iff in H as [H1 H2].
    change ((c :: Q) ++ sep :: R) with (c :: (Q ++ sep :: R)).
    cbn [search_from]. rewrite match_at_code_pattern.
    rewrite open_needs_fence.
    + rewrite (IH (Some c) (S p) Hav H2). f_equal. simpl. lia.
    + apply (starts_with_past_sep fence sep (c :: Q) R fence_nonempty Hav H1).
Qed.

Lemma search_from_none s : forall prev p,
  contains fence s = false -> search_from code_pattern prev p s = None.
Proof.
  induction s as [|c s IH]; intros prev p H.
  - cbn [search_from]. rewrite match_at_code_pattern. reflexivity.
  - rewrite contains_cons in H. apply orb_false_iff in H as [H1 H2].
    cbn [search_from]. rewrite match_at_code_pattern.
    rewrite (open_needs_fence _ H1). now apply IH.
Qed.

(** The lazy group steps over text that holds no fence. *)
Lemma scan_lazy_past start Q sep R : forall b p g,
  avoids fence sep = true -> contains fence Q = false ->
  scan_lazy (closing start) b p g (Q ++ sep :: R)
  = scan_lazy (closing start) (Some sep) (p + List.length Q + 1) g R.
Proof.
  induction Q as [|c Q IH]; intros b p g Hav H.
  - cbn [app scan_lazy]. unfold closing at 1. cbn [rest].
    pose proof (starts_with_past_sep fence sep [] R fence_nonempty Hav eq_refl)
      as Hs.
    cbn [app] in Hs. rewrite Hs. cbn [or_else]. f_equal. simpl. lia.
  - rewrite contains_cons in H. apply orb_false_iff in H as [H1 H2].
    change ((c :: Q) ++ sep :: R) with (c :: (Q ++ sep :: R)).
    cbn [scan_lazy]. unfold closing at 1. cbn [rest].
    change (c :: (Q ++ sep :: R)) with ((c :: Q) ++ sep :: R).
    rewrite (starts_with_past_sep fence sep (c :: Q) R fence_nonempty Hav H1).
    cbn [or_else]. rewrite (IH (Some c) (S p) g Hav H2). f_equal. simpl. lia.
Qed.

Lemma search_from_unfold r prev p s :
  search_from r prev p s =
  match match_at r prev p s with
  | Some m => Some m
  | None => match s with
            | [] => None
            | c :: s' => search_from r (Some c) (S p) s'
            end
  end.
Proof. destruct s; reflexivity. Qed.

Lemma scan_lazy_unfold k b p g s :
  scan_lazy k b p g s =
  or_else (k (mkCursor b p s g))
    match s with
    | [] => None
    | c :: s' => scan_lazy k (Some c) (S p) g s'
    end.
Proof. destruct s; reflexivity. Qed.

Lemma starts_with_intro a b : starts_with a (a ++ b) = true.
Proof. apply starts_with_spec. now exists b. Qed.

Definition space : ascii := " "%char.

Lemma constructed_shape prefix CODE suffix :
  constructed prefix CODE suffix
  = prefix ++ space :: open_fence ++ CODE ++ nl :: fence ++ space :: suffix.
Proof. reflexivity. Qed.

(** The match found in a constructed response that starts at offset [p]. *)
Lemma search_from_constructed prefix CODE suffix prev p :
  contains fence prefix = false -> contains fence CODE = false ->
  let start := p + List.length prefix + 1 in
  search_from code_pattern prev p (constructed prefix CODE suffix)
  = Some (mkMatch start (start + 7 + List.length CODE + 1 + 3)
            [(1, (start + 7, start + 7 + List.length CODE + 1))]).
Proof.
  intros Hp Hc start. rewrite constructed_shape.
  rewrite (search_from_past prefix space _ prev p eq_refl Hp). fold start.
  rewrite search_from_unfold, match_at_code_pattern, starts_with_intro.
  change (skipn 7 (open_fence ++ CODE ++ nl :: fence ++ space :: suffix))
    with (CODE ++ nl :: fence ++ space :: suffix).
  rewrite (scan_lazy_past _ CODE nl _ _ _ _ eq_refl Hc).
  rewrite scan_lazy_unfold. unfold closing at 1. cbn [rest].
  rewrite starts_with_intro. unfold close_group. cbn [before pos rest groups].
  rewrite consume_app. cbn [or_else pos groups]. 
  change (List.length fence) with 3. reflexivity.
Qed.

Lemma slice_middle {A} (X Y Z : list A) :
  slice (List.length X) (List.length X + List.length Y) (X ++ Y ++ Z) = Y.
Proof.
  unfold slice. rewrite skipn_app, skipn_all, Nat.sub_diag. simpl.
  replace (List.length X + List.length Y - List.length X)
    with (List.length Y) by lia.
  rewrite firstn_app, firstn_all, Nat.sub_diag. simpl. apply app_nil_r.
Qed.

Lemma sub_empty_from_none fuel prev p s :
  contains fence s = false -> sub_empty_from fuel code_pattern prev p s = s.
Proof.
  intros H. destruct fuel; [reflexivity|].
  cbn [sub_empty_from]. now rewrite search_from_none.
Qed.

Lemma contains_after_space s :
  contains fence (space :: s) = contains fence s.
Proof.
  apply (contains_past_sep fence space [] s fence_nonempty); reflexivity.
Qed.

Lemma extract_constructed_raw prefix CODE suffix :
  contains fence prefix = false -> contains fence CODE = false ->
  contains fence suffix = false ->
  extract_code_and_explanation (constructed prefix CODE suffix)
  = (strip (CODE ++ [nl]), strip (prefix ++ space :: space :: suffix)).
Proof.
  intros Hp Hc Hs. unfold extract_code_and_explanation, search, sub_empty.
  cbn [sub_empty_from].
  rewrite (search_from_constructed prefix CODE suffix None 0 Hp Hc).
  cbn [m_start m_end]. rewrite !Nat.sub_0_r.
  set (start := 0 + List.length prefix + 1).
  assert (Hlt : (start + 7 + List.length CODE + 1 + 3 <=? start) = false)
    by (apply Nat.leb_gt; lia).
  rewrite Hlt. f_equal.
  - f_equal. unfold group. cbn [m_groups lookup Nat.eqb].
    rewrite constructed_shape.
    replace (prefix ++ space :: open_fence ++ CODE ++ nl :: fence ++ space :: suffix)
      with ((prefix ++ space :: open_fence) ++ (CODE ++ [nl])
            ++ fence ++ space :: suffix)
      by (rewrite <- !app_assoc; reflexivity).
    replace (start + 7) with (List.length (prefix ++ space :: open_fence))
      by (rewrite length_app; simpl; unfold start; lia).
    replace (List.length (prefix ++ space :: open_fence) + List.length CODE + 1)
      with (List.length (prefix ++ space :: open_fence)
            + List.length (CODE ++ [nl]))
      by (rewrite (length_app CODE); simpl; lia).
    apply slice_middle.
  - f_equal. rewrite constructed_shape.
    replace (prefix ++ space :: open_fence ++ CODE ++ nl :: fence ++ space :: suffix)
      with ((prefix ++ [space])
            ++ (open_fence ++ CODE ++ nl :: fence) ++ space :: suffix)
      by (rewrite <- !app_assoc; reflexivity).
    replace start with (List.length (prefix ++ [space]))
      by (rewrite length_app; simpl; unfold start; lia).
    rewrite firstn_app, firstn_all, Nat.sub_diag. cbn [firstn].
    rewrite app_nil_r.
    replace (List.length (prefix ++ [space]) + 7 + List.length CODE + 1 + 3)
      with (List.length ((prefix ++ [space])
                         ++ (open_fence ++ CODE ++ nl :: fence)))
      by (rewrite !length_app; simpl; lia).
    rewrite app_assoc, skipn_app, skipn_all, Nat.sub_diag. cbn [skipn app].
    rewrite sub_empty_from_none by (rewrite contains_after_space; exact Hs).
    rewrite <- app_assoc. reflexivity.
Qed.

(* ------------------------------------------------------------------ *)
(** ** Trimming *)

Definition all_space (s : text) : bool := forallb is_space s.

Definition hd_ok (s : text) : bool :=
  match s with
  | [] => true
  | c :: _ => negb (is_space c)
  end.

(** Neither the first nor the last character is whitespace. *)
Definition trimmed (s : text) : bool := hd_ok s && hd_ok (rev s).

Lemma drop_while_app p X Y :
  drop_while p (X ++ Y)
  = if forallb p X then drop_while p Y else drop_while p X ++ Y.
Proof.
  induction X as [|x X IH]; simpl; [reflexivity|].
  destruct (p x); simpl; [exact IH|reflexivity].
Qed.

Lemma drop_while_all p X : forallb p X = true -> drop_while p X = [].
Proof.
  induction X as [|x X IH]; simpl; [reflexivity|].
  destruct (p x); simpl; [exact IH|discriminate].
Qed.

Lemma drop_while_hd_ok s : hd_ok s = true -> drop_while is_space s = s.
Proof.
  destruct s as [|c s]; simpl; [reflexivity|].
  now destruct (is_space c).
Qed.

Lemma drop_while_split s :
  exists w, s = w ++ drop_while is_space s /\ all_space w = true
            /\ hd_ok (drop_while is_space s) = true.
Proof.
  induction s as [|c s (w & Hs & Hw & Hd)]; simpl.
  - now exists [].
  - destruct (is_space c) eqn:E.
    + exists (c :: w). simpl. rewrite E, Hw. repeat split; [|exact Hd].
      now rewrite <- Hs.
    + exists []. simpl. now rewrite E.
Qed.

Lemma forallb_rev {A} (p : A -> bool) l : forallb p (rev l) = forallb p l.
Proof.
  induction l as [|x l IH]; simpl; [reflexivity|].
  rewrite forallb_app, IH. simpl. rewrite andb_true_r. apply andb_comm.
Qed.

Lemma hd_ok_app a b : a <> [] -> hd_ok (a ++ b) = hd_ok a.
Proof. destruct a; [intros H; now elim H|reflexivity]. Qed.

Lemma strip_unique w1 m w2 :
  all_space w1 = true -> all_space w2 = true -> trimmed m = true ->
  strip (w1 ++ m ++ w2) = m.
Proof.
  unfold all_space, trimmed. intros H1 H2 Hm.
  apply andb_true_iff in Hm as [Hh Hl].
  unfold strip, lstrip, rstrip. rewrite drop_while_app, H1.
  destruct m as [|c m].
  - simpl. now rewrite (drop_while_all _ _ H2).
  - rewrite (drop_while_hd_ok ((c :: m) ++ w2)) by exact Hh.
    rewrite rev_app_distr, drop_while_app, forallb_rev, H2.
    rewrite (drop_while_hd_ok _ Hl). apply rev_involutive.
Qed.

Lemma strip_decompose s :
  exists w1 w2, s = w1 ++ strip s ++ w2 /\ all_space w1 = true
                /\ all_space w2 = true /\ trimmed (strip s) = true.
Proof.
  unfold strip, lstrip, rstrip.
  destruct (drop_while_split s) as (w1 & Hs & Hw1 & HL).
  set (L := drop_while is_space s) in *.
  destruct (drop_while_split (rev L)) as (u & Hr & Hu & HD).
  set (D := drop_while is_space (rev L)) in *.
  assert (HLD : L = rev D ++ rev u).
  { rewrite <- (rev_involutive L), Hr. apply rev_app_distr. }
  exists w1, (rev u). repeat split.
  - now rewrite <- HLD.
  - exact Hw1.
  - unfold all_space. now rewrite forallb_rev.
  - unfold trimmed. rewrite rev_involutive, HD, andb_true_r.
    destruct (rev D) as [|x r] eqn:E; [reflexivity|].
    rewrite HLD in HL. exact HL.
Qed.

Lemma strip_in_text s : contains (strip s) s = true.
Proof.
  destruct (strip_decompose s) as (w1 & w2 & Hs & _).
  rewrite Hs at 2. apply contains_intro.
Qed.

Lemma strip_with_space X w : is_space w = true -> strip (X ++ [w]) = strip X.
Proof.
  intros Hw. destruct (strip_decompose X) as (w1 & w2 & HX & H1 & H2 & Ht).
  rewrite HX at 1. rewrite <- !app_assoc.
  apply strip_unique; [exact H1| |exact Ht].
  unfold all_space in *. rewrite forallb_app, H2. simpl. now rewrite Hw.
Qed.

Lemma trimmed_around P M S :
  P <> [] -> S <> [] -> trimmed P = true -> trimmed S = true ->
  trimmed (P ++ M ++ S) = true.
Proof.
  unfold trimmed. intros HP HS HtP HtS.
  apply andb_true_iff in HtP as [HP1 _]. apply andb_true_iff in HtS as [_ HS2].
  rewrite hd_ok_app by exact HP. rewrite HP1. simpl.
  rewrite !rev_app_distr, <- app_assoc, hd_ok_app; [exact HS2|].
  intros E. apply HS. rewrite <- (rev_involutive S), E. reflexivity.
Qed.

(** Trimming a text keeps the trimmed forms of a head part and a tail part
    that are separated by whitespace. *)
Lemma strip_keeps_ends (a gap b : text) :
  all_space gap = true ->
  contains (strip a) (strip (a ++ gap ++ b)) = true
  /\ contains (strip b) (strip (a ++ gap ++ b)) = true.
Proof.
  intros Hg.
  destruct (strip_decompose a) as (w1 & w2 & Ha & Hw1 & Hw2 & Hta).
  destruct (strip_decompose b) as (v1 & v2 & Hb & Hv1 & Hv2 & Htb).
  set (P := strip a) in *. set (S := strip b) in *.
  assert (Hmid : all_space (w2 ++ gap ++ v1) = true)
    by (unfold all_space in *; now rewrite !forallb_app, Hw2, Hg, Hv1).
  assert (E : a ++ gap ++ b = w1 ++ (P ++ (w2 ++ gap ++ v1) ++ S) ++ v2)
    by (rewrite Ha at 1; rewrite Hb at 1; now rewrite <- !app_assoc).
  destruct P as [|p P'] eqn:EP; destruct S as [|c S'] eqn:ES.
  - assert (strip (a ++ gap ++ b) = []) as ->; [|split; reflexivity].
    rewrite E. simpl. rewrite app_nil_r.
    replace (w1 ++ (w2 ++ gap ++ v1) ++ v2)
      with ((w1 ++ (w2 ++ gap ++ v1) ++ v2) ++ [] ++ [])
      by now rewrite !app_nil_r.
    apply strip_unique; [|reflexivity|reflexivity].
    unfold all_space in *. now rewrite !forallb_app, Hw1, Hw2, Hg, Hv1, Hv2.
  - assert (strip (a ++ gap ++ b) = c :: S') as ->.
    { rewrite E. simpl.
      replace (w1 ++ ((w2 ++ gap ++ v1) ++ c :: S') ++ v2)
        with ((w1 ++ w2 ++ gap ++ v1) ++ (c :: S') ++ v2)
        by now rewrite <- !app_assoc.
      apply strip_unique; [|exact Hv2|exact Htb].
      unfold all_space in *. now rewrite !forallb_app, Hw1, Hw2, Hg, Hv1. }
    split; [reflexivity|apply contains_refl].
  - assert (strip (a ++ gap ++ b) = p :: P') as ->.
    { rewrite E. rewrite app_nil_r.
      replace (w1 ++ ((p :: P') ++ w2 ++ gap ++ v1) ++ v2)
        with (w1 ++ (p :: P') ++ (w2 ++ gap ++ v1) ++ v2)
        by now rewrite <- !app_assoc.
      apply strip_unique; [exact Hw1| |exact Hta].
      unfold all_space in *. now rewrite !forallb_app, Hw2, Hg, Hv1, Hv2. }
    split; [apply contains_refl|reflexivity].
  - assert (strip (a ++ gap ++ b)
            = (p :: P') ++ (w2 ++ gap ++ v1) ++ c :: S') as ->.
    { rewrite E. apply strip_unique; [exact Hw1|exact Hv2|].
      apply trimmed_around; [discriminate|discriminate|exact Hta|exact Htb]. }
    split.
    + apply (contains_intro (p :: P') []).
    + rewrite app_assoc. rewrite <- (app_nil_r (c :: S')) at 2.
      apply contains_intro.
Qed.

(* ------------------------------------------------------------------ *)
(** ** The round trip of a constructed response *)

(** None of the three parts holds a fence or the text of another part. *)
Definition apart (prefix CODE suffix : text) : Prop :=
  contains fence prefix = false /\ contains fence CODE = false
  /\ contains fence suffix = false
  /\ contains CODE prefix = false /\ contains suffix prefix = false
  /\ contains prefix CODE = false /\ contains suffix CODE = false
  /\ contains prefix suffix = false /\ contains CODE suffix = false.

(** The claim of C8 as the specification words it. *)
Definition extract_round_trip (prefix CODE suffix : text) : Prop :=
  apart prefix CODE suffix ->
  let r := extract_code_and_explanation (constructed prefix CODE suffix) in
  fst r = strip CODE
  /\ contains prefix (snd r) = true /\ contains suffix (snd r) = true
  /\ contains fence (snd r) = false /\ contains CODE (snd r) = false.

Definition response_prefix : text := txt "Here is the improved code:".
Definition response_code : text := txt "int x = 0;".
Definition response_suffix : text := txt "It initialises x." ++ lf.

(** C8, counterexample: a suffix that ends with a newline is not contained
    in the explanation, which is trimmed. *)
Lemma trimmed_explanation_lacks_suffix :
  ~ extract_round_trip response_prefix response_code response_suffix.
Proof.
  intros H.
  assert (Ha : apart response_prefix response_code response_suffix)
    by (vm_compute; repeat split).
  destruct (H Ha) as (_ & _ & Hs & _).
  vm_compute in Hs. discriminate Hs.
Qed.

Lemma no_fence_after_trim s :
  contains fence s = false -> contains fence (strip s) = false.
Proof.
  intros H. destruct (contains fence (strip s)) eqn:E; [|reflexivity].
  rewrite (contains_trans _ _ _ E (strip_in_text s)) in H. discriminate H.
Qed.

(** C8, amended: for parts that hold no fence, the improved code is CODE
    trimmed and the explanation is the prefix, two spaces and the suffix,
    trimmed as a whole; it holds no fence delimiter, it contains the prefix
    and the suffix each trimmed of leading and trailing whitespace, and it
    does not contain CODE unless CODE occurs in the prefix, two spaces and
    the suffix put together. *)
Theorem extract_constructed_response (prefix CODE suffix : text) :
  contains fence prefix = false -> contains fence CODE = false ->
  contains fence suffix = false ->
  let r := extract_code_and_explanation (constructed prefix CODE suffix) in
  fst r = strip CODE
  /\ snd r = strip (prefix ++ txt "  " ++ suffix)
  /\ contains fence (snd r) = false /\ contains open_fence (snd r) = false
  /\ contains (strip prefix) (snd r) = true
  /\ contains (strip suffix) (snd r) = true
  /\ (contains CODE (prefix ++ txt "  " ++ suffix) = false ->
      contains CODE (snd r) = false).
Proof.
  intros Hp Hc Hs r. unfold r.
  rewrite (extract_constructed_raw prefix CODE suffix Hp Hc Hs).
  cbn [fst snd].
  change (prefix ++ space :: space :: suffix)
    with (prefix ++ txt "  " ++ suffix).
  assert (Hf : contains fence (strip (prefix ++ txt "  " ++ suffix)) = false).
  { apply no_fence_after_trim.
    change (prefix ++ txt "  " ++ suffix)
      with (prefix ++ space :: space :: suffix).
    rewrite (contains_past_sep fence space prefix _ fence_nonempty eq_refl Hp).
    now rewrite contains_after_space. }
  destruct (strip_keeps_ends prefix (txt "  ") suffix eq_refl) as [Hkp Hks].
  repeat split.
  - now apply strip_with_space.
  - exact Hf.
  - destruct (contains open_fence _) eqn:E; [|reflexivity].
    assert (Hfo : contains fence open_fence = true) by reflexivity.
    rewrite (contains_trans _ _ _ Hfo E) in Hf. discriminate Hf.
  - exact Hkp.
  - exact Hks.
  - intros Hno. destruct (contains CODE (strip _)) eqn:E; [|reflexivity].
    rewrite (contains_trans _ _ _ E (strip_in_text _)) in Hno.
    discriminate Hno.
Qed.

Lemma extract_constructed_response_witness :
  let r := extract_code_and_explanation
             (constructed response_prefix response_code response_suffix) in
  fst r = strip response_code
  /\ snd r = strip (response_prefix ++ txt "  " ++ response_suffix)
  /\ contains fence (snd r) = false /\ contains open_fence (snd r) = false
  /\ contains (strip response_prefix) (snd r) = true
  /\ contains (strip response_suffix) (snd r) = true
  /\ (contains response_code
        (response_prefix ++ txt "  " ++ response_suffix) = false ->
      contains response_code (snd r) = false).
Proof.
  apply (extract_constructed_response response_prefix response_code
           response_suffix); reflexivity.
Defined.

(* ------------------------------------------------------------------ *)
(** ** The result dict as a table of the six scans *)

Lemma dict_by_keys (a : analysis) :
  NoDup (map fst a) -> a = map (fun k => (k, get k a)) (map fst a).
Proof.
  intros Hnd. rewrite map_map. rewrite <- (map_id a) at 1.
  apply map_ext_in. intros [k fs] Hin. simpl.
  now rewrite (in_get a k fs Hnd Hin).
Qed.

Lemma analyze_table (c : text) :
  analyze_cpp_code c
  = map (fun k => (k, findings_of k (split nl c))) categories.
Proof.
  rewrite (dict_by_keys (analyze_cpp_code c))
    by (rewrite keys_analyze; apply keys_nodup).
  rewrite keys_analyze. apply map_ext_in. intros k Hk.
  now rewrite get_analyze.
Qed.

Lemma in_enumerate_nth {A} (xs : list A) : forall s i x,
  In (i, x) (enumerate_from s xs) -> nth_error xs (i - s) = Some x.
Proof.
  induction xs as [|y xs IH]; intros s i x; simpl; [tauto|].
  intros [E|Hin].
  - inversion E; subst. now rewrite Nat.sub_diag.
  - pose proof (in_enumerate_from xs _ _ _ Hin) as Hr.
    apply IH in Hin. replace (i - s) with (S (i - S s)) by lia. exact Hin.
Qed.

Lemma nth_enumerate {A} (xs : list A) : forall s i x,
  nth_error xs i = Some x -> In (s + i, x) (enumerate_from s xs).
Proof.
  induction xs as [|y xs IH]; intros s i x H; destruct i; simpl in *;
    try discriminate.
  - inversion H; subst. left. f_equal. lia.
  - right. replace (s + S i) with (S s + i) by lia. now apply IH.
Qed.

(** Every finding of a rule is built from the line it was found on. *)
Definition from_line (rule : nat -> text -> list finding) : Prop :=
  forall i l f, In f (rule i l) -> line f = i + 1 /\ code f = strip l.

Lemma list_if_from_line b (mk : nat -> text -> finding) :
  (forall i l, line (mk i l) = i + 1 /\ code (mk i l) = strip l) ->
  from_line (fun i l => list_if (b i l) (mk i l)).
Proof.
  intros H i l f. unfold list_if. destruct (b i l); simpl; [|tauto].
  intros [<-|[]]. apply H.
Qed.

Lemma from_line_app r1 r2 :
  from_line r1 -> from_line r2 -> from_line (fun i l => r1 i l ++ r2 i l).
Proof.
  intros H1 H2 i l f Hin. apply in_app_or in Hin as [Hin|Hin]; eauto.
Qed.

Lemma performance_from_line lines : from_line (performance_rule lines).
Proof.
  apply from_line_app.
  - now apply (list_if_from_line (sqrt_cond lines)).
  - now apply (list_if_from_line (string_ops_cond lines)).
Qed.

Lemma bugs_from_line lines : from_line (bugs_rule lines).
Proof.
  apply from_line_app.
  - intros i l f. destruct (uninitialized_cond l); [|simpl; tauto].
    rewrite in_flat_map. intros (t & _ & Hf). unfold list_if in Hf.
    destruct (found _ l); simpl in Hf; [|tauto]. now destruct Hf as [<-|[]].
  - now apply (list_if_from_line (null_deref_cond lines)).
Qed.

Lemma per_line_source lines rule f :
  from_line rule -> In f (per_line lines rule) ->
  exists l, nth_error lines (line f - 1) = Some l /\ code f = strip l.
Proof.
  intros Hr Hin. apply in_per_line in Hin as (i & l & Hi & Hf).
  apply Hr in Hf as [Hl Hc]. apply in_enumerate_nth in Hi.
  exists l. split; [|exact Hc].
  rewrite Hl. replace (i + 1 - 1) with (i - 0) by lia. exact Hi.
Qed.

Lemma findings_of_source k lines f :
  In f (findings_of k lines) ->
  exists l, nth_error lines (line f - 1) = Some l /\ code f = strip l.
Proof.
  unfold findings_of.
  repeat match goal with
         | |- context [if ?b then _ else _] => destruct b
         end;
    try (intros H; apply in_app_or in H as [H|H]; revert H);
    try (apply per_line_source;
         first [ now apply (list_if_from_line (fun _ l => raw_pointer_cond l))
               | now apply (list_if_from_line (fun _ l => c_array_cond l))
               | now apply (list_if_from_line (fun _ l => index_loop_cond l))
               | now apply (list_if_from_line (fun _ l => float_compare_cond l))
               | now apply (list_if_from_line (fun _ l => magic_number_cond l))
               | apply performance_from_line | apply bugs_from_line ]).
  simpl. tauto.
Qed.

(** X1: in every category, the code of a finding is the trimmed text of the
    source line its line number points at. *)
Theorem finding_quotes_its_line (c k : text) fs f :
  In (k, fs) (analyze_cpp_code c) -> In f fs ->
  exists l, nth_error (split nl c) (line f - 1) = Some l /\ code f = strip l.
Proof.
  intros Hin Hf. apply item_analyze in Hin as [_ ->].
  now apply findings_of_source in Hf.
Qed.

Lemma finding_quotes_its_line_witness :
  exists l, nth_error (split nl two_magic_numbers)
              (line (magic_number_finding 1 (txt "y = 2.5;")) - 1) = Some l
            /\ code (magic_number_finding 1 (txt "y = 2.5;")) = strip l.
Proof.
  apply (finding_quotes_its_line two_magic_numbers (txt "code_style")
           [magic_number_finding 0 (txt "x = 1.5;");
            magic_number_finding 1 (txt "y = 2.5;")]).
  - vm_compute. tauto.
  - simpl. tauto.
Defined.

(* ------------------------------------------------------------------ *)
(** ** Which lines a rule reports *)

Lemma in_per_line_nth lines rule f :
  In f (per_line lines rule) <->
  exists i l, nth_error lines i = Some l /\ In f (rule i l).
Proof.
  split.
  - intros Hin. apply in_per_line in Hin as (i & l & Hi & Hf).
    apply in_enumerate_nth in Hi. rewrite Nat.sub_0_r in Hi. now exists i, l.
  - intros (i & l & Hi & Hf). unfold per_line. apply in_flat_map.
    exists (i, l). split; [|exact Hf]. apply (nth_enumerate lines 0 i l Hi).
Qed.

(** A one-line rule reports nothing on a line its condition rejects. *)
Lemma rejected_line_silent lines (cond : text -> bool)
  (mk : nat -> text -> finding) i l f :
  (forall j m, line (mk j m) = j + 1) ->
  nth_error lines i = Some l -> cond l = false ->
  In f (per_line lines (fun j m => list_if (cond m) (mk j m))) ->
  line f <> i + 1.
Proof.
  intros Hmk Hi Hc Hin Hline.
  apply in_per_line_nth in Hin as (j & m & Hj & Hf).
  unfold list_if in Hf. destruct (cond m) eqn:E; simpl in Hf; [|tauto].
  destruct Hf as [<-|[]]. rewrite Hmk in Hline.
  assert (j = i) by lia. subst j. congruence.
Qed.

Definition is_some {A} (o : option A) : bool :=
  match o with Some _ => true | None => false end.

Lemma found_from_unfold r prev p l :
  is_some (search_from r prev p l)
  = is_some (match_at r prev p l)
    || match l with
       | [] => false
       | c :: l' => is_some (search_from r (Some c) (S p) l')
       end.
Proof.
  rewrite search_from_unfold.
  destruct (match_at r prev p l); [reflexivity|]. now destruct l.
Qed.

Lemma match_at_Lit s prev p l :
  is_some (match_at (Lit s) prev p l) = starts_with s l.
Proof.
  unfold match_at. rewrite run_Lit. cbn [rest].
  now destruct (starts_with s l).
Qed.

Lemma match_at_Alt r1 r2 prev p l :
  is_some (match_at (Alt r1 r2) prev p l)
  = is_some (match_at r1 prev p l) || is_some (match_at r2 prev p l).
Proof.
  unfold match_at. cbn [run]. 
  destruct (run r1 _ Some); [reflexivity|]. simpl.
  now destruct (run r2 _ Some).
Qed.

Lemma found_is_some r l : found r l = is_some (search r l).
Proof. reflexivity. Qed.

Lemma found_Lit s l : found (Lit s) l = contains s l.
Proof.
  rewrite found_is_some. unfold search.
  generalize (@None ascii) as prev, 0 as p.
  induction l as [|c l IH]; intros prev p.
  - rewrite found_from_unfold, match_at_Lit. simpl. reflexivity.
  - rewrite (found_from_unfold (Lit s) prev p (c :: l)), match_at_Lit.
    rewrite contains_cons. f_equal. apply IH.
Qed.

Lemma found_Alt r1 r2 l : found (Alt r1 r2) l = found r1 l || found r2 l.
Proof.
  rewrite !found_is_some. unfold search.
  generalize (@None ascii) as prev, 0 as p.
  induction l as [|c l IH]; intros prev p.
  - rewrite !found_from_unfold, match_at_Alt. now rewrite !orb_false_r.
  - rewrite (found_from_unfold (Alt r1 r2) prev p (c :: l)),
      (found_from_unfold r1 prev p (c :: l)),
      (found_from_unfold r2 prev p (c :: l)), match_at_Alt, IH.
    destruct (is_some (match_at r1 prev p (c :: l))),
      (is_some (match_at r2 prev p (c :: l))),
      (is_some (search_from r1 (Some c) (S p) l)),
      (is_some (search_from r2 (Some c) (S p) l)); reflexivity.
Qed.

Lemma in_modern_cpp lines f :
  In f (findings_of "modern_cpp" lines) ->
  In f (per_line lines c_array_rule) \/ In f (per_line lines index_loop_rule).
Proof. unfold findings_of; simpl. apply in_app_or. Qed.

Lemma in_bugs_uninitialized lines f :
  In f (findings_of "potential_bugs" lines) ->
  issue f = txt "Uninitialized primitive variable" ->
  exists i l, nth_error lines i = Some l /\ line f = i + 1
              /\ uninitialized_cond l = true.
Proof.
  unfold findings_of; simpl. intros Hin Hissue.
  apply in_per_line_nth in Hin as (i & l & Hi & Hf).
  exists i, l. split; [exact Hi|].
  unfold bugs_rule in Hf. apply in_app_or in Hf as [Hf|Hf].
  - destruct (uninitialized_cond l); [|simpl in Hf; tauto].
    split; [|reflexivity].
    apply in_flat_map in Hf as (t & _ & Hf). unfold list_if in Hf.
    destruct (found _ l); simpl in Hf; [|tauto]. now destruct Hf as [<-|[]].
  - unfold list_if in Hf. destruct (null_deref_cond lines i l); simpl in Hf;
      [|tauto].
    destruct Hf as [<-|[]]. discriminate Hissue.
Qed.

(** X2: the exclusions of the rules: a line that mentions std::, shared_ptr or
    unique_ptr gets no memory_management finding; a line that mentions char
    gets no C-style-array finding; a line with #define or with const and
    float separated by whitespace gets no code_style finding; a line with an
    equals sign or one of the words class, struct, enum gets no
    uninitialized-variable finding. *)
Theorem excluded_lines_not_flagged (c l : text) (i : nat) :
  nth_error (split nl c) i = Some l ->
  (contains "std::" l || contains "shared_ptr" l || contains "unique_ptr" l
   = true ->
   forall f, In f (get "memory_management" (analyze_cpp_code c)) ->
             line f <> i + 1)
  /\ (contains "char" l = true ->
      forall f, In f (get "modern_cpp" (analyze_cpp_code c)) ->
                issue f = txt "C-style array usage" -> line f <> i + 1)
  /\ (contains "#define" l || found const_float_pattern l = true ->
      forall f, In f (get "code_style" (analyze_cpp_code c)) ->
                line f <> i + 1)
  /\ (contains "=" l || contains "class" l || contains "struct" l
      || contains "enum" l = true ->
      forall f, In f (get "potential_bugs" (analyze_cpp_code c)) ->
                issue f = txt "Uninitialized primitive variable" ->
                line f <> i + 1).
Proof.
  intros Hi.
  rewrite !get_analyze by (simpl; tauto).
  repeat split.
  - intros Hx f Hf.
    apply (rejected_line_silent (split nl c) raw_pointer_cond
             raw_pointer_finding i l f (fun _ _ => eq_refl) Hi); [|exact Hf].
    unfold raw_pointer_cond.
    destruct (contains "std::" l), (contains "shared_ptr" l),
      (contains "unique_ptr" l); simpl in *;
      rewrite ?andb_false_r; reflexivity || discriminate.
  - intros Hx f Hf Hissue. apply in_modern_cpp in Hf as [Hf|Hf].
    + apply (rejected_line_silent (split nl c) c_array_cond
               c_array_finding i l f (fun _ _ => eq_refl) Hi); [|exact Hf].
      unfold c_array_cond. rewrite Hx. apply andb_false_r.
    + apply in_per_line_nth in Hf as (j & m & _ & Hf).
      unfold index_loop_rule, list_if in Hf.
      destruct (index_loop_cond m); simpl in Hf; [|tauto].
      destruct Hf as [<-|[]]. discriminate Hissue.
  - intros Hx f Hf.
    apply (rejected_line_silent (split nl c) magic_number_cond
             magic_number_finding i l f (fun _ _ => eq_refl) Hi); [|exact Hf].
    unfold magic_number_cond, define_pattern. rewrite found_Lit.
    destruct (contains "#define" l), (found const_float_pattern l);
      simpl in *; rewrite ?andb_false_r; reflexivity || discriminate.
  - intros Hx f Hf Hissue Hline.
    destruct (in_bugs_uninitialized _ f Hf Hissue) as (j & m & Hj & Hl & Hc).
    assert (j = i) by lia. subst j.
    assert (m = l) by congruence. subst m.
    unfold uninitialized_cond, equals_pattern, aggregate_pattern in Hc.
    rewrite !found_Alt, !found_Lit in Hc.
    destruct (found declaration_pattern l), (contains "=" l),
      (contains "class" l), (contains "struct" l), (contains "enum" l);
      simpl in Hx, Hc; congruence.
Qed.

Definition smart_then_raw : text :=
  txt "std::unique_ptr<int> p = std::make_unique<int>(5);" ++ lf
  ++ txt "int* q = p.get();".

Lemma excluded_lines_not_flagged_witness :
  line (raw_pointer_finding 1 (txt "int* q = p.get();")) <> 0 + 1.
Proof.
  apply (proj1 (excluded_lines_not_flagged smart_then_raw
                  (txt "std::unique_ptr<int> p = std::make_unique<int>(5);")
                  0 eq_refl)).
  - reflexivity.
  - vm_compute. tauto.
Defined.

(* ------------------------------------------------------------------ *)
(** ** The first line and the look-back windows *)

Lemma window_at_start w lines : window w 0 lines = [].
Proof. reflexivity. Qed.

(** X3: on the first line the look-back windows are empty: performance_issues
    never reports line 1, and a member access through a pointer on line 1 is
    always reported as a potential null dereference. *)
Theorem first_line_has_no_lookback (c : text) :
  (forall f, In f (get "performance_issues" (analyze_cpp_code c)) ->
             2 <= line f)
  /\ (forall l rest, split nl c = l :: rest -> contains "->" l = true ->
        In (null_deref_finding 0 l)
          (get "potential_bugs" (analyze_cpp_code c))).
Proof.
  rewrite !get_analyze by (simpl; tauto). split.
  - intros f Hf. unfold findings_of in Hf; simpl in Hf.
    apply in_per_line_nth in Hf as (i & l & Hi & Hf).
    pose proof (performance_line _ _ _ _ Hf) as Hl.
    destruct i as [|i]; [|lia].
    unfold performance_rule, sqrt_cond, string_ops_cond in Hf.
    rewrite !window_at_start in Hf. simpl in Hf.
    rewrite !andb_false_r in Hf. simpl in Hf. tauto.
  - intros l rest Hs Hc. unfold findings_of; simpl.
    apply in_per_line_nth. exists 0, l. rewrite Hs. split; [reflexivity|].
    unfold bugs_rule. apply in_or_app. right.
    unfold null_deref_cond. rewrite !window_at_start, Hc. simpl. now left.
Qed.

Lemma first_line_has_no_lookback_witness :
  In (null_deref_finding 0 (txt "p->x = 1;"))
    (get "potential_bugs" (analyze_cpp_code (txt "p->x = 1;"))).
Proof.
  apply (proj2 (first_line_has_no_lookback (txt "p->x = 1;"))
           (txt "p->x = 1;") []); reflexivity.
Defined.

(* ------------------------------------------------------------------ *)
(** ** One finding per line, and the labels of a category *)

(** X4: memory_management, code_style and game_specific hold at most one
    finding per line: their line numbers are strictly ascending. *)
Theorem single_rule_categories_strict (c k : text) :
  In k [txt "memory_management"; txt "code_style"; txt "game_specific"] ->
  StronglySorted lt (map line (get k (analyze_cpp_code c))).
Proof.
  intros Hk.
  rewrite get_analyze by (simpl in *; tauto).
  simpl in Hk. destruct Hk as [<-|[<-|[<-|[]]]]; unfold findings_of; simpl;
    apply per_line_strict; auto with rules; intros; apply list_if_single.
Qed.

Lemma single_rule_categories_strict_witness :
  StronglySorted lt
    (map line (get "code_style" (analyze_cpp_code two_magic_numbers))).
Proof.
  apply (single_rule_categories_strict two_magic_numbers (txt "code_style")).
  simpl. tauto.
Defined.

(** The issue labels a category can hold. *)
Definition labels_of (k : text) : list text :=
  if text_eqb k "performance_issues"
  then [txt "Expensive sqrt operation in loop";
        txt "String operations in performance-critical code"]
  else if text_eqb k "memory_management" then [txt "Raw pointer usage"]
  else if text_eqb k "code_style" then [txt "Magic number usage"]
  else if text_eqb k "modern_cpp"
  then [txt "C-style array usage"; txt "Index-based loop over container"]
  else if text_eqb k "game_specific"
  then [txt "Direct floating-point comparison"]
  else if text_eqb k "potential_bugs"
  then [txt "Uninitialized primitive variable";
        txt "Potential null pointer dereference"]
  else [].

Lemma per_line_labels lines rule (labels : list text) f :
  (forall i l g, In g (rule i l) -> In (issue g) labels) ->
  In f (per_line lines rule) -> In (issue f) labels.
Proof.
  intros H Hf. apply in_per_line in Hf as (i & l & _ & Hf). eauto.
Qed.

Ltac one_label :=
  let Hg := fresh in
  intros ? ? ? Hg; unfold list_if in Hg;
  match type of Hg with
  | In _ (if ?b then _ else _) => destruct b
  end; simpl in Hg; [|tauto];
  destruct Hg as [<-|[]]; simpl; tauto.

(** X5: every finding carries one of the labels of the category it is filed
    under. *)
Theorem category_fixes_labels (c k : text) fs f :
  In (k, fs) (analyze_cpp_code c) -> In f fs -> In (issue f) (labels_of k).
Proof.
  intros Hin Hf. apply item_analyze in Hin as [Hk ->].
  simpl in Hk.
  destruct Hk as [<-|[<-|[<-|[<-|[<-|[<-|[]]]]]]];
    unfold findings_of in Hf; simpl in Hf.
  - revert Hf. apply per_line_labels. intros i l g Hg.
    unfold performance_rule in Hg. apply in_app_or in Hg as [Hg|Hg];
      revert i l g Hg; one_label.
  - revert Hf. apply per_line_labels. unfold raw_pointer_rule. one_label.
  - revert Hf. apply per_line_labels. unfold magic_number_rule. one_label.
  - apply in_app_or in Hf as [Hf|Hf]; revert Hf; apply per_line_labels.
    + unfold c_array_rule. one_label.
    + unfold index_loop_rule. one_label.
  - revert Hf. apply per_line_labels. unfold float_compare_rule. one_label.
  - revert Hf. apply per_line_labels. intros i l g Hg.
    unfold bugs_rule in Hg. apply in_app_or in Hg as [Hg|Hg].
    + destruct (uninitialized_cond l); [|simpl in Hg; tauto].
      apply in_flat_map in Hg as (t & _ & Hg).
      revert i l g Hg. one_label.
    + revert i l g Hg. one_label.
Qed.

Lemma category_fixes_labels_witness :
  In (issue (magic_number_finding 0 (txt "x = 1.5;"))) (labels_of "code_style").
Proof.
  apply (category_fixes_labels two_magic_numbers (txt "code_style")
           [magic_number_finding 0 (txt "x = 1.5;");
            magic_number_finding 1 (txt "y = 2.5;")]).
  - vm_compute. tauto.
  - simpl. tauto.
Defined.

(* ------------------------------------------------------------------ *)
(** ** Blank lines around the code *)

Lemma per_line_blank rule : rule 0 [] = [] -> per_line [[]] rule = [].
Proof. intros H. unfold per_line; simpl. now rewrite H. Qed.

Lemma per_line_snoc_blank (L : list text) ruleAB ruleA :
  (forall i l, In (i, l) (enumerate L) -> ruleAB i l = ruleA i l) ->
  ruleAB (List.length L) [] = [] ->
  per_line (L ++ [[]]) ruleAB = per_line L ruleA.
Proof.
  intros HA HB.
  rewrite (per_line_app L [[]] ruleAB ruleA (fun _ _ => [])).
  - unfold per_line at 2. simpl. apply app_nil_r.
  - exact HA.
  - intros j l [E|[]]. inversion E; subst. now rewrite Nat.add_0_r.
Qed.

Lemma findings_of_snoc_blank k (L : list text) :
  findings_of k (L ++ [[]]) = findings_of k L.
Proof.
  unfold findings_of.
  repeat match goal with
         | |- context [if ?b then _ else _] => destruct b
         end; try reflexivity.
  - apply per_line_snoc_blank.
    + intros i l Hin. apply in_enumerate_from in Hin.
      unfold performance_rule, sqrt_cond, string_ops_cond.
      now rewrite !window_left by lia.
    + reflexivity.
  - apply per_line_snoc_blank; reflexivity.
  - apply per_line_snoc_blank; reflexivity.
  - f_equal; apply per_line_snoc_blank; reflexivity.
  - apply per_line_snoc_blank; reflexivity.
  - apply per_line_snoc_blank.
    + intros i l Hin. apply in_enumerate_from in Hin.
      unfold bugs_rule, null_deref_cond.
      now rewrite !window_left by lia.
    + reflexivity.
Qed.

Lemma split_snoc_newline c : split nl (c ++ [nl]) = split nl c ++ [[]].
Proof. apply (split_joined c []). Qed.

(** X6: newlines after the last line change nothing: the result for the code
    followed by any number of newlines is the result for the code. *)
Theorem trailing_newlines_ignored (c : text) (n : nat) :
  analyze_cpp_code (c ++ repeat nl n) = analyze_cpp_code c.
Proof.
  induction n as [|n IH].
  - simpl. now rewrite app_nil_r.
  - change (repeat nl (S n)) with (nl :: repeat nl n).
    rewrite repeat_cons, app_assoc, analyze_table, split_snoc_newline.
    rewrite <- IH, analyze_table. apply map_ext. intros k.
    now rewrite findings_of_snoc_blank.
Qed.

Lemma findings_of_cons_blank k (L : list text) :
  findings_of k ([] :: L) = map (shift 1) (findings_of k L).
Proof.
  change ([] :: L) with ([[]] ++ L).
  unfold findings_of.
  repeat match goal with
         | |- context [if ?b then _ else _] => destruct b
         end; try reflexivity.
  - exact (performance_rule_app [[]] L eq_refl eq_refl).
  - apply (local_rule_app [[]] L raw_pointer_cond raw_pointer_finding
             (fun _ _ => eq_refl)).
  - apply (local_rule_app [[]] L magic_number_cond magic_number_finding
             (fun _ _ => eq_refl)).
  - rewrite map_app. f_equal.
    + apply (local_rule_app [[]] L c_array_cond c_array_finding
               (fun _ _ => eq_refl)).
    + apply (local_rule_app [[]] L index_loop_cond index_loop_finding
               (fun _ _ => eq_refl)).
  - apply (local_rule_app [[]] L float_compare_cond float_compare_finding
             (fun _ _ => eq_refl)).
  - exact (bugs_rule_app [[]] L eq_refl).
Qed.

Lemma shift_shift n m f : shift n (shift m f) = shift (m + n) f.
Proof. unfold shift; simpl. f_equal. lia. Qed.

Lemma shift_zero f : shift 0 f = f.
Proof. destruct f. unfold shift; simpl. f_equal. lia. Qed.

(** X7: empty lines before the code only renumber: with [n] newlines put in
    front, every category holds the same findings with line numbers raised
    by [n]. *)
Theorem leading_newlines_renumber (c : text) (n : nat) :
  analyze_cpp_code (repeat nl n ++ c)
  = map (fun item => (fst item, map (shift n) (snd item)))
      (analyze_cpp_code c).
Proof.
  induction n as [|n IH].
  - simpl. rewrite <- (map_id (analyze_cpp_code c)) at 1.
    apply map_ext. intros [k fs]. simpl. f_equal.
    rewrite <- (map_id fs) at 1. apply map_ext. intros f.
    symmetry. apply shift_zero.
  - change (repeat nl (S n) ++ c) with (nl :: (repeat nl n ++ c)).
    rewrite analyze_table.
    change (split nl (nl :: (repeat nl n ++ c)))
      with ([] :: split nl (repeat nl n ++ c)).
    rewrite (analyze_table c), map_map. cbn [fst snd].
    apply map_ext_in. intros k Hk. f_equal.
    rewrite findings_of_cons_blank.
    rewrite <- (get_analyze k (repeat nl n ++ c) Hk), IH.
    rewrite <- (get_analyze k c Hk).
    assert (Hget : forall (a : analysis) g,
               get k (map (fun item => (fst item, map g (snd item))) a)
               = map g (get k a)).
    { intros a g. unfold get. induction a as [|[k0 v] a IHa]; simpl;
        [reflexivity|]. destruct (text_eqb k0 k); [reflexivity|exact IHa]. }
    rewrite Hget, map_map. apply map_ext. intros f. rewrite shift_shift.
    f_equal. lia.
Qed.

(* ------------------------------------------------------------------ *)
(** ** The report of an analysis result *)

Lemma split_lines_single s : forallb single_line (split nl s) = true.
Proof.
  induction s as [|c s IH]; [reflexivity|].
  simpl. destruct (Ascii.eqb c nl) eqn:E.
  - simpl. exact IH.
  - destruct (split nl s) as [|l ls]; simpl in *; [now rewrite E|].
    now rewrite E.
Qed.

Lemma single_line_strip l : single_line l = true -> single_line (strip l) = true.
Proof.
  intros H. destruct (strip_decompose l) as (w1 & w2 & Hl & _).
  rewrite Hl, !single_line_app in H.
  apply andb_true_iff in H as [_ H]. now apply andb_true_iff in H as [H _].
Qed.

Definition printable (f : finding) : bool :=
  single_line (issue f) && single_line (code f) && single_line (suggestion f).

Definition printable_rule (rule : nat -> text -> list finding) : Prop :=
  forall i l, single_line l = true -> forallb printable (rule i l) = true.

Lemma per_line_printable lines rule :
  printable_rule rule -> forallb single_line lines = true ->
  forallb printable (per_line lines rule) = true.
Proof.
  intros Hr Hl. apply forallb_forall. intros f Hf.
  apply in_per_line_nth in Hf as (i & l & Hi & Hf).
  apply nth_error_In in Hi.
  rewrite forallb_forall in Hl. specialize (Hr i l (Hl l Hi)).
  rewrite forallb_forall in Hr. now apply Hr.
Qed.

Lemma list_if_printable (b : nat -> text -> bool) (mk : nat -> text -> finding) :
  (forall i l, code (mk i l) = strip l
               /\ single_line (issue (mk i l)) = true
               /\ single_line (suggestion (mk i l)) = true) ->
  printable_rule (fun i l => list_if (b i l) (mk i l)).
Proof.
  intros H i l Hl. unfold list_if. destruct (b i l); [|reflexivity].
  destruct (H i l) as (Hc & Hi & Hs). simpl. unfold printable.
  now rewrite Hc, Hi, Hs, (single_line_strip l Hl).
Qed.

Lemma printable_rule_app r1 r2 :
  printable_rule r1 -> printable_rule r2 ->
  printable_rule (fun i l => r1 i l ++ r2 i l).
Proof.
  intros H1 H2 i l Hl. now rewrite forallb_app, H1, H2.
Qed.

Lemma findings_of_printable k lines :
  forallb single_line lines = true ->
  forallb printable (findings_of k lines) = true.
Proof.
  intros Hl. unfold findings_of.
  repeat match goal with
         | |- context [if ?b then _ else _] => destruct b
         end; try reflexivity; rewrite ?forallb_app, ?andb_true_iff;
    repeat split; apply per_line_printable; try exact Hl.
  - apply printable_rule_app.
    + now apply (list_if_printable (sqrt_cond lines)).
    + now apply (list_if_printable (string_ops_cond lines)).
  - now apply (list_if_printable (fun _ l => raw_pointer_cond l)).
  - now apply (list_if_printable (fun _ l => magic_number_cond l)).
  - now apply (list_if_printable (fun _ l => c_array_cond l)).
  - now apply (list_if_printable (fun _ l => index_loop_cond l)).
  - now apply (list_if_printable (fun _ l => float_compare_cond l)).
  - apply printable_rule_app.
    + intros i l Hs. destruct (uninitialized_cond l); [|reflexivity].
      apply forallb_forall. intros f Hf.
      apply in_flat_map in Hf as (t & _ & Hf).
      pose proof (list_if_printable
                    (fun _ m => found (typed_declaration_pattern t) m)
                    uninitialized_finding
                    (fun _ _ => conj eq_refl (conj eq_refl eq_refl)) i l Hs)
        as Hp.
      rewrite forallb_forall in Hp. now apply Hp.
    + now apply (list_if_printable (null_deref_cond lines)).
Qed.

Lemma analysis_well_formed (c : text) : well_formed (analyze_cpp_code c) = true.
Proof.
  rewrite analyze_table. unfold well_formed. apply forallb_forall.
  intros [k fs] Hin. apply in_map_iff in Hin as (k' & E & Hk).
  inversion E; subst. cbn [fst snd].
  assert (single_line k = true) as ->.
  { simpl in Hk. destruct Hk as [<-|[<-|[<-|[<-|[<-|[<-|[]]]]]]]; reflexivity. }
  simpl. apply (findings_of_printable k _ (split_lines_single c)).
Qed.

(** X10: for every source text, the report built from its analysis result has
    the block layout line for line, with exactly one bullet line per
    finding: the analyser never produces a key or a text field that holds a
    newline. *)
Theorem report_of_analysis_layout (c : text) :
  let a := analyze_cpp_code c in
  let out := split nl (format_analysis_for_prompt a) in
  well_formed a = true
  /\ out = match report_lines a with [] => [[]] | _ :: _ => report_lines a end
  /\ List.length (filter is_bullet out) = List.length (flat_map snd a).
Proof.
  intros a out. pose proof (analysis_well_formed c) as Hwf. fold a in Hwf.
  split; [exact Hwf|]. unfold out. rewrite format_report_lines.
  pose proof (bullets_of_report a) as Hb.
  pose proof (report_lines_single a Hwf) as Hs.
  destruct (report_lines a) as [|l ls] eqn:E.
  - split; [reflexivity|exact Hb].
  - rewrite split_join by (discriminate || exact Hs).
    split; [reflexivity|exact Hb].
Qed.

Lemma join_nil_inv (ls : list text) :
  join lf ls = [] -> ls = [] \/ ls = [[]].
Proof.
  destruct ls as [|l [|l' ls]]; simpl; auto.
  - intros ->. now right.
  - intros H. apply app_eq_nil in H as [_ H]. discriminate H.
Qed.

Lemma report_lines_nil (a : analysis) :
  report_lines a = [] <-> forall k fs, In (k, fs) a -> fs = [].
Proof.
  unfold report_lines. induction a as [|[k fs] a IH]; simpl.
  - split; [tauto|reflexivity].
  - split.
    + intros H. apply app_eq_nil in H as [H1 H2].
      intros k' fs' [E|Hin].
      * inversion E; subst. unfold category_block in H1; simpl in H1.
        destruct fs'; [reflexivity|discriminate].
      * now apply (proj1 IH H2 k').
    + intros H. rewrite (proj2 IH) by (intros; eapply H; eauto).
      rewrite (H k fs) by now left. reflexivity.
Qed.

(** X11: categories without findings leave no trace in the report: the report is
    the empty string exactly when no category has a finding. *)
Theorem report_empty_iff_no_findings (a : analysis) :
  format_analysis_for_prompt a = [] <-> forall k fs, In (k, fs) a -> fs = [].
Proof.
  rewrite format_report_lines, <- report_lines_nil. split.
  - intros H. apply join_nil_inv in H as [H|H]; [exact H|].
    exfalso. unfold report_lines in H.
    induction a as [|[k fs] a IH]; [discriminate|].
    simpl in H. unfold category_block in H at 1; simpl in H.
    destruct fs as [|f fs]; [now apply IH|].
    inversion H.
  - now intros ->.
Qed.

Lemma report_empty_iff_no_findings_witness :
  format_analysis_for_prompt empty_analysis = [].
Proof.
  apply (proj2 (report_empty_iff_no_findings empty_analysis)).
  intros k fs Hin. simpl in Hin.
  repeat (destruct Hin as [Hin|Hin]; [now inversion Hin|]). now elim Hin.
Defined.

(* ------------------------------------------------------------------ *)
(** ** The first fenced block of a response *)

(** The offset of the first occurrence of [f] in [s]. *)
Fixpoint find_at (f s : text) : option nat :=
  if starts_with f s then Some 0
  else match s with
       | [] => None
       | _ :: s' => option_map S (find_at f s')
       end.

Lemma find_at_unfold f s :
  find_at f s =
  if starts_with f s then Some 0
  else match s with
       | [] => None
       | _ :: s' => option_map S (find_at f s')
       end.
Proof. destruct s; reflexivity. Qed.

Lemma find_at_contains f s : is_some (find_at f s) = contains f s.
Proof.
  induction s as [|c s IH].
  - simpl. destruct (starts_with f []); reflexivity.
  - rewrite find_at_unfold, contains_cons.
    destruct (starts_with f (c :: s)); [reflexivity|].
    simpl. rewrite <- IH. now destruct (find_at f s).
Qed.

(** At the offset found, [f] occurs, and it occurs at no smaller offset. *)
Lemma find_at_spec f s : forall j,
  find_at f s = Some j ->
  s = firstn j s ++ f ++ skipn (j + List.length f) s
  /\ forall i, i < j -> starts_with f (skipn i s) = false.
Proof.
  induction s as [|c s IH]; intros j; rewrite find_at_unfold.
  - destruct (starts_with f []) eqn:E; [|discriminate].
    intros [= <-]. split; [|intros i Hi; lia].
    apply starts_with_spec in E as [r Hr]. cbn [firstn app].
    rewrite Hr at 1. f_equal. rewrite Hr. cbn [Nat.add].
    now rewrite skipn_app, skipn_all, Nat.sub_diag.
  - destruct (starts_with f (c :: s)) eqn:E.
    + intros [= <-]. split; [|intros i Hi; lia].
      apply starts_with_spec in E as [r Hr]. cbn [firstn app Nat.add].
      rewrite Hr at 1. f_equal. rewrite Hr.
      now rewrite skipn_app, skipn_all, Nat.sub_diag.
    + destruct (find_at f s) as [j'|] eqn:Ej; [|discriminate].
      intros [= <-]. destruct (IH j' eq_refl) as [Hs Hmin]. split.
      * cbn [firstn Nat.add skipn app]. f_equal. exact Hs.
      * intros [|i] Hi; [exact E|]. cbn [skipn]. apply Hmin. lia.
Qed.

Lemma starts_with_skipn_firstn f s i j :
  starts_with f (skipn i (firstn j s)) = true ->
  starts_with f (skipn i s) = true.
Proof.
  intros H. destruct f as [|a f]; [reflexivity|].
  apply starts_with_spec in H as [r Hr]. apply starts_with_spec.
  exists (r ++ skipn j s).
  assert (Hlen : i < List.length (firstn j s)).
  { assert (H : List.length (skipn i (firstn j s))
                = List.length ((a :: f) ++ r)) by now rewrite Hr.
    rewrite length_skipn in H. simpl in H. lia. }
  pose proof (firstn_skipn j s) as E. rewrite <- E at 1.
  rewrite skipn_app, Hr.
  replace (i - List.length (firstn j s)) with 0 by lia.
  cbn [skipn]. now rewrite <- app_assoc.
Qed.

Lemma contains_skipn f s :
  contains f s = true <-> exists i, starts_with f (skipn i s) = true.
Proof.
  induction s as [|c s IH].
  - simpl. rewrite orb_false_r. split.
    + intros H. now exists 0.
    + intros [i H]. now destruct i.
  - rewrite contains_cons, orb_true_iff, IH. split.
    + intros [H|[i H]]; [now exists 0|now exists (S i)].
    + intros [[|i] H]; [now left|right; now exists i].
Qed.

Lemma no_fence_before_first f s j :
  f <> [] -> find_at f s = Some j -> contains f (firstn j s) = false.
Proof.
  intros Hne Hj. destruct (find_at_spec f s j Hj) as [_ Hmin].
  destruct (contains f (firstn j s)) eqn:E; [|reflexivity].
  apply contains_skipn in E as [i Hi].
  assert (Hlen : i < j).
  { apply starts_with_spec in Hi as [r Hr].
    assert (H : List.length (skipn i (firstn j s)) = List.length (f ++ r))
      by now rewrite Hr.
    rewrite length_skipn, length_app, length_firstn in H.
    destruct f; [now elim Hne|]. simpl in H. lia. }
  apply (starts_with_skipn_firstn f s i j) in Hi.
  rewrite (Hmin i Hlen) in Hi. discriminate Hi.
Qed.

(** The lazy group followed by the closing fence stops at the first fence. *)
Lemma scan_lazy_closing start s : forall b p g,
  scan_lazy (closing start) b p g s =
  match find_at fence s with
  | Some j =>
      Some (mkCursor (Some "`"%char) (p + j + 3) (skipn (j + 3) s)
              ((1, (start, p + j)) :: g))
  | None => None
  end.
Proof.
  induction s as [|c s IH]; intros b p g.
  - reflexivity.
  - rewrite scan_lazy_unfold, find_at_unfold. unfold closing at 1. cbn [rest].
    destruct (starts_with fence (c :: s)) eqn:E.
    + apply starts_with_spec in E as [r Hr]. rewrite Hr.
      unfold close_group. cbn [before pos rest groups].
      rewrite consume_app. cbn [or_else]. f_equal.
      rewrite Nat.add_0_r. reflexivity.
    + cbn [or_else]. rewrite IH. destruct (find_at fence s) as [j|]; [|reflexivity].
      cbn [option_map skipn Nat.add]. do 2 f_equal; [lia|].
      do 3 f_equal. lia.
Qed.

(** A block starts at the head of [s]. *)
Definition block_at (s : text) : bool :=
  starts_with open_fence s && is_some (find_at fence (skipn 7 s)).

Lemma match_at_block prev p s :
  match_at code_pattern prev p s =
  if starts_with open_fence s
  then match find_at fence (skipn 7 s) with
       | Some j => Some (mkMatch p (p + 7 + j + 3) [(1, (p + 7, p + 7 + j))])
       | None => None
       end
  else None.
Proof.
  rewrite match_at_code_pattern.
  destruct (starts_with open_fence s); [|reflexivity].
  rewrite scan_lazy_closing. now destruct (find_at fence (skipn 7 s)).
Qed.

(** What [re.search] returns for the pattern: the leftmost offset at which a
    block starts, with the group ending at the first fence after it. *)
Lemma search_from_block s : forall prev p m,
  search_from code_pattern prev p s = Some m ->
  exists i j,
    m = mkMatch (p + i) (p + i + 7 + j + 3)
          [(1, (p + i + 7, p + i + 7 + j))]
    /\ starts_with open_fence (skipn i s) = true
    /\ find_at fence (skipn (i + 7) s) = Some j
    /\ forall i', i' < i -> block_at (skipn i' s) = false.
Proof.
  induction s as [|c s IH]; intros prev p m;
    rewrite search_from_unfold, match_at_block.
  - simpl. discriminate.
  - destruct (starts_with open_fence (c :: s)) eqn:E.
    + destruct (find_at fence (skipn 7 (c :: s))) as [j|] eqn:Ej.
      * intros [= <-]. exists 0, j. rewrite !Nat.add_0_r.
        repeat split; [exact E|exact Ej|intros i' Hi'; lia].
      * intros H. apply IH in H as (i & j & -> & Ho & Hf & Hmin).
        exists (S i), j. repeat split.
        -- replace (p + S i) with (S p + i) by lia. reflexivity.
        -- exact Ho.
        -- exact Hf.
        -- intros [|i'] Hi'; [|apply Hmin; lia].
           unfold block_at. change (skipn 0 (c :: s)) with (c :: s).
           now rewrite E, Ej.
    + intros H. apply IH in H as (i & j & -> & Ho & Hf & Hmin).
      exists (S i), j. repeat split.
      * replace (p + S i) with (S p + i) by lia. reflexivity.
      * exact Ho.
      * exact Hf.
      * intros [|i'] Hi'; [|apply Hmin; lia].
        unfold block_at. change (skipn 0 (c :: s)) with (c :: s).
        now rewrite E.
Qed.

Lemma search_from_no_block s : forall prev p,
  search_from code_pattern prev p s = None ->
  forall i, block_at (skipn i s) = false.
Proof.
  induction s as [|c s IH]; intros prev p;
    rewrite search_from_unfold, match_at_block.
  - intros _ i. now destruct i.
  - unfold block_at.
    destruct (starts_with open_fence (c :: s)) eqn:E.
    + destruct (find_at fence (skipn 7 (c :: s))) as [j|] eqn:Ej; [discriminate|].
      intros H [|i].
      * change (skipn 0 (c :: s)) with (c :: s). now rewrite E, Ej.
      * apply (IH _ _ H i).
    + intros H [|i].
      * change (skipn 0 (c :: s)) with (c :: s). now rewrite E.
      * apply (IH _ _ H i).
Qed.

(** The response holds an opening fence with a closing fence after it. *)
Definition has_block (r : text) : Prop :=
  exists a b c, r = a ++ open_fence ++ b ++ fence ++ c.

Lemma decompose_block_at a b c :
  block_at (skipn (List.length a) (a ++ open_fence ++ b ++ fence ++ c)) = true.
Proof.
  rewrite skipn_app, skipn_all, Nat.sub_diag. cbn [skipn app].
  unfold block_at. rewrite starts_with_intro.
  change (skipn 7 (open_fence ++ b ++ fence ++ c)) with (b ++ fence ++ c).
  rewrite find_at_contains. apply contains_intro.
Qed.

Lemma block_at_decompose r i :
  block_at (skipn i r) = true -> has_block r.
Proof.
  unfold block_at. intros H. apply andb_true_iff in H as [Ho Hf].
  apply starts_with_spec in Ho as [rest Hr]. rewrite Hr in Hf.
  change (skipn 7 (open_fence ++ rest)) with rest in Hf.
  rewrite find_at_contains in Hf. apply contains_spec in Hf as (b & c & ->).
  exists (firstn i r), b, c. rewrite <- Hr. symmetry. apply firstn_skipn.
Qed.

Lemma search_block_iff r : search code_pattern r <> None <-> has_block r.
Proof.
  unfold search. split.
  - intros H. destruct (search_from code_pattern None 0 r) as [m|] eqn:E;
      [|now elim H].
    apply search_from_block in E as (i & j & _ & Ho & Hf & _).
    apply (block_at_decompose r i). unfold block_at.
    rewrite Ho. replace (skipn 7 (skipn i r)) with (skipn (i + 7) r)
      by (rewrite skipn_skipn; f_equal; lia).
    now rewrite Hf.
  - intros (a & b & c & ->) H.
    apply search_from_no_block with (i := List.length a) in H.
    now rewrite decompose_block_at in H.
Qed.

Lemma extract_of_match r m :
  search code_pattern r = Some m ->
  exists i j,
    skipn i r = open_fence ++ skipn (i + 7) r
    /\ find_at fence (skipn (i + 7) r) = Some j
    /\ (forall i', i' < i -> block_at (skipn i' r) = false)
    /\ extract_code_and_explanation r
       = (strip (firstn j (skipn (i + 7) r)),
          strip (sub_empty code_pattern r)).
Proof.
  intros Hm. unfold extract_code_and_explanation. rewrite Hm.
  unfold search in Hm.
  apply search_from_block in Hm as (i & j & -> & Ho & Hf & Hmin).
  exists i, j. repeat split; [|exact Hf|exact Hmin|].
  - apply starts_with_spec in Ho as [rest Hr]. rewrite Hr.
    replace (skipn (i + 7) r) with (skipn 7 (skipn i r))
      by (rewrite skipn_skipn; f_equal; lia).
    now rewrite Hr.
  - f_equal. f_equal. unfold group. cbn [m_groups lookup Nat.eqb Nat.add].
    unfold slice. f_equal. lia.
Qed.

Lemma strip_trimmed s : trimmed (strip s) = true.
Proof. now destruct (strip_decompose s) as (_ & _ & _ & _ & _ & H). Qed.

(** X12: a response without an opening fence that has a closing fence after it
    comes back whole: the improved code is empty and the explanation is the
    response, not even trimmed. *)
Theorem extract_without_block (r : text) :
  ~ has_block r -> extract_code_and_explanation r = ([], r).
Proof.
  intros H. unfold extract_code_and_explanation.
  destruct (search code_pattern r) as [m|] eqn:E; [|reflexivity].
  elim H. apply search_block_iff. congruence.
Qed.

Lemma fence_needed_for_block r : contains fence r = false -> ~ has_block r.
Proof.
  intros H (a & b & c & ->).
  rewrite (contains_trans fence open_fence _ eq_refl (contains_intro _ a _)) in H.
  discriminate H.
Qed.

Lemma extract_without_block_witness :
  extract_code_and_explanation (txt " The code is already fine. ")
  = ([], txt " The code is already fine. ").
Proof.
  apply (extract_without_block (txt " The code is already fine. ")).
  apply fence_needed_for_block. reflexivity.
Defined.

(** X13: when the response holds a block, the improved code is the trimmed text
    between the leftmost opening fence that has a closing fence after it
    and the first closing fence after that opening fence. *)
Theorem extract_first_block (r : text) :
  has_block r ->
  exists a b c,
    r = a ++ open_fence ++ b ++ fence ++ c
    /\ (forall a' b' c', r = a' ++ open_fence ++ b' ++ fence ++ c' ->
          List.length a <= List.length a')
    /\ find_at fence (b ++ fence ++ c) = Some (List.length b)
    /\ fst (extract_code_and_explanation r) = strip b.
Proof.
  intros Hb. apply search_block_iff in Hb.
  destruct (search code_pattern r) as [m|] eqn:Hm; [|now elim Hb].
  destruct (extract_of_match r m Hm) as (i & j & Ho & Hf & Hmin & ->).
  set (rest := skipn (i + 7) r) in *.
  destruct (find_at_spec fence rest j Hf) as [Hrest _].
  assert (Hj : List.length (firstn j rest) = j).
  { assert (H : List.length rest
                = List.length (firstn j rest ++ fence
                               ++ skipn (j + List.length fence) rest))
      by now rewrite <- Hrest.
    rewrite !length_app, length_firstn in H. rewrite length_firstn.
    simpl in H. lia. }
  assert (Hi : List.length (firstn i r) = i).
  { assert (H : List.length (skipn i r)
                = List.length (open_fence ++ rest)) by now rewrite Ho.
    rewrite length_skipn, length_app in H. rewrite length_firstn.
    simpl in H. lia. }
  exists (firstn i r), (firstn j rest), (skipn (j + List.length fence) rest).
  repeat split.
  - rewrite <- Hrest, <- Ho. symmetry. apply firstn_skipn.
  - intros a' b' c' Hr. rewrite Hi.
    destruct (Nat.le_gt_cases i (List.length a')) as [Hle|Hgt]; [exact Hle|].
    specialize (Hmin _ Hgt). rewrite Hr, decompose_block_at in Hmin.
    discriminate Hmin.
  - rewrite <- Hrest, Hj. exact Hf.
Qed.

Lemma extract_first_block_witness :
  exists a b c,
    constructed response_prefix response_code response_suffix
    = a ++ open_fence ++ b ++ fence ++ c
    /\ (forall a' b' c',
          constructed response_prefix response_code response_suffix
          = a' ++ open_fence ++ b' ++ fence ++ c' ->
          List.length a <= List.length a')
    /\ find_at fence (b ++ fence ++ c) = Some (List.length b)
    /\ fst (extract_code_and_explanation
              (constructed response_prefix response_code response_suffix))
       = strip b.
Proof.
  apply (extract_first_block
           (constructed response_prefix response_code response_suffix)).
  exists (response_prefix ++ txt " "), (response_code ++ lf),
         (txt " " ++ response_suffix).
  reflexivity.
Defined.

(** X14: whatever the response, the improved code holds no fence and neither
    starts nor ends with whitespace; when a block is found the explanation
    is trimmed as well. *)
Theorem extracted_code_is_clean (r : text) :
  contains fence (fst (extract_code_and_explanation r)) = false
  /\ trimmed (fst (extract_code_and_explanation r)) = true
  /\ (has_block r -> trimmed (snd (extract_code_and_explanation r)) = true).
Proof.
  destruct (search code_pattern r) as [m|] eqn:Hm.
  - destruct (extract_of_match r m Hm) as (i & j & _ & Hf & _ & ->).
    cbn [fst snd]. repeat split.
    + apply no_fence_after_trim.
      apply (no_fence_before_first fence _ j fence_nonempty Hf).
    + apply strip_trimmed.
    + intros _. apply strip_trimmed.
  - unfold extract_code_and_explanation. rewrite Hm. cbn [fst snd].
    repeat split. intros Hb. apply search_block_iff in Hb. now elim Hb.
Qed.

Lemma extracted_code_is_clean_witness :
  trimmed (snd (extract_code_and_explanation
                  (constructed response_prefix response_code response_suffix)))
  = true.
Proof.
  apply (proj2 (proj2 (extracted_code_is_clean
           (constructed response_prefix response_code response_suffix)))).
  exists (response_prefix ++ txt " "), (response_code ++ lf),
         (txt " " ++ response_suffix).
  reflexivity.
Defined.

(* ------------------------------------------------------------------ *)
(** ** The code block of the prompt read back *)

Lemma search_from_fenced Q sep C sep2 R prev p :
  contains fence Q = false -> avoids fence sep = true ->
  contains fence C = false -> avoids fence sep2 = true ->
  let start := p + List.length Q + 1 in
  search_from code_pattern prev p
    (Q ++ sep :: open_fence ++ C ++ sep2 :: fence ++ R)
  = Some (mkMatch start (start + 7 + List.length C + 1 + 3)
            [(1, (start + 7, start + 7 + List.length C + 1))]).
Proof.
  intros HQ Hsep HC Hsep2 start.
  rewrite (search_from_past Q sep _ prev p Hsep HQ). fold start.
  rewrite search_from_unfold, match_at_code_pattern, starts_with_intro.
  change (skipn 7 (open_fence ++ C ++ sep2 :: fence ++ R))
    with (C ++ sep2 :: fence ++ R).
  rewrite (scan_lazy_past _ C sep2 _ _ _ _ Hsep2 HC).
  rewrite scan_lazy_unfold. unfold closing at 1. cbn [rest].
  rewrite starts_with_intro. unfold close_group. cbn [before pos rest groups].
  rewrite consume_app. cbn [or_else pos groups].
  change (List.length fence) with 3. reflexivity.
Qed.

Lemma user_message_shape code prompt :
  user_message code prompt
  = (txt "Here is my C++ game development code:" ++ lf)
    ++ nl :: open_fence ++ code ++ nl :: fence
    ++ (lf ++ lf ++ txt "I want to improve it by: " ++ prompt).
Proof. reflexivity. Qed.

(** X15: the user message of the request wraps the code in a fenced block that
    the extractor reads back: for code without a fence, the extractor
    applied to the user message returns the code, trimmed. *)
Theorem prompt_block_reads_back (code prompt : text) :
  contains fence code = false ->
  fst (extract_code_and_explanation (user_message code prompt)) = strip code.
Proof.
  intros Hc. unfold extract_code_and_explanation, search.
  rewrite user_message_shape.
  rewrite (search_from_fenced
             (txt "Here is my C++ game development code:" ++ lf) nl code nl
             (lf ++ lf ++ txt "I want to improve it by: " ++ prompt) None 0
             eq_refl eq_refl Hc eq_refl).
  cbn [fst]. unfold group. cbn [m_groups lookup Nat.eqb].
  set (Q := txt "Here is my C++ game development code:" ++ lf).
  set (R := lf ++ lf ++ txt "I want to improve it by: " ++ prompt).
  replace (Q ++ nl :: open_fence ++ code ++ nl :: fence ++ R)
    with ((Q ++ nl :: open_fence) ++ (code ++ [nl]) ++ fence ++ R)
    by (rewrite <- !app_assoc; reflexivity).
  replace (0 + List.length Q + 1 + 7)
    with (List.length (Q ++ nl :: open_fence))
    by (rewrite length_app; simpl; lia).
  replace (List.length (Q ++ nl :: open_fence) + List.length code + 1)
    with (List.length (Q ++ nl :: open_fence) + List.length (code ++ [nl]))
    by (rewrite (length_app code); simpl; lia).
  rewrite slice_middle. now apply strip_with_space.
Qed.

Lemma prompt_block_reads_back_witness :
  fst (extract_code_and_explanation
         (user_message response_code (txt "make it faster")))
  = strip response_code.
Proof.
  apply (prompt_block_reads_back response_code (txt "make it faster")).
  reflexivity.
Defined.

(* ------------------------------------------------------------------ *)
(** ** The diff artifact as the signal of failure *)

(** X16: the diff artifact is empty exactly when something inside the [try]
    raised, that is when the key is unset or empty, the completion call
    raised, or the diff renderer raised on the code and the extracted
    improved code; in that case the first component is the original
    code. *)
Theorem empty_diff_iff_failed
  make_table styles legend environ create (prefix : nat) (code prompt : text) :
  let r := generate_code_suggestions make_table styles legend environ create
             prefix code prompt in
  let failed :=
    match environ (txt "GROQ_API_KEY") with
    | Some (c :: key) =>
        match create (c :: key)
                (completion_request
                   (format_analysis_for_prompt (analyze_cpp_code code))
                   code prompt) with
        | Return response =>
            match make_table prefix (splitlines code)
                    (splitlines (fst (extract_code_and_explanation response)))
                    (txt "Original Code") (txt "Improved Code") true 5 with
            | Return _ => false
            | Raise _ => true
            end
        | Raise _ => true
        end
    | _ => true
    end in
  (snd r = [] <-> failed = true) /\ (failed = true -> fst (fst r) = code).
Proof.
  intros r failed. unfold r, failed, generate_code_suggestions.
  destruct (environ (txt "GROQ_API_KEY")) as [[|c key]|]; cbn [bind];
    try (split; [split; reflexivity|reflexivity]).
  destruct (create (c :: key) _) as [response|e]; cbn [bind].
  - destruct (extract_code_and_explanation response) as [improved expl].
    cbn [fst snd]. rewrite generate_diff_table.
    destruct (make_table _ _ _ _ _ _ _) as [table|e]; cbn [bind fst snd].
    + split; [|discriminate]. split; [|discriminate].
      unfold file_template. discriminate.
    + split; [split; reflexivity|reflexivity].
  - split; [split; reflexivity|reflexivity].
Qed.

Definition long_code : text := join lf (repeat (txt "x();") 1000).

Lemma empty_diff_iff_failed_witness :
  fst (fst (generate_code_suggestions sample_table [] []
              (environ_with "gsk_test")
              (answering_client "The code is already fine.") 0 long_code
              "make it faster")) = long_code.
Proof.
  apply (proj2 (empty_diff_iff_failed sample_table [] []
                  (environ_with "gsk_test")
                  (answering_client "The code is already fine.") 0 long_code
                  "make it faster")).
  vm_compute. reflexivity.
Defined.

(* ------------------------------------------------------------------ *)
(** ** Suggestions from an analysis result (code_analyzer.py) *)

(** An issue dict: the four keys of a finding and, possibly, the key
    "replacement". *)
Record issue_dict : Type := mkIssue {
  base : finding;
  replacement : option text
}.

(** An entry of "code_changes". *)
Record code_change : Type := mkChange {
  change_line : nat;
  change_original : text;
  change_replacement : text
}.

(** The returned dict, with its keys "code_changes" and "explanations". *)
Record suggestions : Type := mkSuggestions {
  code_changes : list code_change;
  explanations : list text
}.

(** [issue["code"]] *)
Definition snippet (d : issue_dict) : text := code (base d).

Definition add_explanation (l : text) (s : suggestions) : suggestions :=
  mkSuggestions (code_changes s) (explanations s ++ [l]).

Definition add_change (ch : code_change) (s : suggestions) : suggestions :=
  mkSuggestions (code_changes s ++ [ch]) (explanations s).

Definition backtick : ascii := "`"%char.

Definition suggest_improvements (analysis : list (text * list issue_dict))
  (code : text) : suggestions :=
  let suggestions := mkSuggestions [] [] in
  fold_left (fun suggestions item =>
    let category := fst item in
    let issues := snd item in
    match issues with
    | [] => suggestions
    | _ :: _ =>
        let category_name := title (replace_char "_" " " category) in
        let suggestions :=
          add_explanation (txt "## " ++ category_name) suggestions in
        fold_left (fun suggestions issue_ =>
          let line_num := line (base issue_) in
          let suggestion_ := suggestion (base issue_) in
          let code_snippet := snippet issue_ in
          let suggestions :=
            add_explanation (txt "- Line " ++ str_of_nat line_num ++ txt ": "
                             ++ issue (base issue_)) suggestions in
          let suggestions :=
            add_explanation (txt "  - Current: " ++ [backtick] ++ code_snippet
                             ++ [backtick]) suggestions in
          let suggestions :=
            add_explanation (txt "  - Suggestion: " ++ suggestion_)
              suggestions in
          match replacement issue_ with
          | Some r => add_change (mkChange line_num code_snippet r) suggestions
          | None => suggestions
          end) issues suggestions
    end) analysis suggestions.

(** The result of the analyser as issue dicts: none has a replacement. *)
Definition as_issues (a : analysis) : list (text * list issue_dict) :=
  map (fun item => (fst item, map (fun f => mkIssue f None) (snd item))) a.

Definition change_of (d : issue_dict) : list code_change :=
  match replacement d with
  | Some r => [mkChange (line (base d)) (snippet d) r]
  | None => []
  end.

Definition explain_issue (d : issue_dict) : list text :=
  [txt "- Line " ++ str_of_nat (line (base d)) ++ txt ": " ++ issue (base d);
   txt "  - Current: " ++ [backtick] ++ snippet d ++ [backtick];
   txt "  - Suggestion: " ++ suggestion (base d)].

Definition explain_category (item : text * list issue_dict) : list text :=
  match snd item with
  | [] => []
  | _ :: _ => heading (fst item) :: flat_map explain_issue (snd item)
  end.

Lemma fold_left_suggestions {A} (body : suggestions -> A -> suggestions)
  (ch : A -> list code_change) (ex : A -> list text) :
  (forall s x, body s x = mkSuggestions (code_changes s ++ ch x)
                            (explanations s ++ ex x)) ->
  forall xs s, fold_left body xs s
               = mkSuggestions (code_changes s ++ flat_map ch xs)
                   (explanations s ++ flat_map ex xs).
Proof.
  intros H xs. induction xs as [|x xs IH]; intros s; simpl.
  - rewrite !app_nil_r. now destruct s.
  - rewrite IH, H. simpl. now rewrite <- !app_assoc.
Qed.

Lemma suggest_improvements_lists a code :
  suggest_improvements a code
  = mkSuggestions (flat_map change_of (flat_map snd a))
      (flat_map explain_category a).
Proof.
  unfold suggest_improvements.
  rewrite (fold_left_suggestions _ (fun item => flat_map change_of (snd item))
             explain_category).
  - simpl. f_equal. induction a as [|[k ds] a IH]; simpl; [reflexivity|].
    now rewrite flat_map_app, IH.
  - intros s [k ds]. unfold explain_category. cbn [fst snd].
    destruct ds as [|d ds]; [simpl; rewrite !app_nil_r; now destruct s|].
    rewrite (fold_left_suggestions _ change_of explain_issue).
    + unfold add_explanation, heading. cbn [code_changes explanations].
      now rewrite <- app_assoc.
    + intros s' d'. unfold add_explanation, add_change, change_of, explain_issue.
      destruct (replacement d'); cbn [code_changes explanations];
        rewrite <- ?app_assoc, ?app_nil_r; reflexivity.
Qed.

Definition is_heading (l : text) : bool := starts_with "## " l.

Definition outline (ls : list text) : list text :=
  filter (fun l => is_heading l || is_bullet l) ls.

Lemma outline_app a b : outline (a ++ b) = outline a ++ outline b.
Proof. apply filter_app. Qed.

Lemma outline_explain ds :
  outline (flat_map explain_issue ds)
  = outline (flat_map finding_lines (map base ds)).
Proof.
  induction ds as [|d ds IH]; [reflexivity|].
  cbn [flat_map map]. rewrite !outline_app, IH. reflexivity.
Qed.

(** X17: the explanations and the prompt report have the same outline: the same
    headings and the same "- Line N: issue" lines in the same order; and
    "code_changes" holds one entry for each issue that has a replacement,
    in order, so none for a result of the analyser. *)
Theorem suggestions_follow_report (a : list (text * list issue_dict))
  (code : text) :
  let s := suggest_improvements a code in
  outline (explanations s)
  = outline (report_lines (map (fun item => (fst item, map base (snd item))) a))
  /\ code_changes s = flat_map change_of (flat_map snd a)
  /\ forall c, code_changes
                 (suggest_improvements (as_issues (analyze_cpp_code c)) code)
               = [].
Proof.
  intros s. unfold s. rewrite suggest_improvements_lists.
  cbn [explanations code_changes]. repeat split.
  - unfold report_lines. induction a as [|[k ds] a IH]; [reflexivity|].
    cbn [flat_map map fst snd]. rewrite !outline_app, IH. f_equal.
    unfold explain_category, category_block. cbn [fst snd].
    destruct ds as [|d ds]; [reflexivity|].
    cbn [map].
    change (outline ([heading k] ++ flat_map explain_issue (d :: ds))
            = outline ([heading k]
                       ++ flat_map finding_lines (map base (d :: ds))
                       ++ [[]])).
    rewrite !outline_app, outline_explain. 
    change (outline [[]]) with (@nil text). now rewrite app_nil_r.
  - intros c. rewrite suggest_improvements_lists. cbn [code_changes].
    unfold as_issues. induction (analyze_cpp_code c) as [|[k fs] a' IH];
      [reflexivity|].
    cbn [map flat_map fst snd]. rewrite flat_map_app, IH, app_nil_r.
    induction fs as [|f fs IHf]; [reflexivity|]. exact IHf.
Qed.

(* ------------------------------------------------------------------ *)
(** ** The session state of the application (app.py) *)

(** An entry of the integration history. *)
Record history_entry : Type := mkEntry {
  timestamp : text;
  entry_original : text;
  entry_improved : text;
  entry_explanation : text
}.

(** [st.session_state] *)
Record session_state : Type := mkSession {
  original_code : text;
  improved_code : text;
  explanation : text;
  diff_html : text;
  analysis_results : analysis;
  integrated : bool;
  integration_history : list history_entry
}.

Definition initial_state : session_state :=
  mkSession [] [] [] [] [] false [].

(** The truth value of a string. *)
Definition truthy (s : text) : bool :=
  match s with [] => false | _ :: _ => true end.

(** [integrate_code()], [now] being what [time.strftime] returns. *)
Definition integrate_code (now : text) (st : session_state) : session_state :=
  if truthy (improved_code st) then
    let history :=
      integration_history st
      ++ [mkEntry now (original_code st) (improved_code st) (explanation st)] in
    mkSession (improved_code st) (improved_code st) (explanation st)
      (diff_html st) (analysis_results st) true history
  else st.

(** The assignments shared by the example loader, the restore button and
    the input box: a new original code and no suggestion. *)
Definition start_over (code : text) (st : session_state) : session_state :=
  mkSession code [] [] [] (analysis_results st) false (integration_history st).

Definition load_example (content : text) (st : session_state) : session_state :=
  if truthy content then start_over content st else st.

Definition restore_version (entry : history_entry) (st : session_state)
  : session_state := start_over (entry_improved entry) st.

Definition input_changed (original : text) (st : session_state)
  : session_state :=
  if text_eqb original (original_code st) then st else start_over original st.

(** [s.replace(old, new)] for a non-empty [old]; [skip] counts the
    characters of an occurrence that are still to be passed over. *)
Fixpoint replace_from (old new : text) (skip : nat) (s : text) : text :=
  match s with
  | [] => []
  | c :: s' =>
      match skip with
      | S k => replace_from old new k s'
      | O =>
          if starts_with old s
          then new ++ replace_from old new (List.length old - 1) s'
          else c :: replace_from old new 0 s'
      end
  end.

Definition replace (old new s : text) : text := replace_from old new 0 s.

(** What [display_diff] puts on the page. *)
Inductive view : Type :=
| Html : text -> nat -> bool -> view     (* components.html *)
| Info : text -> view.                   (* st.info *)

Definition display_diff (st : session_state) : view :=
  if truthy (diff_html st) then
    let cleaned_diff :=
      replace (txt "<table class=" ++ q ++ txt "diff" ++ q)
        (txt "<table class=" ++ q ++ txt "diff" ++ q ++ txt " style=" ++ q
         ++ txt "width:100%; font-family:monospace; border-collapse:collapse;"
         ++ q)
        (diff_html st) in
    Html cleaned_diff 600 true
  else Info "No differences to display.".

Section Application.
Variable make_table :
  nat -> list text -> list text -> text -> text -> bool -> nat -> outcome text.
Variables styles legend : text.
Variable environ : text -> option text.
Variable create : text -> request -> outcome text.

(** The body of the "Generate Improvements" button, when the anchor counter
    of the diff renderer has the value [prefix]. *)
Definition generate_improvements (prefix : nat) (prompt : text)
  (st : session_state) : session_state :=
  if truthy (original_code st) && truthy prompt then
    let analysis_results := analyze_cpp_code (original_code st) in
    let '(improved_code, explanation, diff_html) :=
      generate_code_suggestions make_table styles legend environ create
        prefix (original_code st) prompt in
    mkSession (original_code st) improved_code explanation diff_html
      analysis_results false (integration_history st)
  else st.

(** What the user can do on the page. *)
Inductive event : Type :=
| LoadExample : text -> event
| RestoreVersion : nat -> event      (* position in the reversed history *)
| InputChanged : text -> event
| GenerateImprovements : text -> event
| IntegrateCode : text -> event.     (* the time of the click *)

Definition handle (prefix : nat) (st : session_state) (e : event)
  : session_state :=
  match e with
  | LoadExample content => load_example content st
  | RestoreVersion i =>
      match nth_error (rev (integration_history st)) i with
      | Some entry => restore_version entry st
      | None => st
      end
  | InputChanged original => input_changed original st
  | GenerateImprovements prompt => generate_improvements prefix prompt st
  | IntegrateCode now => integrate_code now st
  end.

(** The anchor counter after an event. *)
Definition counter_after (prefix : nat) (st : session_state) (e : event) : nat :=
  match e with
  | GenerateImprovements prompt =>
      if truthy (original_code st) && truthy prompt
      then prefix_after environ create prefix (original_code st) prompt
      else prefix
  | _ => prefix
  end.

(** The process: the anchor counter and the session state. *)
Definition step (w : nat * session_state) (e : event) : nat * session_state :=
  (counter_after (fst w) (snd w) e, handle (fst w) (snd w) e).

Definition all_improved (h : list history_entry) : Prop :=
  forall e, In e h -> entry_improved e <> [].

Lemma handle_history prefix st e :
  all_improved (integration_history st) ->
  (exists more,
     integration_history (handle prefix st e) = integration_history st ++ more)
  /\ all_improved (integration_history (handle prefix st e)).
Proof.
  intros Hall.
  assert (Hsame : forall st',
             integration_history st' = integration_history st ->
             (exists more,
                integration_history st' = integration_history st ++ more)
             /\ all_improved (integration_history st')).
  { intros st' ->. split; [exists []; now rewrite app_nil_r|exact Hall]. }
  destruct e as [content|i|original|prompt|now]; cbn [handle].
  - apply Hsame. unfold load_example. now destruct (truthy content).
  - apply Hsame. now destruct (nth_error _ i).
  - apply Hsame. unfold input_changed. now destruct (text_eqb _ _).
  - apply Hsame. unfold generate_improvements.
    destruct (truthy (original_code st) && truthy prompt); [|reflexivity].
    now destruct (generate_code_suggestions _ _ _ _ _ _ _ _) as [[? ?] ?].
  - unfold integrate_code. destruct (truthy (improved_code st)) eqn:E;
      [|now apply Hsame].
    cbn [integration_history]. split; [now eexists|].
    intros e' Hin. apply in_app_or in Hin as [Hin|[<-|[]]]; [now apply Hall|].
    cbn [entry_improved]. now destruct (improved_code st).
Qed.

End Application.

(** X18: whatever the user does, the integration history only grows at its end,
    and an entry with an empty improved code is never recorded. *)
Theorem history_grows_with_improved_code
  make_table styles legend environ create
  (events : list event) (prefix : nat) (st : session_state) :
  all_improved (integration_history st) ->
  let st' := snd (fold_left (step make_table styles legend environ create)
                    events (prefix, st)) in
  (exists more, integration_history st' = integration_history st ++ more)
  /\ all_improved (integration_history st').
Proof.
  revert prefix st.
  induction events as [|e events IH]; intros prefix st Hall; cbn [fold_left].
  - split; [exists []; now rewrite app_nil_r|exact Hall].
  - destruct (handle_history make_table styles legend environ create prefix
                st e Hall) as [[more1 H1] Hall1].
    unfold step at 2. cbn [fst snd].
    destruct (IH (counter_after environ create prefix st e) _ Hall1)
      as [[more2 H2] Hall2].
    split; [|exact Hall2].
    exists (more1 ++ more2). now rewrite H2, H1, app_assoc.
Qed.

Lemma history_grows_with_improved_code_witness :
  let st' := snd (fold_left
               (step sample_table [] [] (environ_with "gsk_test")
                  (answering_client
                     (constructed response_prefix response_code
                        response_suffix)))
               [InputChanged (txt "int x;");
                GenerateImprovements (txt "initialise x");
                IntegrateCode (txt "2024-01-01 12:00:00")]
               (0, initial_state)) in
  (exists more,
     integration_history st' = integration_history initial_state ++ more)
  /\ all_improved (integration_history st').
Proof.
  apply (history_grows_with_improved_code sample_table [] []
           (environ_with "gsk_test")
           (answering_client
              (constructed response_prefix response_code response_suffix))
           [InputChanged (txt "int x;");
            GenerateImprovements (txt "initialise x");
            IntegrateCode (txt "2024-01-01 12:00:00")]
           0 initial_state).
  intros e Hin. simpl in Hin. now elim Hin.
Defined.

(** X19: a failed completion call can still be integrated: after the button
    with a non-empty code and prompt, the suggestion is the original code,
    the diff view shows "No differences to display.", and integrating
    records an entry whose original and improved code are both the original
    code, leaving the original code as it was. *)
Theorem failed_attempt_integrates_unchanged
  make_table styles legend environ create (prefix : nat)
  (st : session_state) (prompt now key detail : text) :
  original_code st <> [] -> prompt <> [] ->
  environ (txt "GROQ_API_KEY") = Some key -> key <> [] ->
  create key
    (completion_request
       (format_analysis_for_prompt (analyze_cpp_code (original_code st)))
       (original_code st) prompt) = Raise detail ->
  let st1 := generate_improvements make_table styles legend environ create
               prefix prompt st in
  let st2 := integrate_code now st1 in
  improved_code st1 = original_code st
  /\ display_diff st1 = Info "No differences to display."
  /\ integration_history st2
     = integration_history st
       ++ [mkEntry now (original_code st) (original_code st)
             (txt "Error generating suggestions: " ++ detail)]
  /\ original_code st2 = original_code st.
Proof.
  intros Hcode Hprompt Henv Hkey Hfail st1 st2.
  unfold st2, st1, generate_improvements.
  destruct (original_code st) as [|c code'] eqn:Ec; [now elim Hcode|].
  destruct prompt as [|p prompt']; [now elim Hprompt|].
  cbn [truthy andb].
  rewrite (suggest_with_key _ _ _ _ _ _ _ _ _ Henv Hkey), Hfail.
  unfold integrate_code, display_diff.
  cbn [improved_code diff_html truthy original_code explanation
       integration_history].
  repeat split.
Qed.

Definition typed_state : session_state :=
  mkSession (txt "int x;") [] [] [] [] false [].

Lemma failed_attempt_integrates_unchanged_witness :
  let st1 := generate_improvements sample_table [] []
               (environ_with "gsk_test") failing_client 0
               (txt "make it faster") typed_state in
  let st2 := integrate_code (txt "2024-01-01 12:00:00") st1 in
  improved_code st1 = original_code typed_state
  /\ display_diff st1 = Info "No differences to display."
  /\ integration_history st2
     = integration_history typed_state
       ++ [mkEntry (txt "2024-01-01 12:00:00") (original_code typed_state)
             (original_code typed_state)
             (txt "Error generating suggestions: " ++ txt "Connection error.")]
  /\ original_code st2 = original_code typed_state.
Proof.
  apply (failed_attempt_integrates_unchanged sample_table [] []
           (environ_with "gsk_test") failing_client 0 typed_state
           (txt "make it faster") (txt "2024-01-01 12:00:00")
           (txt "gsk_test") (txt "Connection error.")).
  - discriminate.
  - discriminate.
  - reflexivity.
  - discriminate.
  - reflexivity.
Defined.

(* ------------------------------------------------------------------ *)
(** ** The lines handed to the diff renderer *)

Lemma splitlines_cons_break c s :
  is_line_break c = true ->
  splitlines (c :: s)
  = [] :: match s with
          | c' :: s'' =>
              if Ascii.eqb c "013" && Ascii.eqb c' nl
              then splitlines s'' else splitlines s
          | [] => splitlines s
          end.
Proof. intros H. cbn [splitlines]. now rewrite H. Qed.

Lemma splitlines_cons_plain c s :
  is_line_break c = false ->
  splitlines (c :: s)
  = match splitlines s with
    | l :: ls => (c :: l) :: ls
    | [] => [[c]]
    end.
Proof. intros H. cbn [splitlines]. now rewrite H. Qed.

Lemma splitlines_snoc_newline_bounded n : forall s,
  List.length s <= n -> s <> [] -> is_line_break (last s nl) = false ->
  splitlines (s ++ [nl]) = splitlines s.
Proof.
  induction n as [|n IH]; intros s Hn Hne Hlast.
  - destruct s; [now elim Hne|simpl in Hn; lia].
  - destruct s as [|c [|c' s'']]; [now elim Hne| |].
    + simpl in Hlast. cbn [app].
      rewrite (splitlines_cons_plain c [nl] Hlast),
        (splitlines_cons_plain c [] Hlast). reflexivity.
    + assert (Hlast' : is_line_break (last (c' :: s'') nl) = false)
        by exact Hlast.
      assert (IH' : splitlines ((c' :: s'') ++ [nl]) = splitlines (c' :: s''))
        by (apply IH; [simpl in *; lia|discriminate|exact Hlast']).
      change ((c :: c' :: s'') ++ [nl]) with (c :: (c' :: s'') ++ [nl]).
      destruct (is_line_break c) eqn:Ec.
      * rewrite !(splitlines_cons_break c _ Ec). f_equal.
        change ((c' :: s'') ++ [nl]) with (c' :: (s'' ++ [nl])) in *.
        cbv beta iota.
        destruct (Ascii.eqb c "013" && Ascii.eqb c' nl) eqn:Ecr;
          [|exact IH'].
        apply andb_true_iff in Ecr as [_ Enl]. apply Ascii.eqb_eq in Enl.
        subst c'. destruct s'' as [|d s''].
        -- simpl in Hlast. discriminate Hlast.
        -- apply IH; [simpl in *; lia|discriminate|exact Hlast].
      * rewrite !(splitlines_cons_plain c _ Ec). now rewrite IH'.
Qed.

Lemma splitlines_snoc_newline s :
  s <> [] -> is_line_break (last s nl) = false ->
  splitlines (s ++ [nl]) = splitlines s.
Proof. apply (splitlines_snoc_newline_bounded (List.length s)). lia. Qed.

(** X20: one newline at the end of either text does not change what the diff
    renderer is given: at the same value of the anchor counter both calls
    end the same way, with the same artifact or the same exception, for a
    text that is not empty and does not already end with a line break. *)
Theorem diff_ignores_final_newline
  make_table styles legend (prefix : nat) (original improved : text) :
  (original <> [] -> is_line_break (last original nl) = false ->
   splitlines (original ++ lf) = splitlines original
   /\ generate_diff make_table styles legend prefix (original ++ lf) improved
      = generate_diff make_table styles legend prefix original improved)
  /\ (improved <> [] -> is_line_break (last improved nl) = false ->
      splitlines (improved ++ lf) = splitlines improved
      /\ generate_diff make_table styles legend prefix original (improved ++ lf)
         = generate_diff make_table styles legend prefix original improved).
Proof.
  unfold generate_diff, lf. split; intros Hne Hl;
    now rewrite splitlines_snoc_newline.
Qed.

Lemma diff_ignores_final_newline_witness :
  splitlines (txt "int x;" ++ lf) = splitlines (txt "int x;")
  /\ generate_diff sample_table [] [] 0 (txt "int x;" ++ lf) (txt "int x = 0;")
     = generate_diff sample_table [] [] 0 (txt "int x;") (txt "int x = 0;").
Proof.
  apply (proj1 (diff_ignores_final_newline sample_table [] [] 0
                  (txt "int x;") (txt "int x = 0;"))).
  - discriminate.
  - reflexivity.
Defined.

(* ------------------------------------------------------------------ *)
(** ** What a match has to read *)

Definition all_ascii : list ascii := map ascii_of_nat (seq 0 256).

Lemma in_all_ascii c : In c all_ascii.
Proof.
  unfold all_ascii. apply in_map_iff. exists (nat_of_ascii c). split.
  - apply ascii_nat_embedding.
  - apply in_seq. pose proof (nat_ascii_bounded c). lia.
Qed.

(** Every character of class [q] is of class [p]. *)
Definition class_within (q p : ascii -> bool) : bool :=
  forallb (fun c => implb (q c) (p c)) all_ascii.

Lemma class_within_spec q p c : class_within q p = true -> q c = true -> p c = true.
Proof.
  unfold class_within. rewrite forallb_forall. intros H Hq.
  specialize (H c (in_all_ascii c)). now rewrite Hq in H.
Qed.

(** Every match of [r] reads a character of class [p]. *)
Fixpoint needs (p : ascii -> bool) (r : regex) : bool :=
  match r with
  | Eps | WordB | Star _ | LazyStar _ => false
  | Class q => class_within q p
  | Seq r1 r2 => needs p r1 || needs p r2
  | Alt r1 r2 => needs p r1 && needs p r2
  | Group _ r1 => needs p r1
  end.

Section RunReads.
Variable p : ascii -> bool.

(** A successful run hands a cursor further on to its continuation, having
    read a character of class [p] when the expression needs one. *)
Definition reads (r : regex) : Prop :=
  forall cu k res, run r cu k = Some res ->
    exists cu' pre, k cu' = Some res /\ rest cu = pre ++ rest cu'
                    /\ (needs p r = true -> existsb p pre = true).

Definition passes (step : cursor -> (cursor -> option cursor) -> option cursor)
  : Prop :=
  forall cu k res, step cu k = Some res ->
    exists cu' pre, k cu' = Some res /\ rest cu = pre ++ rest cu'.

Lemma reads_passes r : reads r -> passes (run r).
Proof.
  intros H cu k res Hr. destruct (H cu k res Hr) as (cu' & pre & Hk & Hs & _).
  now exists cu', pre.
Qed.

Lemma star_passes r1 (k : cursor -> option cursor) :
  passes (run r1) ->
  forall fuel cu res,
    (fix loop (fuel : nat) (cu : cursor) {struct fuel} : option cursor :=
       match fuel with
       | O => k cu
       | S fuel' =>
           or_else
             (run r1 cu (fun cu' =>
                if pos cu <? pos cu' then loop fuel' cu' else None))
             (k cu)
       end) fuel cu = Some res ->
    exists cu' pre, k cu' = Some res /\ rest cu = pre ++ rest cu'.
Proof.
  intros H1 fuel. induction fuel as [|fuel IH]; intros cu res Hl.
  - exists cu, []. now split.
  - match type of Hl with
    | or_else ?a ?b = _ => destruct a as [x|] eqn:Ea
    end.
    + simpl in Hl. injection Hl as ->.
      apply H1 in Ea as (cu1 & pre1 & Hk1 & Hs1).
      destruct (pos cu <? pos cu1); [|discriminate].
      apply IH in Hk1 as (cu2 & pre2 & Hk2 & Hs2).
      exists cu2, (pre1 ++ pre2). split; [exact Hk2|].
      now rewrite Hs1, Hs2, app_assoc.
    + simpl in Hl. exists cu, []. now split.
Qed.

Lemma lazy_star_passes r1 (k : cursor -> option cursor) :
  passes (run r1) ->
  forall fuel cu res,
    (fix loop (fuel : nat) (cu : cursor) {struct fuel} : option cursor :=
       match fuel with
       | O => k cu
       | S fuel' =>
           or_else
             (k cu)
             (run r1 cu (fun cu' =>
                if pos cu <? pos cu' then loop fuel' cu' else None))
       end) fuel cu = Some res ->
    exists cu' pre, k cu' = Some res /\ rest cu = pre ++ rest cu'.
Proof.
  intros H1 fuel. induction fuel as [|fuel IH]; intros cu res Hl.
  - exists cu, []. now split.
  - destruct (k cu) as [x|] eqn:Ek.
    + simpl in Hl. injection Hl as ->. exists cu, []. now split.
    + simpl in Hl.
      apply H1 in Hl as (cu1 & pre1 & Hk1 & Hs1).
      destruct (pos cu <? pos cu1); [|discriminate].
      apply IH in Hk1 as (cu2 & pre2 & Hk2 & Hs2).
      exists cu2, (pre1 ++ pre2). split; [exact Hk2|].
      now rewrite Hs1, Hs2, app_assoc.
Qed.

Lemma run_reads r : reads r.
Proof.
  induction r as [|q|r1 IH1 r2 IH2|r1 IH1 r2 IH2|r1 IH1|r1 IH1|n r1 IH1|];
    intros cu k res Hr.
  - exists cu, []. repeat split; [exact Hr|discriminate].
  - cbn [run] in Hr. destruct (rest cu) as [|c s'] eqn:E; [discriminate|].
    destruct (q c) eqn:Eq; [|discriminate].
    exists (advance c s' cu), [c]. repeat split; [exact Hr|].
    cbn [needs]. intros Hn. simpl.
    now rewrite (class_within_spec q p c Hn Eq).
  - cbn [run] in Hr.
    apply IH1 in Hr as (cu1 & pre1 & Hk1 & Hs1 & Hn1).
    apply IH2 in Hk1 as (cu2 & pre2 & Hk2 & Hs2 & Hn2).
    exists cu2, (pre1 ++ pre2). repeat split; [exact Hk2| |].
    + now rewrite Hs1, Hs2, app_assoc.
    + cbn [needs]. intros Hn. rewrite existsb_app.
      apply orb_true_iff in Hn as [Hn|Hn];
        [rewrite (Hn1 Hn)|rewrite (Hn2 Hn), orb_true_r]; reflexivity.
  - cbn [run] in Hr. cbn [needs].
    destruct (run r1 cu k) as [x|] eqn:E1.
    + simpl in Hr. injection Hr as ->.
      apply IH1 in E1 as (cu1 & pre1 & Hk1 & Hs1 & Hn1).
      exists cu1, pre1. repeat split; [exact Hk1|exact Hs1|].
      intros Hn. apply andb_true_iff in Hn as [Hn _]. auto.
    + simpl in Hr.
      apply IH2 in Hr as (cu2 & pre2 & Hk2 & Hs2 & Hn2).
      exists cu2, pre2. repeat split; [exact Hk2|exact Hs2|].
      intros Hn. apply andb_true_iff in Hn as [_ Hn]. auto.
  - cbn [run] in Hr.
    apply (star_passes r1 k (reads_passes r1 IH1)) in Hr
      as (cu' & pre & Hk & Hs).
    exists cu', pre. repeat split; [exact Hk|exact Hs|discriminate].
  - cbn [run] in Hr.
    apply (lazy_star_passes r1 k (reads_passes r1 IH1)) in Hr
      as (cu' & pre & Hk & Hs).
    exists cu', pre. repeat split; [exact Hk|exact Hs|discriminate].
  - cbn [run] in Hr.
    apply IH1 in Hr as (cu1 & pre1 & Hk1 & Hs1 & Hn1).
    exists (close_group n (pos cu) cu1), pre1.
    repeat split; [exact Hk1|exact Hs1|exact Hn1].
  - cbn [run] in Hr. destruct (at_boundary cu); [|discriminate].
    exists cu, []. repeat split; [exact Hr|discriminate].
Qed.

Lemma found_reads r l :
  needs p r = true -> found r l = true -> existsb p l = true.
Proof.
  intros Hn. rewrite found_is_some. unfold search.
  generalize (@None ascii) as prev, 0 as o.
  induction l as [|c l IH]; intros prev o; rewrite search_from_unfold.
  - unfold match_at.
    destruct (run r (mkCursor prev o [] []) Some) as [cu|] eqn:E;
      [|discriminate].
    intros _. apply run_reads in E as (cu' & pre & _ & Hs & Hp).
    cbn [rest] in Hs. destruct pre; [|discriminate]. now apply Hp.
  - unfold match_at.
    destruct (run r (mkCursor prev o (c :: l) []) Some) as [cu|] eqn:E.
    + intros _. apply run_reads in E as (cu' & pre & _ & Hs & Hp).
      cbn [rest] in Hs. rewrite Hs, existsb_app, (Hp Hn). reflexivity.
    + intros H. simpl. rewrite (IH _ _ H). apply orb_true_r.
Qed.

Lemma contains_reads t l :
  existsb p t = true -> contains t l = true -> existsb p l = true.
Proof.
  intros Ht Hc. apply contains_spec in Hc as (a & b & ->).
  rewrite !existsb_app, Ht. now rewrite orb_true_r.
Qed.
End RunReads.

(* ------------------------------------------------------------------ *)
(** ** Flagged lines are not blank *)

Definition nonspace (c : ascii) : bool := negb (is_space c).

(** A rule reports only on lines that hold a character other than
    whitespace. *)
Definition inked (rule : nat -> text -> list finding) : Prop :=
  forall i l f, In f (rule i l) -> existsb nonspace l = true.

Lemma list_if_inked (b : nat -> text -> bool) (mk : nat -> text -> finding) :
  (forall i l, b i l = true -> existsb nonspace l = true) ->
  inked (fun i l => list_if (b i l) (mk i l)).
Proof.
  intros H i l f. unfold list_if. destruct (b i l) eqn:E; simpl; [|tauto].
  intros _. now apply (H i).
Qed.

Lemma inked_app r1 r2 : inked r1 -> inked r2 -> inked (fun i l => r1 i l ++ r2 i l).
Proof.
  intros H1 H2 i l f Hin. apply in_app_or in Hin as [Hin|Hin]; eauto.
Qed.

Ltac first_conjunct H :=
  repeat (apply andb_true_iff in H; destruct H as [H _]).

Lemma raw_pointer_inked : inked raw_pointer_rule.
Proof.
  apply (list_if_inked (fun _ l => raw_pointer_cond l)). intros _ l H.
  unfold raw_pointer_cond in H. first_conjunct H.
  now apply (found_reads nonspace raw_pointer_pattern).
Qed.

Lemma c_array_inked : inked c_array_rule.
Proof.
  apply (list_if_inked (fun _ l => c_array_cond l)). intros _ l H.
  unfold c_array_cond in H. first_conjunct H.
  now apply (found_reads nonspace c_array_pattern).
Qed.

Lemma index_loop_inked : inked index_loop_rule.
Proof.
  apply (list_if_inked (fun _ l => index_loop_cond l)). intros _ l H.
  unfold index_loop_cond in H. first_conjunct H.
  now apply (contains_reads nonspace (txt "for")).
Qed.

Lemma float_compare_inked : inked float_compare_rule.
Proof.
  apply (list_if_inked (fun _ l => float_compare_cond l)). intros _ l H.
  now apply (found_reads nonspace float_compare_pattern).
Qed.

Lemma magic_number_inked : inked magic_number_rule.
Proof.
  apply (list_if_inked (fun _ l => magic_number_cond l)). intros _ l H.
  unfold magic_number_cond in H. first_conjunct H.
  now apply (found_reads nonspace magic_number_pattern).
Qed.

Lemma performance_inked lines : inked (performance_rule lines).
Proof.
  apply inked_app.
  - apply (list_if_inked (sqrt_cond lines)). intros i l H.
    unfold sqrt_cond in H. first_conjunct H.
    now apply (contains_reads nonspace (txt "sqrt")).
  - apply (list_if_inked (string_ops_cond lines)). intros i l H.
    unfold string_ops_cond in H. first_conjunct H.
    apply orb_true_iff in H as [H|H].
    + now apply (contains_reads nonspace (txt "std::string")).
    + first_conjunct H. now apply (contains_reads nonspace (txt "+=")).
Qed.

Lemma bugs_inked lines : inked (bugs_rule lines).
Proof.
  apply inked_app.
  - intros i l f Hf. destruct (uninitialized_cond l) eqn:E;
      [|simpl in Hf; tauto].
    unfold uninitialized_cond in E. first_conjunct E.
    now apply (found_reads nonspace declaration_pattern).
  - apply (list_if_inked (null_deref_cond lines)). intros i l H.
    unfold null_deref_cond in H. first_conjunct H.
    now apply (contains_reads nonspace (txt "->")).
Qed.

Lemma findings_of_inked k lines f :
  In f (findings_of k lines) ->
  exists l, nth_error lines (line f - 1) = Some l /\ code f = strip l
            /\ existsb nonspace l = true.
Proof.
  intros Hf. destruct (findings_of_source k lines f Hf) as (l & Hl & Hc).
  exists l. repeat split; [exact Hl|exact Hc|].
  assert (Hgen : forall rule, line_is rule -> inked rule ->
                   In f (per_line lines rule) -> existsb nonspace l = true).
  { intros rule Hline Hink Hin.
    apply in_per_line_nth in Hin as (i & m & Hi & Hin).
    pose proof (Hline _ _ _ Hin) as Hn. rewrite Hn in Hl.
    replace (i + 1 - 1) with i in Hl by lia.
    assert (m = l) by congruence. subst m. now apply (Hink i l f). }
  unfold findings_of in Hf.
  repeat match type of Hf with
         | context [if ?b then _ else _] => destruct b
         end;
    try (apply in_app_or in Hf as [Hf|Hf]);
    try (revert Hf; apply Hgen; auto with rules;
         first [ apply raw_pointer_inked | apply c_array_inked
               | apply index_loop_inked | apply float_compare_inked
               | apply magic_number_inked | apply performance_inked
               | apply bugs_inked ]).
  simpl in Hf. tauto.
Qed.

Lemma strip_nil_all_space l : strip l = [] -> existsb nonspace l = false.
Proof.
  intros H. destruct (strip_decompose l) as (w1 & w2 & Hl & H1 & H2 & _).
  rewrite H in Hl. rewrite Hl, !existsb_app. simpl.
  assert (Hw : forall w, all_space w = true -> existsb nonspace w = false).
  { intros w. unfold all_space, nonspace.
    induction w as [|c w IH]; simpl; [reflexivity|].
    rewrite andb_true_iff. intros [-> Hw]. simpl. now apply IH. }
  now rewrite (Hw w1 H1), (Hw w2 H2).
Qed.

(** X8: a blank line is never flagged: the code of a finding is never the
    empty string. *)
Theorem snippet_never_empty (c k : text) fs f :
  In (k, fs) (analyze_cpp_code c) -> In f fs -> code f <> [].
Proof.
  intros Hin Hf. apply item_analyze in Hin as [_ ->].
  apply findings_of_inked in Hf as (l & _ & Hc & Hn).
  intros E. rewrite Hc in E. apply strip_nil_all_space in E. congruence.
Qed.

Lemma snippet_never_empty_witness :
  code (magic_number_finding 0 (txt "x = 1.5;")) <> [].
Proof.
  apply (snippet_never_empty two_magic_numbers (txt "code_style")
           [magic_number_finding 0 (txt "x = 1.5;");
            magic_number_finding 1 (txt "y = 2.5;")]).
  - vm_compute. tauto.
  - simpl. tauto.
Defined.

(** The line counts of [split] on newline and of [splitlines]. *)
Lemma line_counts_bounded n : forall s,
  List.length s <= n ->
  List.length (split nl s) <= List.length (splitlines s) + 1
  /\ (last (split nl s) [] <> [] ->
      List.length (split nl s) <= List.length (splitlines s)).
Proof.
  induction n as [|n IH]; intros s Hn.
  - destruct s; [|simpl in Hn; lia]. simpl. split; [lia|intros H; now elim H].
  - destruct s as [|c s]; [simpl; split; [lia|intros H; now elim H]|].
    assert (Hs : List.length s <= n) by (simpl in Hn; lia).
    destruct (IH s Hs) as [IH1 IH2].
    pose proof (split_nonempty s) as Hne.
    destruct (Ascii.eqb c nl) eqn:Enl.
    + apply Ascii.eqb_eq in Enl. subst c.
      change (split nl (nl :: s)) with ([] :: split nl s).
      assert (Hsl : splitlines (nl :: s) = [] :: splitlines s)
        by (destruct s; reflexivity).
      rewrite Hsl. cbn [List.length].
      destruct (split nl s) as [|l ls] eqn:E; [now elim Hne|].
      cbn [last]. split; [lia|]. intros H. apply IH2 in H. lia.
    + assert (Hsplit : split nl (c :: s)
                       = match split nl s with
                         | l :: ls => (c :: l) :: ls
                         | [] => [[c]]
                         end) by (cbn [split]; now rewrite Enl).
      rewrite Hsplit. destruct (split nl s) as [|l ls] eqn:E; [now elim Hne|].
      destruct (is_line_break c) eqn:Ec.
      * rewrite (splitlines_cons_break c s Ec).
        destruct s as [|c' s''].
        -- simpl in *. split; lia.
        -- destruct (Ascii.eqb c "013" && Ascii.eqb c' nl) eqn:Ecr.
           ++ apply andb_true_iff in Ecr as [_ Ec'].
              apply Ascii.eqb_eq in Ec'. subst c'.
              change (split nl (nl :: s'')) with ([] :: split nl s'') in E.
              injection E as <- <-.
              assert (Hs'' : List.length s'' <= n) by (simpl in *; lia).
              destruct (IH s'' Hs'') as [IH1' IH2'].
              pose proof (split_nonempty s'') as Hne'.
              destruct (split nl s'') as [|l2 ls2] eqn:E2; [now elim Hne'|].
              cbn [List.length last] in *. split; [lia|].
              intros H. apply IH2' in H. lia.
           ++ cbn [List.length] in *. split; [lia|]. intros _. lia.
      * rewrite (splitlines_cons_plain c s Ec).
        destruct ls as [|l2 ls].
        -- cbn [List.length]. destruct (splitlines s); simpl; split; lia.
        -- cbn [last List.length] in *.
           destruct (splitlines s) as [|m ms] eqn:Em.
           ++ simpl in IH1. lia.
           ++ cbn [List.length] in *. split; [lia|].
              intros H. apply IH2 in H. lia.
Qed.

Lemma nth_last (ls : list text) l :
  nth_error ls (List.length ls - 1) = Some l -> last ls [] = l.
Proof.
  induction ls as [|x ls IH]; [discriminate|].
  destruct ls as [|y ls].
  - simpl. now intros [= ->].
  - intros H. change (last (x :: y :: ls) []) with (last (y :: ls) []).
    apply IH.
    replace (List.length (x :: y :: ls) - 1)
      with (S (List.length (y :: ls) - 1)) in H by (simpl; lia).
    exact H.
Qed.

(** X9: every finding points at a line the diff renderer is given: its line
    number is at most the number of lines [splitlines] finds in the code. *)
Theorem findings_within_diff_lines (c k : text) fs f :
  In (k, fs) (analyze_cpp_code c) -> In f fs ->
  1 <= line f <= List.length (splitlines c).
Proof.
  intros Hin Hf. apply item_analyze in Hin as [_ ->].
  pose proof (findings_of_range _ _ _ Hf) as [Hlo Hhi].
  split; [exact Hlo|].
  apply findings_of_inked in Hf as (l & Hl & _ & Hn).
  destruct (line_counts_bounded (List.length c) c (le_n _)) as [H1 H2].
  destruct (Nat.eq_dec (line f) (List.length (split nl c))) as [E|E]; [|lia].
  rewrite E. apply H2.
  assert (Hlast : last (split nl c) [] = l)
    by (apply nth_last; now rewrite <- E).
  rewrite Hlast. intros ->. discriminate Hn.
Qed.

Lemma findings_within_diff_lines_witness :
  1 <= line (magic_number_finding 1 (txt "y = 2.5;"))
    <= List.length (splitlines two_magic_numbers).
Proof.
  apply (findings_within_diff_lines two_magic_numbers (txt "code_style")
           [magic_number_finding 0 (txt "x = 1.5;");
            magic_number_finding 1 (txt "y = 2.5;")]).
  - vm_compute. tauto.
  - simpl. tauto.
Defined.
